(** * HR-assistant: the extraction and ranking pipeline

    A shallow embedding of [backend/resume_parser.py],
    [backend/candidate_ranker.py] and the ranking part of [backend/main.py],
    with the properties of the pipeline proved over it.

    Conventions.
    - A Python [str] is a Rocq [string] holding its UTF-8 bytes.
    - A Python exception is a value of [exn]; a call that may raise returns a
      [result].
    - The generative service, the PDF loader and the embedding model are
      outside the program: what they answer is an input of the functions
      that call them. *)

From Stdlib Require Import List String Ascii ZArith QArith Lia Bool Arith.
From Stdlib Require Import Permutation Sorted DecimalString.
Import ListNotations.
Open Scope string_scope.
Open Scope list_scope.
Open Scope Z_scope.

(** ** Python values *)

(** A Python float, as far as [json.loads] can produce one: a decimal
    literal [m * 10^e] (its rounding to binary64 is not modelled), an
    infinity or a NaN. *)
Inductive pyfloat :=
| FDec (m e : Z)
| FInf (negative : bool)
| FNaN.

#[local] Set Warnings "-register-all".

(** What [json.loads] returns. A [dict] keeps its keys in insertion order
    and holds each key once. *)
Inductive value :=
| VNone
| VBool (b : bool)
| VInt (z : Z)
| VFloat (f : pyfloat)
| VStr (s : string)
| VList (l : list value)
| VDict (d : list (string * value)).

Definition dict := list (string * value).

Inductive exn :=
| ValueError (msg : string)
| TypeError (msg : string)
| AttributeError (msg : string)
| IndexError (msg : string)
| JSONDecodeError (msg : string)
| HTTPException (status : Z) (detail : string)
| ExternalError (msg : string).

Inductive result (A : Type) :=
| Ok (a : A)
| Raise (e : exn).
Arguments Ok {A} a.
Arguments Raise {A} e.

Definition bind {A B : Type} (r : result A) (k : A -> result B) : result B :=
  match r with
  | Ok a => k a
  | Raise e => Raise e
  end.

Notation "x <- r ;; k" := (bind r (fun x => k))
  (at level 61, r at next level, right associativity).

(** [str(e)] *)
Definition exn_str (e : exn) : string :=
  match e with
  | ValueError m | TypeError m | AttributeError m | IndexError m
  | JSONDecodeError m | HTTPException _ m | ExternalError m => m
  end.

(** ** Dictionaries *)

Module Dict.

(** [d.get(k)] *)
Fixpoint lookup (k : string) (d : dict) : option value :=
  match d with
  | [] => None
  | (k', v) :: d' => if String.eqb k k' then Some v else lookup k d'
  end.

(** [k in d] *)
Definition mem (k : string) (d : dict) : bool :=
  match lookup k d with
  | Some _ => true
  | None => false
  end.

(** [d.get(k, default)] *)
Definition get (k : string) (default : value) (d : dict) : value :=
  match lookup k d with
  | Some v => v
  | None => default
  end.

(** [d[k] = v]: an existing key keeps its place, a new key goes last. *)
Fixpoint set (k : string) (v : value) (d : dict) : dict :=
  match d with
  | [] => [(k, v)]
  | (k', v') :: d' =>
      if String.eqb k k' then (k', v) :: d' else (k', v') :: set k v d'
  end.

(** [d.update(items)], the meaning of [{**d, **items}] on a copy of [d]. *)
Definition update (d items : dict) : dict :=
  fold_left (fun acc kv => set (fst kv) (snd kv) acc) items d.

Definition keys (d : dict) : list string := map fst d.

End Dict.

(** ** Regular expressions

    The four patterns of the program are sequences of literal characters,
    [\s*], [.*] and [.*?] under [re.DOTALL], and one capture group. The
    matcher below is a backtracking matcher for such sequences: leftmost
    match, greedy and lazy stars tried in the order [re] tries them. *)

Module Re.

Inductive atom :=
| Lit (c : ascii)
| AnyStar (greedy : bool)
| SpaceStar
| GOpen
| GClose.

Definition regex := list atom.

Fixpoint lits (s : string) : regex :=
  match s with
  | EmptyString => []
  | String c s' => Lit c :: lits s'
  end.

Definition byte (a : ascii) : nat := nat_of_ascii a.

(** [\s] on a [str] pattern is Unicode white space. In UTF-8:
    U+0009..U+000D, U+001C..U+0020 on one byte; U+0085 and U+00A0 on two;
    U+1680, U+2000..U+200A, U+2028, U+2029, U+202F, U+205F and U+3000 on
    three. *)
Definition is_space1 (a : ascii) : bool :=
  let n := byte a in
  (((9 <=? n) && (n <=? 13)) || ((28 <=? n) && (n <=? 32)))%nat.

Definition is_space2 (a b : ascii) : bool :=
  ((byte a =? 194) && ((byte b =? 133) || (byte b =? 160)))%nat.

Definition is_space3 (a b c : ascii) : bool :=
  let x := byte a in
  let y := byte b in
  let z := byte c in
  (((x =? 225) && (y =? 154) && (z =? 128))
   || ((x =? 226) && (y =? 128)
       && (((128 <=? z) && (z <=? 138)) || (z =? 168) || (z =? 169)
           || (z =? 175)))
   || ((x =? 226) && (y =? 129) && (z =? 159))
   || ((x =? 227) && (y =? 128) && (z =? 128)))%nat.

Definition or_else {A : Type} (a b : option A) : option A :=
  match a with
  | Some _ => a
  | None => b
  end.

(** [match_here p s g] matches [p] at the start of [s]. [g] holds the
    suffixes of the text at which the group opened and closed so far; the
    result adds the suffix left after the match. [.] steps over one byte:
    in both patterns that have [.*] the next atom is the ASCII [}], which
    is no part of a longer UTF-8 sequence, so stepping over bytes or over
    code points finds the same span. *)
Fixpoint match_here (p : regex) (s : string) (g : string * string)
  {struct p} : option (string * string * string) :=
  match p with
  | [] => Some (fst g, snd g, s)
  | Lit c :: p' =>
      match s with
      | String x s' => if Ascii.eqb x c then match_here p' s' g else None
      | EmptyString => None
      end
  | GOpen :: p' => match_here p' s (s, snd g)
  | GClose :: p' => match_here p' s (fst g, s)
  | AnyStar true :: p' =>
      (fix greedy (s : string) :=
         match s with
         | EmptyString => match_here p' s g
         | String _ s' => or_else (greedy s') (match_here p' s g)
         end) s
  | AnyStar false :: p' =>
      (fix lazy (s : string) :=
         match match_here p' s g with
         | Some r => Some r
         | None =>
             match s with
             | EmptyString => None
             | String _ s' => lazy s'
             end
         end) s
  | SpaceStar :: p' =>
      (fix spaces (s : string) :=
         let stop := match_here p' s g in
         match s with
         | EmptyString => stop
         | String a s1 =>
             if is_space1 a then or_else (spaces s1) stop
             else
               match s1 with
               | EmptyString => stop
               | String b s2 =>
                   if is_space2 a b then or_else (spaces s2) stop
                   else
                     match s2 with
                     | EmptyString => stop
                     | String c s3 =>
                         if is_space3 a b c then or_else (spaces s3) stop
                         else stop
                     end
               end
         end) s
  end.

(** The text between two suffixes of it. *)
Definition upto (from to : string) : string :=
  substring 0 (String.length from - String.length to) from.

(** A match object: [m.group(0)] and [m.group(1)]. *)
Record rmatch := { group0 : string; group1 : string }.

(** [re.search(p, s, re.DOTALL)] *)
Fixpoint search (p : regex) (s : string) : option rmatch :=
  match match_here p s (s, s) with
  | Some (go, gc, rest) =>
      Some {| group0 := upto s rest; group1 := upto go gc |}
  | None =>
      match s with
      | EmptyString => None
      | String _ s' => search p s'
      end
  end.

(** [re.sub(p, repl, s)] for a pattern that matches no empty string (both
    patterns it is called with start with a comma). [skip] counts the
    characters of the current match still to be dropped. *)
Fixpoint sub_from (p : regex) (repl : string) (s : string) (skip : nat)
  : string :=
  match s with
  | EmptyString => EmptyString
  | String c s' =>
      match skip with
      | S k => sub_from p repl s' k
      | O =>
          match match_here p s (s, s) with
          | Some (_, _, rest) =>
              match (String.length s - String.length rest)%nat with
              | O => String c (sub_from p repl s' 0)
              | S k => (repl ++ sub_from p repl s' k)%string
              end
          | None => String c (sub_from p repl s' 0)
          end
      end
  end.

Definition sub (p : regex) (repl : string) (s : string) : string :=
  sub_from p repl s 0.

End Re.

(** [r'```json\s*(\{.*?\})\s*```'] *)
Definition fenced_json_re : Re.regex :=
  (Re.lits "```json"
   ++ [Re.SpaceStar; Re.GOpen; Re.Lit "{"; Re.AnyStar false; Re.Lit "}";
       Re.GClose; Re.SpaceStar]
   ++ Re.lits "```")%list.

(** [r'(\{.*\})'] *)
Definition brace_span_re : Re.regex :=
  [Re.GOpen; Re.Lit "{"; Re.AnyStar true; Re.Lit "}"; Re.GClose].

(** [r',\s*}'] *)
Definition comma_brace_re : Re.regex := [Re.Lit ","; Re.SpaceStar; Re.Lit "}"].

(** [r',\s*]'] *)
Definition comma_bracket_re : Re.regex :=
  [Re.Lit ","; Re.SpaceStar; Re.Lit "]"].

(** ** [json.loads]

    The decoder of the [json] module: a recursive-descent parser. Nesting is
    bounded by a fuel that the entry point takes from the length of the
    text; running out of it is reported apart from a malformed text. *)

Module Json.

Inductive parsed (A : Type) :=
| Parsed (a : A) (rest : string)
| Malformed
| OutOfFuel.
Arguments Parsed {A} a rest.
Arguments Malformed {A}.
Arguments OutOfFuel {A}.

Definition pmap {A B : Type} (f : A -> B) (p : parsed A) : parsed B :=
  match p with
  | Parsed a rest => Parsed (f a) rest
  | Malformed => Malformed
  | OutOfFuel => OutOfFuel
  end.

Definition byte (a : ascii) : N := N_of_ascii a.

(** The decoder's white space: space, tab, line feed, carriage return. *)
Definition is_ws (a : ascii) : bool :=
  let n := byte a in
  ((n =? 32) || (n =? 9) || (n =? 10) || (n =? 13))%N.

Fixpoint skip_ws (s : string) : string :=
  match s with
  | EmptyString => EmptyString
  | String c s' => if is_ws c then skip_ws s' else s
  end.

(** [starts c s] is what follows [c] when [s] begins with it. *)
Definition starts (c : ascii) (s : string) : option string :=
  match s with
  | EmptyString => None
  | String x s' => if Ascii.eqb x c then Some s' else None
  end.

Fixpoint strip_prefix (p s : string) : option string :=
  match p with
  | EmptyString => Some s
  | String c p' =>
      match s with
      | EmptyString => None
      | String x s' => if Ascii.eqb x c then strip_prefix p' s' else None
      end
  end.

Definition is_digit (a : ascii) : bool :=
  ((48 <=? byte a) && (byte a <=? 57))%N.

Definition hex_val (a : ascii) : option N :=
  let n := byte a in
  (if (48 <=? n) && (n <=? 57) then Some (n - 48)
   else if (97 <=? n) && (n <=? 102) then Some (n - 87)
   else if (65 <=? n) && (n <=? 70) then Some (n - 55)
   else None)%N.

(** Four hexadecimal digits of a [\uXXXX] escape. *)
Definition hex4 (s : string) : option (N * string) :=
  match s with
  | String a (String b (String c (String d rest))) =>
      match hex_val a, hex_val b, hex_val c, hex_val d with
      | Some x, Some y, Some z, Some w =>
          Some (((x * 16 + y) * 16 + z) * 16 + w, rest)%N
      | _, _, _, _ => None
      end
  | _ => None
  end.

Definition chr (n : N) : ascii := ascii_of_N n.

(** The UTF-8 bytes of a code point; a lone surrogate takes three bytes
    like any other code point below U+10000. *)
Definition utf8 (cp : N) : string :=
  (if cp <? 128 then String (chr cp) EmptyString
   else if cp <? 2048 then
     String (chr (192 + cp / 64)) (String (chr (128 + cp mod 64)) EmptyString)
   else if cp <? 65536 then
     String (chr (224 + cp / 4096))
       (String (chr (128 + (cp / 64) mod 64))
          (String (chr (128 + cp mod 64)) EmptyString))
   else
     String (chr (240 + cp / 262144))
       (String (chr (128 + (cp / 4096) mod 64))
          (String (chr (128 + (cp / 64) mod 64))
             (String (chr (128 + cp mod 64)) EmptyString))))%N.

Definition is_high_surrogate (cp : N) : bool :=
  ((55296 <=? cp) && (cp <=? 56319))%N.
Definition is_low_surrogate (cp : N) : bool :=
  ((56320 <=? cp) && (cp <=? 57343))%N.
Definition join_surrogates (hi lo : N) : N :=
  (65536 + (hi - 55296) * 1024 + (lo - 56320))%N.

(** The character a one-letter escape stands for. *)
Definition simple_escape (e : ascii) : option ascii :=
  let n := byte e in
  (if (n =? 34) || (n =? 92) || (n =? 47) then Some e
   else if n =? 98 then Some (chr 8)
   else if n =? 102 then Some (chr 12)
   else if n =? 110 then Some (chr 10)
   else if n =? 114 then Some (chr 13)
   else if n =? 116 then Some (chr 9)
   else None)%N.

Definition prepend (p : string) (r : parsed string) : parsed string :=
  pmap (fun s => (p ++ s)%string) r.

(** [scanstring] in strict mode, from the character after the opening
    quote. *)
Fixpoint scan_string (fuel : nat) (s : string) : parsed string :=
  match fuel with
  | O => OutOfFuel
  | S f =>
      match s with
      | EmptyString => Malformed
      | String c s1 =>
          if (byte c =? 34)%N then Parsed EmptyString s1
          else if (byte c =? 92)%N then
            match s1 with
            | EmptyString => Malformed
            | String e s2 =>
                if (byte e =? 117)%N then
                  match hex4 s2 with
                  | None => Malformed
                  | Some (hi, s3) =>
                      match (if is_high_surrogate hi
                             then strip_prefix "\u" s3 else None) with
                      | Some s4 =>
                          match hex4 s4 with
                          | None => Malformed
                          | Some (lo, s5) =>
                              if is_low_surrogate lo
                              then prepend (utf8 (join_surrogates hi lo))
                                     (scan_string f s5)
                              else prepend (utf8 hi) (scan_string f s3)
                          end
                      | None => prepend (utf8 hi) (scan_string f s3)
                      end
                  end
                else
                  match simple_escape e with
                  | Some x => prepend (String x EmptyString) (scan_string f s2)
                  | None => Malformed
                  end
            end
          else if (byte c <? 32)%N then Malformed
          else prepend (String c EmptyString) (scan_string f s1)
      end
  end.

Fixpoint take_digits (s : string) : string * string :=
  match s with
  | EmptyString => (EmptyString, EmptyString)
  | String c s' =>
      if is_digit c
      then let (d, r) := take_digits s' in (String c d, r)
      else (EmptyString, s)
  end.

Fixpoint digits_value (acc : Z) (d : string) : Z :=
  match d with
  | EmptyString => acc
  | String c d' => digits_value (acc * 10 + Z.of_N (byte c - 48)) d'
  end.

(** The integer part: [0], or a non-zero digit and the digits after it. *)
Definition int_part (s : string) : option (string * string) :=
  match s with
  | EmptyString => None
  | String c s' =>
      if (byte c =? 48)%N then Some (String c EmptyString, s')
      else if is_digit c then Some (take_digits s)
      else None
  end.

(** [.] and at least one digit, else nothing. *)
Definition frac_part (s : string) : option (string * string) :=
  match s with
  | String p (String c _ as s') =>
      if ((byte p =? 46)%N && is_digit c)%bool then Some (take_digits s')
      else None
  | _ => None
  end.

(** [e] or [E], a sign if there is one, and at least one digit, else
    nothing. *)
Definition exp_part (s : string) : option (Z * string) :=
  match s with
  | String e s' =>
      if ((byte e =? 101) || (byte e =? 69))%N then
        let (neg, s1) :=
          match s' with
          | String g s'' =>
              if (byte g =? 45)%N then (true, s'')
              else if (byte g =? 43)%N then (false, s'')
              else (false, s')
          | EmptyString => (false, s')
          end in
        match take_digits s1 with
        | (EmptyString, _) => None
        | (d, r) =>
            Some (if neg then - digits_value 0 d else digits_value 0 d, r)
        end
      else None
  | EmptyString => None
  end.

(** A number: an [int] when it has neither fraction nor exponent, a
    [float] otherwise. *)
Definition parse_number (s : string) : parsed value :=
  let (neg, s0) :=
    match starts "-" s with
    | Some r => (true, r)
    | None => (false, s)
    end in
  match int_part s0 with
  | None => Malformed
  | Some (i, s1) =>
      let (fr, s2) :=
        match frac_part s1 with
        | Some (d, r) => (Some d, r)
        | None => (None, s1)
        end in
      let (ex, s3) :=
        match exp_part s2 with
        | Some (x, r) => (Some x, r)
        | None => (None, s2)
        end in
      let sign (z : Z) := if neg then - z else z in
      match fr, ex with
      | None, None => Parsed (VInt (sign (digits_value 0 i))) s3
      | _, _ =>
          let d := match fr with Some d => d | None => EmptyString end in
          let x := match ex with Some x => x | None => 0 end in
          Parsed (VFloat (FDec (sign (digits_value (digits_value 0 i) d))
                            (x - Z.of_nat (String.length d)))) s3
      end
  end.

(** The constants the decoder knows, tried before a number. *)
Definition constants : list (string * value) :=
  [("null", VNone); ("true", VBool true); ("false", VBool false);
   ("NaN", VFloat FNaN); ("Infinity", VFloat (FInf false));
   ("-Infinity", VFloat (FInf true))].

Fixpoint parse_constant (cs : list (string * value)) (s : string)
  : option (value * string) :=
  match cs with
  | [] => None
  | (name, v) :: cs' =>
      match strip_prefix name s with
      | Some rest => Some (v, rest)
      | None => parse_constant cs' s
      end
  end.

(** [scan_once], with the object and array loops of the decoder. An
    object is built by assigning its pairs in order, so a key given twice
    keeps its first place and its last value. *)
Fixpoint parse_value (fuel : nat) (s : string) : parsed value :=
  match fuel with
  | O => OutOfFuel
  | S f =>
      match s with
      | EmptyString => Malformed
      | String c s' =>
          if (byte c =? 34)%N then
            pmap VStr (scan_string (S (String.length s')) s')
          else if (byte c =? 123)%N then
            match starts "}" (skip_ws s') with
            | Some rest => Parsed (VDict []) rest
            | None => parse_members f (skip_ws s') []
            end
          else if (byte c =? 91)%N then
            match starts "]" (skip_ws s') with
            | Some rest => Parsed (VList []) rest
            | None => parse_elements f (skip_ws s') []
            end
          else
            match parse_constant constants s with
            | Some (v, rest) => Parsed v rest
            | None => parse_number s
            end
      end
  end

with parse_members (fuel : nat) (s : string) (acc : dict) : parsed value :=
  match fuel with
  | O => OutOfFuel
  | S f =>
      match starts (chr 34) s with
      | None => Malformed
      | Some s1 =>
          match scan_string (S (String.length s1)) s1 with
          | Parsed k s2 =>
              match starts ":" (skip_ws s2) with
              | None => Malformed
              | Some s3 =>
                  match parse_value f (skip_ws s3) with
                  | Parsed v s4 =>
                      let acc' := Dict.set k v acc in
                      match starts "}" (skip_ws s4) with
                      | Some rest => Parsed (VDict acc') rest
                      | None =>
                          match starts "," (skip_ws s4) with
                          | Some s5 => parse_members f (skip_ws s5) acc'
                          | None => Malformed
                          end
                      end
                  | Malformed => Malformed
                  | OutOfFuel => OutOfFuel
                  end
              end
          | Malformed => Malformed
          | OutOfFuel => OutOfFuel
          end
      end
  end

with parse_elements (fuel : nat) (s : string) (acc : list value)
  : parsed value :=
  match fuel with
  | O => OutOfFuel
  | S f =>
      match parse_value f s with
      | Parsed v s1 =>
          match starts "]" (skip_ws s1) with
          | Some rest => Parsed (VList (rev (v :: acc))) rest
          | None =>
              match starts "," (skip_ws s1) with
              | Some s2 => parse_elements f (skip_ws s2) (v :: acc)
              | None => Malformed
              end
          end
      | Malformed => Malformed
      | OutOfFuel => OutOfFuel
      end
  end.

(** [json.loads(s)]: white space, one value, white space, end of text.
    The text of the decoder's message, which carries a position, is not
    reproduced. The fuel is enough for every text (proved below), so the
    last branch is never taken; the bound that Python itself puts on
    nesting, its recursion limit, is not modelled. *)
Definition loads (s : string) : result value :=
  match parse_value (2 * String.length s + 2) (skip_ws s) with
  | Parsed v rest =>
      match skip_ws rest with
      | EmptyString => Ok v
      | String _ _ => Raise (JSONDecodeError "Extra data")
      end
  | Malformed => Raise (JSONDecodeError "Expecting value")
  | OutOfFuel => Raise (ExternalError "RecursionError")
  end.

End Json.

(** ** [resume_parser.extract_json] *)

Definition extract_json (text : string) : result value :=
  json_str <-
    match Re.search fenced_json_re text with
    | Some m => Ok (Re.group1 m)
    | None =>
        match Re.search brace_span_re text with
        | None => Raise (ValueError "JSON not found in AI response")
        | Some m => Ok (Re.group0 m)
        end
    end ;;
  let json_str := Re.sub comma_brace_re "}" json_str in
  let json_str := Re.sub comma_bracket_re "]" json_str in
  Json.loads json_str.

(** ** The environment and the generative service *)

(** [get_client], in both modules: [os.getenv("AI_API_KEY")] is [None] when
    the variable is unset, and [not api_key] also holds of the empty
    string. The client stands for its key. *)
Definition get_client (api_key : option string) : result string :=
  match api_key with
  | None => Raise (ValueError "AI_API_KEY not set in environment")
  | Some EmptyString => Raise (ValueError "AI_API_KEY not set in environment")
  | Some k => Ok k
  end.

(** What one [client.models.generate_content] call does: it raises, or it
    answers a response whose [text] is a string or [None]. *)
Definition reply := result (option string).

(** [re.search(pattern, ai_text)] raises [TypeError] on [None]. *)
Definition response_text (resp : option string) : result string :=
  match resp with
  | Some t => Ok t
  | None =>
      Raise (TypeError "expected string or bytes-like object, got 'NoneType'")
  end.

(** ** [candidate_ranker.evaluate_candidate] *)

Definition is_str (v : value) : bool :=
  match v with
  | VStr _ => true
  | _ => false
  end.

(** [type(v).__name__] *)
Definition type_name (v : value) : string :=
  match v with
  | VNone => "NoneType"
  | VBool _ => "bool"
  | VInt _ => "int"
  | VFloat _ => "float"
  | VStr _ => "str"
  | VList _ => "list"
  | VDict _ => "dict"
  end.

(** [str(n)] for an index. *)
Definition str_nat (n : nat) : string :=
  NilZero.string_of_uint (Nat.to_uint n).

(** What [join] says of the first item that is no string, [i] being the
    index of the head of the list. *)
Fixpoint join_error (i : nat) (l : list value) : string :=
  match l with
  | [] => ""
  | v :: rest =>
      if is_str v then join_error (S i) rest
      else ("sequence item " ++ str_nat i ++ ": expected str instance, "
            ++ type_name v ++ " found")%string
  end.

(** [', '.join(v)], kept as far as it can raise: a [str] and the keys of a
    [dict] are iterables of strings, a list is one when all its items are
    strings, nothing else can be iterated. The joined text only goes into
    the prompt. *)
Definition join (v : value) : result unit :=
  match v with
  | VStr _ | VDict _ => Ok tt
  | VList l =>
      if forallb is_str l then Ok tt
      else Raise (TypeError (join_error 0 l))
  | _ => Raise (TypeError "can only join an iterable")
  end.

(** ** Standard output

    [print] writes to a standard output that encodes to UTF-8, as Python's
    does unless the environment says otherwise, and encoding raises
    [UnicodeEncodeError] on a lone surrogate. Texts are held here as their
    UTF-8 bytes, a lone surrogate as the three bytes it would take
    ([Json.utf8], what [json.loads] makes of an escape such as [\ud800]):
    the byte [ED] followed by a byte from [A0] on, which no other code
    point gives. *)
Fixpoint has_surrogate (s : string) : bool :=
  match s with
  | EmptyString => false
  | String a s' =>
      match s' with
      | EmptyString => false
      | String b _ =>
          (((N_of_ascii a =? 237) && (160 <=? N_of_ascii b))%N
           || has_surrogate s')%bool
      end
  end.

(** [str(v)] can be encoded. Only a [str] can bring a lone surrogate: the
    text of a number, of a truth value and of [None] is ASCII, and that of
    a list or of a dict is made with [repr], which escapes them. *)
Definition printable (v : value) : bool :=
  match v with
  | VStr s => negb (has_surrogate s)
  | _ => true
  end.

(** [UnicodeEncodeError], a [ValueError]; its message names the character
    and its position, which are not reproduced. *)
Definition unicode_encode_error : exn :=
  ValueError "'utf-8' codec can't encode character: surrogates not allowed".

(** [print(f"...")] of an f-string whose fields outside its fixed text
    are the [str] of [fields]. The text of an exception put into the
    f-string is taken to be printable: the program's own messages are
    ASCII, and the libraries' format their arguments with [repr]; so is
    that of a date. The fixed texts of the program are well-formed. *)
Definition print (fields : list value) : result unit :=
  if forallb printable fields then Ok tt else Raise unicode_encode_error.

(** The candidate summary of the prompt. Formatting a field into the
    f-string cannot raise; the two joins can. The prompt's text reaches
    the service only, whose answer is an input here. *)
Definition candidate_summary (candidate : dict) : result unit :=
  _ <- join (Dict.get "skills" (VList []) candidate) ;;
  join (Dict.get "key_achievements" (VList []) candidate).

(** Lines 66-76: the JSON recovery written out inside
    [evaluate_candidate]. *)
Definition evaluation_json (ai_text : string) : result value :=
  json_str <-
    match Re.search fenced_json_re ai_text with
    | Some m => Ok (Re.group1 m)
    | None =>
        match Re.search brace_span_re ai_text with
        | None => Raise (ValueError "JSON not found")
        | Some m => Ok (Re.group0 m)
        end
    end ;;
  Json.loads json_str.

(** The items written after [**candidate] in the [except] branch. *)
Definition fallback_items (candidate : dict) : dict :=
  [("score", Dict.get "preliminary_score" (VInt 50) candidate);
   ("match_percentage", VInt 50);
   ("summary", VStr "Unable to generate detailed assessment");
   ("strengths", VList [VStr "Evaluation pending"]);
   ("gaps", VList []);
   ("recommendation", VStr "moderate_fit")].

Definition fallback (candidate : dict) : dict :=
  Dict.update candidate (fallback_items candidate).

(** The body of the [try]: the call, the recovery and the merge
    [{**candidate, **evaluation}], which raises [TypeError] when
    [evaluation] is no mapping. *)
Definition try_evaluate (r : reply) (candidate : dict) : result dict :=
  resp <- r ;;
  ai_text <- response_text resp ;;
  evaluation <- evaluation_json ai_text ;;
  match evaluation with
  | VDict ev => Ok (Dict.update candidate ev)
  | _ =>
      Raise (TypeError ("'" ++ type_name evaluation
                        ++ "' object is not a mapping")%string)
  end.

(** [evaluate_candidate(candidate, job_description)], given the key found
    in the environment and what the service does with the call. The client
    and the prompt are made before the [try]; the handler prints the
    candidate's name, line 83, before it returns the fallback. *)
Definition evaluate_candidate (api_key : option string) (r : reply)
  (candidate : dict) (job_description : string) : result dict :=
  _ <- get_client api_key ;;
  _ <- candidate_summary candidate ;;
  match try_evaluate r candidate with
  | Ok enhanced_candidate => Ok enhanced_candidate
  | Raise _ =>
      _ <- print [Dict.get "name" (VStr "Unknown") candidate] ;;
      Ok (fallback candidate)
  end.

(** ** Ordering of Python values *)

Module Py.

(** The numbers among the values: [bool] is a subtype of [int], and an
    [int] and a [float] compare by their exact values. *)
Inductive number :=
| NFin (m e : Z)
| NInf (negative : bool)
| NNaN.

Definition as_number (v : value) : option number :=
  match v with
  | VBool b => Some (NFin (if b then 1 else 0) 0)
  | VInt z => Some (NFin z 0)
  | VFloat (FDec m e) => Some (NFin m e)
  | VFloat (FInf n) => Some (NInf n)
  | VFloat FNaN => Some NNaN
  | _ => None
  end.

(** [m * 10^e] as a multiple of [10^base], for [base <= e]. *)
Definition scaled (m e base : Z) : Z := m * 10 ^ (e - base).

Definition num_lt (a b : number) : bool :=
  match a, b with
  | NNaN, _ => false
  | _, NNaN => false
  | NInf true, NInf true => false
  | NInf true, _ => true
  | _, NInf true => false
  | NInf false, _ => false
  | _, NInf false => true
  | NFin m1 e1, NFin m2 e2 =>
      let base := Z.min e1 e2 in
      scaled m1 e1 base <? scaled m2 e2 base
  end.

(** Equality of two numbers held in containers. The decoder's NaN is one
    object, and a container compares its items by identity before [==],
    so there NaN equals itself. *)
Definition num_same (a b : number) : bool :=
  match a, b with
  | NNaN, NNaN => true
  | NInf x, NInf y => Bool.eqb x y
  | NFin m1 e1, NFin m2 e2 =>
      let base := Z.min e1 e2 in
      scaled m1 e1 base =? scaled m2 e2 base
  | _, _ => false
  end.

(** [x is y or x == y] on two items of containers. Two dicts are equal
    when they have the same keys with equal values, in any order. *)
Fixpoint item_eq (v1 v2 : value) {struct v1} : bool :=
  match as_number v1, as_number v2 with
  | Some a, Some b => num_same a b
  | _, _ =>
      match v1, v2 with
      | VNone, VNone => true
      | VStr a, VStr b => String.eqb a b
      | VList l1, VList l2 =>
          (fix all2 (l1 l2 : list value) : bool :=
             match l1, l2 with
             | [], [] => true
             | x :: l1', y :: l2' => item_eq x y && all2 l1' l2'
             | _, _ => false
             end) l1 l2
      | VDict d1, VDict d2 =>
          (List.length d1 =? List.length d2)%nat
          && (fix each (d : list (string * value)) : bool :=
                match d with
                | [] => true
                | (k, v) :: d' =>
                    match Dict.lookup k d2 with
                    | Some v' => item_eq v v'
                    | None => false
                    end && each d'
                end) d1
      | _, _ => false
      end
  end.

(** [v1 < v2]: numbers by value, strings by code points (the order of
    their UTF-8 bytes), lists by their first differing items; any other
    pair raises [TypeError]. *)
Fixpoint lt (v1 v2 : value) {struct v1} : result bool :=
  match as_number v1, as_number v2 with
  | Some a, Some b => Ok (num_lt a b)
  | _, _ =>
      match v1, v2 with
      | VStr a, VStr b => Ok (String.ltb a b)
      | VList l1, VList l2 =>
          (fix lex (l1 l2 : list value) : result bool :=
             match l1, l2 with
             | [], [] => Ok false
             | [], _ :: _ => Ok true
             | _ :: _, [] => Ok false
             | x :: l1', y :: l2' =>
                 if item_eq x y then lex l1' l2' else lt x y
             end) l1 l2
      | _, _ =>
          Raise (TypeError ("'<' not supported between instances of '"
                            ++ type_name v1 ++ "' and '" ++ type_name v2
                            ++ "'")%string)
      end
  end.

(** [len(v)]; the length of a [str] counts code points, that is the
    bytes that do not continue a UTF-8 sequence. *)
Fixpoint code_points (s : string) : nat :=
  match s with
  | EmptyString => O
  | String c s' =>
      let n := N_of_ascii c in
      if ((128 <=? n) && (n <? 192))%N then code_points s'
      else S (code_points s')
  end.

Definition len (v : value) : result Z :=
  match v with
  | VStr s => Ok (Z.of_nat (code_points s))
  | VList l => Ok (Z.of_nat (List.length l))
  | VDict d => Ok (Z.of_nat (List.length d))
  | _ =>
      Raise (TypeError ("object of type '" ++ type_name v
                        ++ "' has no len()")%string)
  end.

(** [sorted(l, key=key, reverse=True)]. The list sort is stable and
    compares keys with [<] alone; with [reverse] it reverses the list,
    sorts it in ascending order and reverses the outcome, which keeps
    items of equal keys in their first order. The ascending sort is
    written as an insertion sort. When some keys cannot be ordered, which
    pairs the list sort compares, and so whether it raises, follows its
    own merge strategy; the insertion sort raises as soon as it meets such
    a pair. *)
Section Sorted.

Context {A : Type}.
Variable key : A -> value.

Fixpoint insert (x : A) (l : list A) : result (list A) :=
  match l with
  | [] => Ok [x]
  | y :: l' =>
      b <- lt (key y) (key x) ;;
      if b then l'' <- insert x l' ;; Ok (y :: l'')
      else Ok (x :: y :: l')
  end.

Fixpoint sort (l : list A) : result (list A) :=
  match l with
  | [] => Ok []
  | x :: l' => s <- sort l' ;; insert x s
  end.

Definition sorted_reverse (l : list A) : result (list A) :=
  s <- sort (rev l) ;; Ok (rev s).

End Sorted.

End Py.

(** ** [candidate_ranker.rank_candidates] *)

(** [asyncio.gather] over the evaluation tasks: the results come in the
    order of the candidates; [service i] is what the service does with the
    call of the task at index [i]. When tasks raise, the exception of the
    first of them in the list is the one reported here. *)
Fixpoint gather_evaluations (api_key : option string) (service : nat -> reply)
  (i : nat) (candidates : list dict) (job_description : string)
  : result (list dict) :=
  match candidates with
  | [] => Ok []
  | candidate :: rest =>
      e <- evaluate_candidate api_key (service i) candidate job_description ;;
      es <- gather_evaluations api_key service (S i) rest job_description ;;
      Ok (e :: es)
  end.

(** [lambda x: x.get('score', 0)] *)
Definition score_key (x : dict) : value := Dict.get "score" (VInt 0) x.

Definition rank_candidates (api_key : option string) (service : nat -> reply)
  (candidates : list dict) (job_description : string) : result (list dict) :=
  match candidates with
  | [] => Ok []
  | _ :: _ =>
      evaluated_candidates <-
        gather_evaluations api_key service 0 candidates job_description ;;
      Py.sorted_reverse score_key evaluated_candidates
  end.

(** ** [resume_parser.retrieve_chunks] *)

Module Np.

(** [a[start:]] for an integer [start]: a negative one counts from the
    end, and both kinds are clipped to the array. *)
Definition slice_from {A : Type} (start : Z) (a : list A) : list A :=
  let n := Z.of_nat (List.length a) in
  let lo := if start <? 0 then Z.max (n + start) 0 else Z.min start n in
  skipn (Z.to_nat lo) a.

(** [sim[i]] for an index of the array. *)
Definition at_index (sim : list Q) (i : nat) : Q := nth i sim 0%Q.

(** [sim[i] < sim[j]] *)
Definition sim_lt (sim : list Q) (i j : nat) : bool :=
  negb (Qle_bool (at_index sim j) (at_index sim i)).

(** An index sort that keeps equal values in index order, as the
    insertion sort that numpy's default sort runs on a short array
    does. *)
Fixpoint insert_index (sim : list Q) (i : nat) (l : list nat) : list nat :=
  match l with
  | [] => [i]
  | j :: l' =>
      if sim_lt sim j i then j :: insert_index sim i l' else i :: j :: l'
  end.

Definition stable_argsort (sim : list Q) : list nat :=
  fold_right (insert_index sim) [] (seq 0 (List.length sim)).

End Np.

(** [[docs[i] for i in top_idx]] *)
Fixpoint select {A : Type} (docs : list A) (idx : list nat) : result (list A) :=
  match idx with
  | [] => Ok []
  | i :: idx' =>
      match nth_error docs i with
      | Some d => ds <- select docs idx' ;; Ok (d :: ds)
      | None => Raise (IndexError "list index out of range")
      end
  end.

(** [retrieve_chunks(query, docs, embeddings, top_k)]. The embedding model
    and [cosine_similarity] are outside the program: [sim] is the row
    [cosine_similarity(query_emb, embeddings)[0]], one finite number for
    each embedding. [argsort] is numpy's [ndarray.argsort], whose default
    kind promises ascending values and nothing about equal ones. *)
Definition retrieve_chunks {A : Type} (argsort : list Q -> list nat)
  (docs : list A) (sim : list Q) (top_k : Z) : result (list A) :=
  let top_idx := rev (Np.slice_from (- top_k) (argsort sim)) in
  select docs top_idx.

(** ** [resume_parser.generate_candidate_info] and [parse_resume] *)

(** [generate_candidate_info(text, job_description)]; the handler prints
    the exception only, line 107, see [print]. *)
Definition generate_candidate_info (api_key : option string) (r : reply)
  (text job_description : string) : result value :=
  _ <- get_client api_key ;;
  match (resp <- r ;; ai_text <- response_text resp ;; extract_json ai_text)
  with
  | Ok candidate => Ok candidate
  | Raise e =>
      Ok (VDict [("error",
                 VStr ("Failed to parse resume: " ++ exn_str e)%string)])
  end.

(** What lies behind one file location: the chunks [load_pdf] returns,
    given by their [page_content]; the similarity of each chunk to the
    query, from the embedding model and [cosine_similarity]; and what the
    service does with the extraction prompt. *)
Record resume := {
  load_pdf : result (list string);
  similarity : list string -> result (list Q);
  extraction : reply
}.

(** [k in v] *)
Definition contains (k : string) (v : value) : result bool :=
  match v with
  | VDict d => Ok (Dict.mem k d)
  | VList l => Ok (existsb (Py.item_eq (VStr k)) l)
  | VStr s =>
      Ok (match index 0 k s with Some _ => true | None => false end)
  | _ => Raise (TypeError "argument is not iterable")
  end.

(** [v.get], which only a [dict] has. *)
Definition get_method (v : value) : result dict :=
  match v with
  | VDict d => Ok d
  | _ => Raise (AttributeError "object has no attribute 'get'")
  end.

Definition newline : string := String (ascii_of_nat 10) EmptyString.

(** Lines 115-123 of [parse_resume]: from the file to the candidate that
    [generate_candidate_info] returns. *)
Definition extracted_candidate (api_key : option string)
  (argsort : list Q -> list nat) (file : resume) (job_description : string)
  : result value :=
  docs <- load_pdf file ;;
  sim <- similarity file docs ;;
  chunks <- retrieve_chunks argsort docs sim 5 ;;
  let combined_text := String.concat newline chunks in
  generate_candidate_info api_key (extraction file) combined_text
    job_description.

(** [parse_resume(file_location, job_description)]; whatever is raised
    inside it comes back as an error record. The handler prints the
    exception only, line 135, see [print]. *)
Definition parse_resume (api_key : option string)
  (argsort : list Q -> list nat) (file : resume) (job_description : string)
  : value :=
  let body : result value :=
    candidate <- extracted_candidate api_key argsort file job_description ;;
    has_error <- contains "error" candidate ;;
    if has_error : bool then Ok candidate
    else
      d <- get_method candidate ;;
      num_skills <- Py.len (Dict.get "skills" (VList []) d) ;;
      Ok (VDict (Dict.set "preliminary_score"
                   (VInt (Z.min (num_skills * 10) 100)) d)) in
  match body with
  | Ok candidate => candidate
  | Raise e => VDict [("error", VStr (exn_str e))]
  end.

(** ** [main.upload_resumes] *)

(** One uploaded file: its name, what writing it to its temporary
    location and removing it again do, and the resume behind it; and, for
    the handler, whether [os.path.exists] then finds the temporary file
    and what removing it there does. *)
Record upload := {
  filename : string;
  write_file : result unit;
  content : resume;
  remove_file : result unit;
  left_over : bool;
  remove_left_over : result unit
}.

Fixpoint ends_with (suffix s : string) : bool :=
  if String.eqb s suffix then true
  else
    match s with
    | EmptyString => false
    | String _ s' => ends_with suffix s'
    end.

(** The handler of the loop over the files, lines 92-96: it prints the
    name of the file and removes the temporary file when it is there.
    What it raises leaves [upload_resumes]. *)
Definition handle_failure (file : upload) : result unit :=
  _ <- print [VStr (filename file)] ;;
  if left_over file then remove_left_over file else Ok tt.

(** The loop over the files, lines 73-96: [parsed_candidates] at its end.
    An exception inside the [try] goes to the handler, which skips the
    file. [parse_resume] only returns dicts (proved below), so a value of
    another kind has no branch of its own. *)
Fixpoint parsed_candidates (api_key : option string)
  (argsort : list Q -> list nat) (files : list upload)
  (job_description_store : string) : result (list dict) :=
  match files with
  | [] => Ok []
  | file :: rest =>
      let later :=
        parsed_candidates api_key argsort rest job_description_store in
      if negb (ends_with ".pdf" (filename file)) then later
      else
        match
          (_ <- write_file file ;;
           let candidate_info :=
             parse_resume api_key argsort (content file)
               job_description_store in
           _ <- remove_file file ;;
           has_error <- contains "error" candidate_info ;;
           Ok (has_error, candidate_info))
        with
        | Ok (false, VDict d) => parsed <- later ;; Ok (d :: parsed)
        | Ok _ => later
        | Raise _ => _ <- handle_failure file ;; later
        end
  end.

(** [candidate['id'] = idx] over [enumerate(ranked_candidates)] *)
Fixpoint with_ids (idx : Z) (ranked : list dict) : list dict :=
  match ranked with
  | [] => []
  | candidate :: rest =>
      Dict.set "id" (VInt idx) candidate :: with_ids (idx + 1) rest
  end.

(** [upload_resumes(files)]: the new [candidates_store]. *)
Definition upload_resumes (job_description_store : string)
  (api_key : option string) (argsort : list Q -> list nat)
  (service : nat -> reply) (files : list upload) : result (list dict) :=
  match job_description_store with
  | EmptyString =>
      Raise (HTTPException 400 "Please post a job description first")
  | String _ _ =>
      parsed <-
        parsed_candidates api_key argsort files job_description_store ;;
      match parsed with
      | [] => Raise (HTTPException 400 "No valid resumes processed")
      | _ :: _ =>
          ranked <-
            rank_candidates api_key service parsed job_description_store ;;
          Ok (with_ids 0 ranked)
      end
  end.

(** ** Python's library

    [ExternalError] stands for the exceptions whose class has no
    constructor of its own above ([KeyError], [OverflowError], what a
    client library raises): every handler of the program is
    [except Exception] or a bare [except], so the class of what is caught
    is never looked at. *)

(** [KeyError(k)], whose [str] is the [repr] of the key; the keys looked
    up by the program have no quote and no backslash in them. *)
Definition key_error (k : string) : exn :=
  ExternalError ("'" ++ k ++ "'")%string.

(** [OverflowError]; the text of its message is not reproduced. *)
Definition overflow_error : exn := ExternalError "date value out of range".

(** [d[k]] *)
Definition getitem (k : string) (d : dict) : result value :=
  match Dict.lookup k d with
  | Some v => Ok v
  | None => Raise (key_error k)
  end.

(** [bool(v)] *)
Definition truthy (v : value) : bool :=
  match v with
  | VNone => false
  | VBool b => b
  | VInt z => negb (z =? 0)
  | VFloat (FDec m _) => negb (m =? 0)
  | VFloat _ => true
  | VStr s => negb (String.eqb s "")
  | VList l => match l with [] => false | _ :: _ => true end
  | VDict d => match d with [] => false | _ :: _ => true end
  end.

(** [str(z)] for an [int]. *)
Definition str_int (z : Z) : string := NilZero.string_of_int (Z.to_int z).

(** A [datetime]: the microseconds from 0001-01-01T00:00:00 to its date
    and time fields, and its UTC offset when it has one. *)
Record datetime := { ticks : Z; tzinfo : option Z }.

(** What the program takes from the library and does not compute itself:
    [str(v)] of a value put into an f-string, [datetime.isoformat],
    [datetime.fromisoformat] and [datetime.strftime]. *)
Record pylib := {
  str_of : value -> string;
  isoformat : datetime -> string;
  fromisoformat : string -> result datetime;
  strftime : datetime -> string -> string
}.

Module Dt.

Definition minute : Z := 60 * 1000000.
Definition day : Z := 86400 * 1000000.

(** [datetime.max], 9999-12-31T23:59:59.999999; [datetime.min] is 0. *)
Definition max_ticks : Z := 3652059 * day - 1.

(** [t + timedelta(minutes=m)]: the fields move, the offset stays.
    [timedelta] raises [OverflowError] beyond 999999999 days, and the sum
    does when it leaves the years 1 to 9999. *)
Definition add_minutes (t : datetime) (m : Z) : result datetime :=
  let delta := m * minute in
  if Z.abs (delta / day) >? 999999999 then Raise overflow_error
  else
    let sum := ticks t + delta in
    if (0 <=? sum) && (sum <=? max_ticks)
    then Ok {| ticks := sum; tzinfo := tzinfo t |}
    else Raise overflow_error.

(** [datetime.fromisoformat(v)], which takes a [str] only. *)
Definition parse (lib : pylib) (v : value) : result datetime :=
  match v with
  | VStr s => fromisoformat lib s
  | _ => Raise (TypeError "fromisoformat: argument must be str")
  end.

End Dt.

(** ** [scheduler.py] *)

(** The four fields that every entry of a schedule starts with. *)
Definition interview_fields (lib : pylib) (candidate : dict)
  (interview_start interview_end : datetime) : dict :=
  [("candidate_name", Dict.get "name" (VStr "Unknown") candidate);
   ("candidate_email", Dict.get "email" (VStr "") candidate);
   ("interview_start", VStr (isoformat lib interview_start));
   ("interview_end", VStr (isoformat lib interview_end))].

(** [create_mock_schedule(candidates, start_date, duration_minutes)] *)
Fixpoint create_mock_schedule (lib : pylib) (candidates : list dict)
  (current_time : datetime) (duration_minutes : Z) : result (list dict) :=
  match candidates with
  | [] => Ok []
  | candidate :: rest =>
      let interview_start := current_time in
      interview_end <- Dt.add_minutes current_time duration_minutes ;;
      let entry :=
        interview_fields lib candidate interview_start interview_end
        ++ [("calendar_event_id",
              VStr ("mock_event_"
                    ++ str_of lib (Dict.get "name" (VStr "unknown") candidate))
                   %string);
            ("calendar_link", VStr "https://calendar.google.com/calendar/");
            ("status", VStr "scheduled_mock")] in
      next <- Dt.add_minutes interview_end 15 ;;
      entries <- create_mock_schedule lib rest next duration_minutes ;;
      Ok (entry :: entries)
  end.

(** The [try] around one insertion, lines 115-143, with its handler:
    what they append to the schedule. The entry of a created event, which
    must have an id, is appended before line 132 prints the candidate's
    name, inside the [try]; the handler prints the name too, line 135,
    before it appends the entry of a failure, and what its [print] raises
    leaves [schedule_interviews]. *)
Definition insert_entry (lib : pylib) (created : result dict)
  (candidate : dict) (interview_start interview_end : datetime)
  : result (list dict) :=
  let name := Dict.get "name" VNone candidate in
  let failed (e : exn) : dict :=
    interview_fields lib candidate interview_start interview_end
    ++ [("status", VStr "failed"); ("error", VStr (exn_str e))] in
  match
    (created_event <- created ;;
     id <- getitem "id" created_event ;;
     Ok (interview_fields lib candidate interview_start interview_end
         ++ [("calendar_event_id", id);
             ("calendar_link", Dict.get "htmlLink" (VStr "") created_event);
             ("status", VStr "scheduled")]))
  with
  | Ok entry =>
      match print [name] with
      | Ok _ => Ok [entry]
      | Raise e => _ <- print [name] ;; Ok [entry; failed e]
      end
  | Raise e => _ <- print [name] ;; Ok [failed e]
  end.

(** The loop of [schedule_interviews] once the calendar service is there;
    [insert i] is what the insertion of the event of the candidate at
    index [i] does. The end of the slot is computed first, then the event,
    whose description joins the skills, both before the [try]. *)
Fixpoint schedule_loop (lib : pylib) (insert : nat -> result dict) (i : nat)
  (candidates : list dict) (current_time : datetime)
  (duration_minutes gap_minutes : Z) : result (list dict) :=
  match candidates with
  | [] => Ok []
  | candidate :: rest =>
      let interview_start := current_time in
      interview_end <- Dt.add_minutes current_time duration_minutes ;;
      _ <- join (Dict.get "skills" (VList []) candidate) ;;
      appended <-
        insert_entry lib (insert i) candidate interview_start interview_end ;;
      next <- Dt.add_minutes interview_end gap_minutes ;;
      entries <-
        schedule_loop lib insert (S i) rest next duration_minutes gap_minutes ;;
      Ok (appended ++ entries)
  end.

(** [schedule_interviews(candidates, start_date, duration_minutes,
    gap_minutes)]; [calendar] is what [get_calendar_service()] does: it
    raises, or it returns a service, given by its insertions. Line 71
    prints the exception of the calendar only, see [print]. *)
Definition schedule_interviews (lib : pylib)
  (calendar : result (nat -> result dict)) (candidates : list dict)
  (start_date : datetime) (duration_minutes gap_minutes : Z)
  : result (list dict) :=
  match calendar with
  | Raise _ =>
      create_mock_schedule lib candidates start_date duration_minutes
  | Ok insert =>
      schedule_loop lib insert 0 candidates start_date duration_minutes
        gap_minutes
  end.

(** ** [email_service.py] *)

(** The environment of the mailer: what [int(os.getenv('SMTP_PORT',
    '587'))] gives, and the sender's address and password. *)
Record mail_env := {
  smtp_port : result Z;
  sender_email : option string;
  sender_password : option string
}.

(** [not os.getenv(name)] *)
Definition unset (variable : option string) : bool :=
  match variable with
  | None => true
  | Some s => String.eqb s ""
  end.

(** [get_email_config()], as far as it can raise. *)
Definition get_email_config (env : mail_env) : result Z := smtp_port env.

(** [send_email(to_email, subject, html_content)]; [smtp] is what the
    body of the [try], from the message to [send_message], does. Each
    branch prints the address before it returns: line 165 outside any
    [try], line 189 at the end of the [try], line 197 in the handler. *)
Definition send_email (env : mail_env) (smtp : result unit) (to_email : value)
  (subject html_content : string) : result dict :=
  _ <- get_email_config env ;;
  if (unset (sender_email env) || unset (sender_password env))%bool then
    _ <- print [to_email] ;;
    Ok [("email", to_email); ("status", VStr "mock_sent");
        ("message", VStr "Email credentials not configured (mock send)")]
  else
    match (_ <- smtp ;; print [to_email]) with
    | Ok _ =>
        Ok [("email", to_email); ("status", VStr "sent");
            ("message", VStr "Email sent successfully")]
    | Raise e =>
        _ <- print [to_email] ;;
        Ok [("email", to_email); ("status", VStr "failed");
            ("message", VStr (exn_str e))]
    end.

(** [dq s] is [s] with each circumflex replaced by a double quote, to
    write the HTML of the template down. *)
Definition dq (s : string) : string :=
  string_of_list_ascii
    (map (fun c => if Ascii.eqb c "^"%char then ascii_of_nat 34 else c)
       (list_ascii_of_string s)).

(** [create_fallback_email(candidate_name, interview_datetime,
    calendar_link)] *)
Definition create_fallback_email (lib : pylib)
  (candidate_name interview_datetime calendar_link : value) : result string :=
  dt <- Dt.parse lib interview_datetime ;;
  let formatted_date := strftime lib dt "%A, %B %d, %Y" in
  let formatted_time := strftime lib dt "%I:%M %p UTC" in
  let calendar_section :=
    if truthy calendar_link then
      (dq "<p><a href=^" ++ str_of lib calendar_link
       ++ dq "^ style=^background-color: #4CAF50; color: white; padding: 10px 20px; text-decoration: none; border-radius: 4px; display: inline-block;^>Add to Calendar</a></p>")%string
    else "" in
  Ok (dq "
    <!DOCTYPE html>
    <html>
    <head>
        <style>
            body { font-family: Arial, sans-serif; line-height: 1.6; color: #333; }
            .container { max-width: 600px; margin: 0 auto; padding: 20px; }
            .header { background-color: #f4f4f4; padding: 20px; text-align: center; }
            .content { padding: 20px; background-color: #ffffff; }
            .footer { background-color: #f4f4f4; padding: 15px; text-align: center; font-size: 12px; }
            .highlight { background-color: #e8f5e9; padding: 15px; border-left: 4px solid #4CAF50; margin: 20px 0; }
        </style>
    </head>
    <body>
        <div class=^container^>
            <div class=^header^>
                <h1>Interview Confirmation</h1>
            </div>
            <div class=^content^>
                <p>Dear "
       ++ str_of lib candidate_name
       ++ dq ",</p>
                
                <p>We are pleased to invite you for an interview regarding the position you applied for.</p>
                
                <div class=^highlight^>
                    <h3>Interview Details</h3>
                    <p><strong>Date:</strong> "
       ++ formatted_date
       ++ dq "</p>
                    <p><strong>Time:</strong> "
       ++ formatted_time
       ++ dq "</p>
                    <p><strong>Duration:</strong> Approximately 60 minutes</p>
                </div>
                
                "
       ++ calendar_section
       ++ dq "
                
                <h3>What to Expect</h3>
                <ul>
                    <li>Technical discussion about your experience and skills</li>
                    <li>Questions about your approach to problem-solving</li>
                    <li>Overview of our team and company culture</li>
                    <li>Opportunity for you to ask questions</li>
                </ul>
                
                <h3>Preparation Tips</h3>
                <ul>
                    <li>Review the job description and your application</li>
                    <li>Prepare examples of your relevant work experience</li>
                    <li>Test your internet connection and video setup (if virtual)</li>
                    <li>Prepare questions about the role and company</li>
                </ul>
                
                <p>If you need to reschedule or have any questions, please don't hesitate to contact us.</p>
                
                <p>We look forward to speaking with you!</p>
                
                <p>Best regards,<br>
                <strong>HR Team</strong></p>
            </div>
            <div class=^footer^>
                <p>This is an automated message. Please do not reply directly to this email.</p>
                <p>For questions, contact us at hr@company.com</p>
            </div>
        </div>
    </body>
    </html>
    ")%string.

(** [r'```html\s*(.*?)\s*```']; what follows [.*?] starts with white space
    or a backquote, neither of which is inside a longer UTF-8 sequence. *)
Definition html_fence_re : Re.regex :=
  (Re.lits "```html"
   ++ [Re.SpaceStar; Re.GOpen; Re.AnyStar false; Re.GClose; Re.SpaceStar]
   ++ Re.lits "```")%list.

(** The body of the [try] of [generate_personalized_email]. The prompt,
    with the formatted date and the start of the job description, goes to
    the service only. *)
Definition try_generate_email (lib : pylib) (api_key : option string)
  (r : reply) (candidate_name interview_datetime : value)
  (job_description : string) (calendar_link : value) : result string :=
  if unset api_key then
    create_fallback_email lib candidate_name interview_datetime calendar_link
  else
    _ <- Dt.parse lib interview_datetime ;;
    resp <- r ;;
    email_content <- response_text resp ;;
    match Re.search html_fence_re email_content with
    | Some m => Ok (Re.group1 m)
    | None => Ok email_content
    end.

(** [generate_personalized_email(candidate_name, interview_datetime,
    job_description, calendar_link)]; line 83 prints the exception only,
    see [print]. *)
Definition generate_personalized_email (lib : pylib)
  (api_key : option string) (r : reply)
  (candidate_name interview_datetime : value) (job_description : string)
  (calendar_link : value) : result string :=
  match
    try_generate_email lib api_key r candidate_name interview_datetime
      job_description calendar_link
  with
  | Ok email_content => Ok email_content
  | Raise _ =>
      create_fallback_email lib candidate_name interview_datetime
        calendar_link
  end.

(** [interview['status'] in ['scheduled', 'scheduled_mock']] *)
Definition is_scheduled (status : value) : bool :=
  existsb (Py.item_eq status) [VStr "scheduled"; VStr "scheduled_mock"].

(** A mail to send: the address, the subject and the content. *)
Definition mail := (value * string * string)%type.

(** The loop of [send_confirmation_emails] over the interviews from index
    [i] on: the mails to send, in order. [service i] is what the service
    does with the prompt for the interview at index [i]. *)
Fixpoint email_tasks (lib : pylib) (api_key : option string)
  (service : nat -> reply) (i : nat) (scheduled_interviews : list dict)
  (job_description : string) : result (list (nat * mail)) :=
  match scheduled_interviews with
  | [] => Ok []
  | interview :: rest =>
      status <- getitem "status" interview ;;
      if negb (is_scheduled status) then
        email_tasks lib api_key service (S i) rest job_description
      else
        candidate_name <- getitem "candidate_name" interview ;;
        candidate_email <- getitem "candidate_email" interview ;;
        interview_datetime <- getitem "interview_start" interview ;;
        let calendar_link := Dict.get "calendar_link" (VStr "") interview in
        email_content <-
          generate_personalized_email lib api_key (service i) candidate_name
            interview_datetime job_description calendar_link ;;
        let subject :=
          ("Interview Confirmation - " ++ str_of lib candidate_name)%string in
        tasks <- email_tasks lib api_key service (S i) rest job_description ;;
        Ok ((i, (candidate_email, subject, email_content)) :: tasks)
  end.

(** [asyncio.gather] over the mails; [smtp i] is what sending the mail of
    the interview at index [i] does. *)
Fixpoint gather_emails (env : mail_env) (smtp : nat -> result unit)
  (tasks : list (nat * mail)) : result (list dict) :=
  match tasks with
  | [] => Ok []
  | (i, (to_email, subject, html_content)) :: rest =>
      email_result <- send_email env (smtp i) to_email subject html_content ;;
      email_results <- gather_emails env smtp rest ;;
      Ok (email_result :: email_results)
  end.

(** [send_confirmation_emails(scheduled_interviews, job_description)] *)
Definition send_confirmation_emails (lib : pylib) (api_key : option string)
  (service : nat -> reply) (env : mail_env) (smtp : nat -> result unit)
  (scheduled_interviews : list dict) (job_description : string)
  : result (list dict) :=
  tasks <-
    email_tasks lib api_key service 0 scheduled_interviews job_description ;;
  gather_emails env smtp tasks.

(** ** [main.py]: the store and the other endpoints *)

(** The two globals of the module. *)
Record server := {
  candidates_store : list dict;
  job_description_store : string
}.

(** [post_job_description(request)]: the new state. *)
Definition post_job_description (st : server) (job_description : string)
  : server :=
  {| candidates_store := candidates_store st;
     job_description_store := job_description |}.

(** [upload_resumes(files)] on the state: the store is assigned once the
    ranking has returned. *)
Definition upload_resumes_on (st : server) (api_key : option string)
  (argsort : list Q -> list nat) (service : nat -> reply)
  (files : list upload) : result (list dict) * server :=
  match
    upload_resumes (job_description_store st) api_key argsort service files
  with
  | Ok store =>
      (Ok store,
       {| candidates_store := store;
          job_description_store := job_description_store st |})
  | Raise e => (Raise e, st)
  end.

(** [health_check()]: the count it reports. *)
Definition health_check (st : server) : Z :=
  Z.of_nat (List.length (candidates_store st)).

(** [store[idx]] on a list: a negative index counts from the end. *)
Definition list_item {A : Type} (l : list A) (idx : Z) : result A :=
  let n := Z.of_nat (List.length l) in
  let pos := if idx <? 0 then idx + n else idx in
  if (0 <=? pos) && (pos <? n) then
    match nth_error l (Z.to_nat pos) with
    | Some x => Ok x
    | None => Raise (IndexError "list index out of range")
    end
  else Raise (IndexError "list index out of range").

(** The loop of [select_candidates] that validates the indices. *)
Fixpoint selected_candidates (store : list dict) (candidate_indices : list Z)
  : result (list dict) :=
  match candidate_indices with
  | [] => Ok []
  | idx :: rest =>
      if idx >=? Z.of_nat (List.length store) then
        Raise (HTTPException 400
                 ("Invalid candidate index: " ++ str_int idx)%string)
      else
        candidate <- list_item store idx ;;
        selected <- selected_candidates store rest ;;
        Ok (candidate :: selected)
  end.

(** What [select_candidates] needs from outside. *)
Record world := {
  lib : pylib;
  calendar : result (nat -> result dict);
  ai_api_key : option string;
  email_service : nat -> reply;
  email_env : mail_env;
  smtp : nat -> result unit
}.

(** What [select_candidates] returns. *)
Record selection := {
  message : string;
  scheduled_interviews : list dict;
  email_status : list dict
}.

(** [select_candidates(request)] *)
Definition select_candidates (st : server) (w : world)
  (candidate_indices : list Z) (interview_date : string)
  (interview_duration : Z) : result selection :=
  match candidates_store st with
  | [] => Raise (HTTPException 400 "No candidates available")
  | _ :: _ =>
      selected <- selected_candidates (candidates_store st) candidate_indices ;;
      match selected with
      | [] => Raise (HTTPException 400 "No candidates selected")
      | _ :: _ =>
          match fromisoformat (lib w) interview_date with
          | Raise _ =>
              Raise (HTTPException 400
                       "Invalid date format. Use ISO format: YYYY-MM-DD")
          | Ok interview_date =>
              match
                schedule_interviews (lib w) (calendar w) selected
                  interview_date interview_duration 15
              with
              | Raise e =>
                  Raise (HTTPException 500
                           ("Scheduling failed: " ++ exn_str e)%string)
              | Ok scheduled =>
                  match
                    send_confirmation_emails (lib w) (ai_api_key w)
                      (email_service w) (email_env w) (smtp w) scheduled
                      (job_description_store st)
                  with
                  | Raise e =>
                      Raise (HTTPException 500
                               ("Email sending failed: " ++ exn_str e)%string)
                  | Ok email_results =>
                      Ok {| message :=
                              ("Successfully scheduled "
                               ++ str_int (Z.of_nat (List.length scheduled))
                               ++ " interviews")%string;
                            scheduled_interviews := scheduled;
                            email_status := email_results |}
                  end
              end
          end
      end
  end.

(** ** Texts of examples

    [quoted s] is [s] with each apostrophe replaced by a double quote, to
    write JSON texts down. *)
Definition quoted (s : string) : string :=
  string_of_list_ascii
    (map (fun c => if Ascii.eqb c "'"%char then ascii_of_nat 34 else c)
       (list_ascii_of_string s)).

(** The text that [json.loads] makes of the escape of U+D800 alone. *)
Definition lone_surrogate : string := Json.utf8 55296.

(** ** Notions used in the statements *)

(** The evaluation of a candidate fails: the call to the service raises,
    the response has no text, or no JSON object is recovered from its
    text. *)
Definition evaluation_fails (r : reply) : Prop :=
  match r with
  | Raise _ => True
  | Ok None => True
  | Ok (Some ai_text) => exists e, evaluation_json ai_text = Raise e
  end.

(** The fields an evaluation is meant to write. *)
Definition scoring_fields : list string :=
  ["score"; "match_percentage"; "summary"; "strengths"; "gaps";
   "recommendation"].

(** The score of a record whose sort key is an integer. *)
Definition score_of (x : dict) : Z :=
  match score_key x with
  | VInt z => z
  | _ => 0
  end.

Definition int_score (x : dict) : Prop := exists z, score_key x = VInt z.

(** The records of score [s], in the order of the list. *)
Definition with_score (s : Z) (l : list dict) : list dict :=
  filter (fun x => score_of x =? s) l.

(** What numpy promises of [argsort]: the indices of the array, by
    ascending value. *)
Definition sorts_indices (argsort : list Q -> list nat) : Prop :=
  forall sim,
    Permutation (argsort sim) (seq 0 (List.length sim))
    /\ StronglySorted
         (fun i j => (Np.at_index sim i <= Np.at_index sim j)%Q)
         (argsort sim).

(** White space in the sense of [\s]: a sequence of the code points
    listed with [Re.is_space1], [Re.is_space2] and [Re.is_space3]. *)
Inductive spaces : string -> Prop :=
| spaces_nil : spaces ""
| spaces_1 a w : Re.is_space1 a = true -> spaces w -> spaces (String a w)
| spaces_2 a b w :
    Re.is_space2 a b = true -> spaces w -> spaces (String a (String b w))
| spaces_3 a b c w :
    Re.is_space3 a b c = true -> spaces w ->
    spaces (String a (String b (String c w))).

(** The texts a pattern matches, groups left aside. *)
Inductive matches : Re.regex -> string -> Prop :=
| matches_nil : matches [] ""
| matches_lit c p s : matches p s -> matches (Re.Lit c :: p) (String c s)
| matches_any greedy p a s :
    matches p s -> matches (Re.AnyStar greedy :: p) (a ++ s)%string
| matches_space p w s :
    spaces w -> matches p s -> matches (Re.SpaceStar :: p) (w ++ s)%string
| matches_open p s : matches p s -> matches (Re.GOpen :: p) s
| matches_close p s : matches p s -> matches (Re.GClose :: p) s.

(** A pattern without group. *)
Definition plain (p : Re.regex) : bool :=
  forallb (fun a => match a with
                    | Re.GOpen | Re.GClose => false
                    | _ => true
                    end) p.

(** [c] occurs in [s]. *)
Fixpoint occurs (c : ascii) (s : string) : bool :=
  match s with
  | EmptyString => false
  | String x s' => (Ascii.eqb x c || occurs c s')%bool
  end.

(** The span that the first two steps of the recovery select. *)
Definition selected_span (text : string) : option string :=
  match Re.search fenced_json_re text with
  | Some m => Some (Re.group1 m)
  | None =>
      match Re.search brace_span_re text with
      | Some m => Some (Re.group0 m)
      | None => None
      end
  end.

(** The third step: both substitutions of [extract_json]. *)
Definition strip_trailing_commas (json_str : string) : string :=
  Re.sub comma_bracket_re "]" (Re.sub comma_brace_re "}" json_str).

Definition is_some {A : Type} (o : option A) : bool :=
  match o with
  | Some _ => true
  | None => false
  end.

(** Some comma of [s] is followed by white space and [closer]. *)
Fixpoint comma_before (closer : ascii) (s : string) : bool :=
  match s with
  | EmptyString => false
  | String _ s' =>
      (is_some (Re.match_here [Re.Lit ","; Re.SpaceStar; Re.Lit closer] s
                  (s, s))
       || comma_before closer s')%bool
  end.

(** [with_trailing_commas allowed s t]: [t] is [s] with a comma and white
    space put in before some of its characters that [allowed] holds of. *)
Inductive with_trailing_commas (allowed : ascii -> bool)
  : string -> string -> Prop :=
| trailing_nil : with_trailing_commas allowed "" ""
| trailing_keep c s t :
    with_trailing_commas allowed s t ->
    with_trailing_commas allowed (String c s) (String c t)
| trailing_comma c w s t :
    allowed c = true -> spaces w ->
    with_trailing_commas allowed s t ->
    with_trailing_commas allowed (String c s)
      (String "," (w ++ String c t))%string.

(** The closing characters among [cs]. *)
Definition closer_in (cs : list ascii) (c : ascii) : bool :=
  existsb (Ascii.eqb c) cs.

(** ** The server over its requests *)

(** The requests that change the globals of [main.py]. *)
Inductive request :=
| PostJobDescription (job_description : string)
| UploadResumes (api_key : option string) (argsort : list Q -> list nat)
    (service : nat -> reply) (files : list upload).

(** The state after a request; an upload that raises leaves it as it is. *)
Definition handle (st : server) (req : request) : server :=
  match req with
  | PostJobDescription job_description =>
      post_job_description st job_description
  | UploadResumes api_key argsort service files =>
      snd (upload_resumes_on st api_key argsort service files)
  end.

(** Lines 26-27: the globals when the module is loaded. *)
Definition initial : server :=
  {| candidates_store := []; job_description_store := "" |}.

(** The state after a sequence of requests, handled one after the other. *)
Definition run (requests : list request) : server :=
  fold_left handle requests initial.

(** The files that the loop of [upload_resumes] gets over: the temporary
    copy is written and removed, or the handler can print the name of the
    file and remove what is left. *)
Definition settled (file : upload) : Prop :=
  (write_file file = Ok tt /\ remove_file file = Ok tt)
  \/ handle_failure file = Ok tt.

(** [-len(store) <= idx < len(store)] *)
Definition in_range {A : Type} (store : list A) (idx : Z) : Prop :=
  - Z.of_nat (List.length store) <= idx < Z.of_nat (List.length store).

(** The item of [store] that an index in range stands for. *)
Definition item_at {A : Type} (store : list A) (idx : Z) : option A :=
  nth_error store (Z.to_nat (idx mod Z.of_nat (List.length store))).

(** The ids of a store are the positions, and each candidate has its
    preliminary score. *)
Definition numbered (store : list dict) : Prop :=
  forall i c,
    nth_error store i = Some c ->
    Dict.lookup "id" c = Some (VInt (Z.of_nat i))
    /\ Dict.mem "preliminary_score" c = true.

(** ** The slots of a schedule *)

(** The start of the slot at index [i], when slots of [duration] minutes
    follow one another with [gap] minutes between them. *)
Definition slot_start (start : datetime) (duration gap : Z) (i : nat)
  : datetime :=
  {| ticks := ticks start + Z.of_nat i * (duration + gap) * Dt.minute;
     tzinfo := tzinfo start |}.

Definition slot_end (start : datetime) (duration gap : Z) (i : nat)
  : datetime :=
  {| ticks := ticks (slot_start start duration gap i) + duration * Dt.minute;
     tzinfo := tzinfo start |}.

(** The gap between the slots that [schedule_interviews] makes. *)
Definition gap_used (calendar : result (nat -> result dict))
  (gap_minutes : Z) : Z :=
  match calendar with
  | Raise _ => 15
  | Ok _ => gap_minutes
  end.

(** The status of the entry at index [i] of a schedule. *)
Definition entry_status (calendar : result (nat -> result dict)) (i : nat)
  : string :=
  match calendar with
  | Raise _ => "scheduled_mock"
  | Ok insert =>
      match insert i with
      | Ok created_event =>
          if Dict.mem "id" created_event then "scheduled" else "failed"
      | Raise _ => "failed"
      end
  end.

(** The candidates whose skills the event description can join. *)
Definition joinable (candidate : dict) : Prop :=
  join (Dict.get "skills" (VList []) candidate) = Ok tt.

(** The candidates for whom the loop with a calendar service gets to its
    end: the skills can be joined and the name can be printed. *)
Definition schedulable (candidate : dict) : Prop :=
  joinable candidate /\ printable (Dict.get "name" VNone candidate) = true.

(** The schedule of [n] slots from [start] stays between [datetime.min]
    and [datetime.max], the start of the slot after the last included. *)
Definition slots_in_range (start : datetime) (duration gap : Z) (n : nat)
  : Prop :=
  0 <= duration /\ 0 <= gap /\ 0 <= ticks start
  /\ ticks start + Z.of_nat n * (duration + gap) * Dt.minute <= Dt.max_ticks.

(** What an entry of a schedule says of its candidate and of its slot. *)
Definition entry_of (lib : pylib) (candidate : dict)
  (interview_start interview_end : datetime) (status : string)
  (entry : dict) : Prop :=
  Dict.lookup "candidate_name" entry
  = Some (Dict.get "name" (VStr "Unknown") candidate)
  /\ Dict.lookup "candidate_email" entry
     = Some (Dict.get "email" (VStr "") candidate)
  /\ Dict.lookup "interview_start" entry
     = Some (VStr (isoformat lib interview_start))
  /\ Dict.lookup "interview_end" entry
     = Some (VStr (isoformat lib interview_end))
  /\ Dict.lookup "status" entry = Some (VStr status).

(** ** The confirmations *)

(** The interviews that [send_confirmation_emails] writes to. *)
Definition to_confirm (interview : dict) : bool :=
  match Dict.lookup "status" interview with
  | Some status => is_scheduled status
  | None => false
  end.

(** The service gives no text. *)
Definition no_reply (r : reply) : Prop :=
  match r with
  | Raise _ => True
  | Ok None => True
  | Ok (Some _) => False
  end.

(** The environment has no credentials for the mail server. *)
Definition no_credentials (env : mail_env) : bool :=
  (unset (sender_email env) || unset (sender_password env))%bool.

(** [isoformat] writes dates that [fromisoformat] reads. *)
Definition reads_own_dates (lib : pylib) : Prop :=
  forall t, exists t', fromisoformat lib (isoformat lib t) = Ok t'.

(** The candidates whose address [send_email] can print. *)
Definition mailable (candidate : dict) : Prop :=
  printable (Dict.get "email" (VStr "") candidate) = true.

(** The entries that a confirmation can be written for: those of a
    schedule, with a start that is read back and an address that can be
    printed. *)
Definition confirmable (lib : pylib) (interview : dict) : Prop :=
  exists candidate interview_start interview_end status dt,
    entry_of lib candidate interview_start interview_end status interview
    /\ fromisoformat lib (isoformat lib interview_start) = Ok dt
    /\ mailable candidate.

(** ** Examples *)

(** An upload of one resume that parses. *)
Definition example_file (name json : string) : upload :=
  {| filename := name;
     write_file := Ok tt;
     content :=
       {| load_pdf := Ok ["Ann, engineer"; "Skills: SQL, Go"];
          similarity := fun _ => Ok [1 # 2; 3 # 4]%Q;
          extraction := Ok (Some json) |};
     remove_file := Ok tt;
     left_over := false;
     remove_left_over := Ok tt |}.

(** A job description, then two resumes, with a service that is down for
    the ranking. *)
Definition example_requests : list request :=
  [PostJobDescription "Python developer";
   UploadResumes (Some "key") Np.stable_argsort
     (fun _ => Raise (ExternalError "timeout"))
     [example_file "ann.pdf" (quoted "{'name': 'Ann', 'skills': ['SQL']}");
      example_file "bob.pdf"
        (quoted "{'name': 'Bob', 'skills': ['SQL', 'Go']}")]].

(** A stand-in for the library in the examples: a date is written as its
    ticks in decimal. *)
Definition example_lib : pylib :=
  {| str_of := fun v => match v with VStr s => s | _ => "?" end;
     isoformat := fun t => str_int (ticks t);
     fromisoformat :=
       fun s =>
         match NilZero.int_of_string s with
         | Some i => Ok {| ticks := Z.of_int i; tzinfo := None |}
         | None => Raise (ValueError "Invalid isoformat string")
         end;
     strftime := fun t format => format |}.

(** 2025-10-01T10:00:00 *)
Definition example_start : datetime :=
  {| ticks := 63894909600000000; tzinfo := None |}.

(** A calendar service that inserts the first event only. *)
Definition example_calendar : result (nat -> result dict) :=
  Ok (fun i =>
        match i with
        | O => Ok [("id", VStr "ev1"); ("htmlLink", VStr "https://cal/ev1")]
        | _ => Raise (ExternalError "quota exceeded")
        end).

Definition example_candidates : list dict :=
  [[("name", VStr "Ann"); ("email", VStr "ann@example.com");
    ("skills", VList [VStr "SQL"])];
   [("name", VStr "Bob"); ("skills", VList [VStr "Go"])]].

(** What [select_candidates] meets in the examples: a calendar that
    inserts the first event only, no service for the mails, a mail server
    that refuses the connection. *)
Definition example_world : world :=
  {| lib := example_lib;
     calendar := example_calendar;
     ai_api_key := None;
     email_service := fun _ => Raise (ExternalError "timeout");
     email_env :=
       {| smtp_port := Ok 587;
          sender_email := Some "hr@example.com";
          sender_password := Some "secret" |};
     smtp := fun _ => Raise (ExternalError "connection refused") |}.

(** The schedule of [example_candidates] from [example_start] with
    [example_calendar]: the second insertion fails. *)
Definition example_schedule : list dict :=
  [[("candidate_name", VStr "Ann");
    ("candidate_email", VStr "ann@example.com");
    ("interview_start", VStr "63894909600000000");
    ("interview_end", VStr "63894913200000000");
    ("calendar_event_id", VStr "ev1");
    ("calendar_link", VStr "https://cal/ev1");
    ("status", VStr "scheduled")];
   [("candidate_name", VStr "Bob"); ("candidate_email", VStr "");
    ("interview_start", VStr "63894914100000000");
    ("interview_end", VStr "63894917700000000");
    ("status", VStr "failed"); ("error", VStr "quota exceeded")]].

(** * Properties *)

(** ** Dictionaries *)

Lemma lookup_set (k k0 : string) (v : value) (d : dict) :
  Dict.lookup k (Dict.set k0 v d)
  = if String.eqb k k0 then Some v else Dict.lookup k d.
Proof.
  induction d as [|[k' v'] d IH]; simpl; [reflexivity|].
  destruct (String.eqb k0 k') eqn:E0; simpl.
  - apply String.eqb_eq in E0; subst k'.
    destruct (String.eqb k k0); reflexivity.
  - rewrite IH.
    destruct (String.eqb k k') eqn:E1; [|reflexivity].
    apply String.eqb_eq in E1; subst k'.
    rewrite String.eqb_sym, E0; reflexivity.
Qed.

Lemma lookup_app (k : string) (d1 d2 : dict) :
  Dict.lookup k (d1 ++ d2)
  = match Dict.lookup k d1 with
    | Some v => Some v
    | None => Dict.lookup k d2
    end.
Proof.
  induction d1 as [|[k' v'] d1 IH]; simpl; [reflexivity|].
  destruct (String.eqb k k'); [reflexivity|exact IH].
Qed.

(** After an update the last item given for a key is found under it, and a
    key without item keeps what it had. *)
Lemma lookup_update (k : string) (items d : dict) :
  Dict.lookup k (Dict.update d items)
  = match Dict.lookup k (rev items) with
    | Some v => Some v
    | None => Dict.lookup k d
    end.
Proof.
  unfold Dict.update.
  revert d; induction items as [|[k0 v0] items IH]; intro d; simpl;
    [reflexivity|].
  rewrite IH, lookup_app, lookup_set; simpl.
  destruct (Dict.lookup k (rev items)); [reflexivity|].
  destruct (String.eqb k k0); reflexivity.
Qed.

Lemma lookup_rev_none (k : string) (items : dict) :
  Dict.lookup k (rev items) = None <-> Dict.lookup k items = None.
Proof.
  induction items as [|[k0 v0] items IH]; simpl; [tauto|].
  rewrite lookup_app; simpl.
  destruct (String.eqb k k0).
  - split; [|discriminate].
    destruct (Dict.lookup k (rev items)); discriminate.
  - destruct (Dict.lookup k (rev items)); destruct (Dict.lookup k items);
      split; intro H; try reflexivity; try discriminate;
      destruct IH as [IH1 IH2]; auto; try (now (specialize (IH1 H)));
      try (now (specialize (IH2 H))).
Qed.

Lemma lookup_update_other (k : string) (items d : dict) :
  Dict.mem k items = false ->
  Dict.lookup k (Dict.update d items) = Dict.lookup k d.
Proof.
  unfold Dict.mem; intro H.
  rewrite lookup_update.
  destruct (Dict.lookup k items) eqn:E; [discriminate|].
  apply lookup_rev_none in E; rewrite E; reflexivity.
Qed.

Lemma mem_update (k : string) (items d : dict) :
  Dict.mem k d = true -> Dict.mem k (Dict.update d items) = true.
Proof.
  unfold Dict.mem; rewrite lookup_update.
  destruct (Dict.lookup k (rev items)); [reflexivity|auto].
Qed.

Lemma mem_set (k k0 : string) (v : value) (d : dict) :
  Dict.mem k (Dict.set k0 v d) = (String.eqb k k0 || Dict.mem k d)%bool.
Proof.
  unfold Dict.mem; rewrite lookup_set.
  destruct (String.eqb k k0); reflexivity.
Qed.

Lemma mem_scoring_fields (k : string) (candidate : dict) :
  Dict.mem k (fallback_items candidate) = false <-> ~ In k scoring_fields.
Proof.
  unfold Dict.mem, fallback_items, scoring_fields; simpl.
  repeat match goal with
         | |- context [String.eqb k ?s] =>
             destruct (String.eqb_spec k s); [subst k; simpl|]
         end;
    split; intro H; try discriminate; try reflexivity; try tauto.
  intros [E|[E|[E|[E|[E|[E|[]]]]]]]; symmetry in E; contradiction.
Qed.

(** ** The fallback of the Evaluator *)

Lemma get_client_ok (api_key : option string) (client : string) :
  get_client api_key = Ok client -> api_key = Some client /\ client <> "".
Proof.
  destruct api_key as [[|c k]|]; simpl; intro H; try discriminate.
  inversion H; split; [reflexivity|discriminate].
Qed.

Lemma try_evaluate_fails (r : reply) (candidate : dict) :
  evaluation_fails r -> exists e, try_evaluate r candidate = Raise e.
Proof.
  unfold try_evaluate; destruct r as [[t|]|e]; simpl.
  - intros [e He]; rewrite He; simpl; eauto.
  - eauto.
  - eauto.
Qed.

(** The six fields of the fallback, read back from the merged record. *)
Lemma fallback_fields (candidate : dict) :
  Dict.lookup "score" (fallback candidate)
  = Some (Dict.get "preliminary_score" (VInt 50) candidate)
  /\ Dict.lookup "match_percentage" (fallback candidate) = Some (VInt 50)
  /\ Dict.lookup "summary" (fallback candidate)
     = Some (VStr "Unable to generate detailed assessment")
  /\ Dict.lookup "strengths" (fallback candidate)
     = Some (VList [VStr "Evaluation pending"])
  /\ Dict.lookup "gaps" (fallback candidate) = Some (VList [])
  /\ Dict.lookup "recommendation" (fallback candidate)
     = Some (VStr "moderate_fit").
Proof.
  unfold fallback; repeat split; rewrite lookup_update; reflexivity.
Qed.

Lemma print_one (v : value) : printable v = true -> print [v] = Ok tt.
Proof.
  intro H; unfold print; simpl; rewrite H; reflexivity.
Qed.

(** Whether [print] raises, and what. *)
Lemma print_cases (fields : list value) :
  print fields = Ok tt \/ print fields = Raise unicode_encode_error.
Proof.
  unfold print; destruct (forallb printable fields); auto.
Qed.

(** C1, as amended. Once the client is made (the API key is set) and the
    prompt is built (the skills and the key achievements can be joined),
    and when the candidate's name can be printed (it is no text with a
    lone surrogate), a failing service call or a response from which no
    JSON is recovered never reaches the caller: [evaluate_candidate]
    returns the candidate merged with the fallback, whose score is the
    preliminary score when there is one and 50 otherwise, with match
    percentage 50, the fixed summary, strengths, gaps and the
    recommendation moderate_fit; every other field of the candidate is as
    it was. *)
Theorem evaluate_candidate_fallback
  (api_key : option string) (r : reply) (candidate : dict)
  (job_description client : string) :
  get_client api_key = Ok client ->
  candidate_summary candidate = Ok tt ->
  printable (Dict.get "name" (VStr "Unknown") candidate) = true ->
  evaluation_fails r ->
  evaluate_candidate api_key r candidate job_description
  = Ok (fallback candidate)
  /\ Dict.lookup "score" (fallback candidate)
     = Some (match Dict.lookup "preliminary_score" candidate with
             | Some preliminary_score => preliminary_score
             | None => VInt 50
             end)
  /\ Dict.lookup "match_percentage" (fallback candidate) = Some (VInt 50)
  /\ Dict.lookup "summary" (fallback candidate)
     = Some (VStr "Unable to generate detailed assessment")
  /\ Dict.lookup "strengths" (fallback candidate)
     = Some (VList [VStr "Evaluation pending"])
  /\ Dict.lookup "gaps" (fallback candidate) = Some (VList [])
  /\ Dict.lookup "recommendation" (fallback candidate)
     = Some (VStr "moderate_fit")
  /\ (forall k, ~ In k scoring_fields ->
        Dict.lookup k (fallback candidate) = Dict.lookup k candidate).
Proof.
  intros Hclient Hsummary Hname Hfails.
  split.
  - unfold evaluate_candidate.
    rewrite Hclient, Hsummary; simpl.
    destruct (try_evaluate_fails r candidate Hfails) as [e He].
    rewrite He, (print_one _ Hname); reflexivity.
  - pose proof (fallback_fields candidate) as F.
    unfold Dict.get in F.
    repeat split; try apply F.
    intros k Hk; unfold fallback.
    apply lookup_update_other, mem_scoring_fields, Hk.
Qed.

Lemma evaluate_candidate_fallback_witness :
  evaluate_candidate (Some "key") (Raise (ExternalError "timeout"))
    [("name", VStr "Ann"); ("preliminary_score", VInt 30)] "Python developer"
  = Ok (fallback [("name", VStr "Ann"); ("preliminary_score", VInt 30)]).
Proof.
  apply (evaluate_candidate_fallback (Some "key")
           (Raise (ExternalError "timeout"))
           [("name", VStr "Ann"); ("preliminary_score", VInt 30)]
           "Python developer" "key").
  - reflexivity.
  - reflexivity.
  - reflexivity.
  - simpl; exact I.
Defined.

(** C1, as stated, fails. With no API key in the environment the client
    cannot be made, and with a key achievements field that is [null] the
    prompt cannot be built; both happen before the [try], so the failing
    call is never reached and the exception goes to the caller. *)
Lemma evaluate_candidate_raises :
  evaluation_fails (Raise (ExternalError "service unreachable"))
  /\ evaluate_candidate None (Raise (ExternalError "service unreachable"))
       [("name", VStr "Ann")] "Python developer"
     = Raise (ValueError "AI_API_KEY not set in environment")
  /\ evaluate_candidate (Some "key")
       (Raise (ExternalError "service unreachable"))
       [("name", VStr "Ann"); ("key_achievements", VNone)] "Python developer"
     = Raise (TypeError "can only join an iterable").
Proof.
  repeat split.
Qed.

(** Nor does the handler keep every failure from the caller: it prints the
    candidate's name before it returns, and a name that [json.loads] made
    from the escape of a lone surrogate cannot be encoded. *)
Lemma evaluate_candidate_unprintable_name :
  Json.loads (quoted "{'name': '\ud800'}")
  = Ok (VDict [("name", VStr lone_surrogate)])
  /\ evaluate_candidate (Some "key")
       (Raise (ExternalError "service unreachable"))
       [("name", VStr lone_surrogate)] "Python developer"
     = Raise unicode_encode_error.
Proof.
  split; vm_compute; reflexivity.
Qed.

(** ** What an evaluation does to a record *)

Lemma evaluate_candidate_ok (api_key : option string) (r : reply)
  (candidate : dict) (job_description : string) (e : dict) :
  evaluate_candidate api_key r candidate job_description = Ok e ->
  e = fallback candidate
  \/ exists ai_text ev,
       r = Ok (Some ai_text)
       /\ evaluation_json ai_text = Ok (VDict ev)
       /\ e = Dict.update candidate ev.
Proof.
  unfold evaluate_candidate.
  destruct (get_client api_key); simpl; [|discriminate].
  destruct (candidate_summary candidate); simpl; [|discriminate].
  assert (F : (_ <- print [Dict.get "name" (VStr "Unknown") candidate] ;;
               Ok (fallback candidate)) = Ok e ->
              e = fallback candidate).
  { destruct (print [Dict.get "name" (VStr "Unknown") candidate]);
      simpl; intro H; inversion H; reflexivity. }
  unfold try_evaluate.
  destruct r as [[t|]|x]; cbn [bind response_text];
    try (intro H; left; exact (F H)).
  destruct (evaluation_json t) as [v|x] eqn:E; cbn [bind];
    try (intro H; left; exact (F H)).
  destruct v; try (intro H; left; exact (F H)).
  intro H; inversion H; right; eauto.
Qed.

(** The results of the gathered tasks, one for each candidate and in their
    order. *)
Lemma gather_evaluations_ok (api_key : option string) (service : nat -> reply)
  (job_description : string) (candidates : list dict) :
  forall i evaluated,
    gather_evaluations api_key service i candidates job_description
    = Ok evaluated ->
    Forall2
      (fun candidate e =>
         exists n,
           evaluate_candidate api_key (service n) candidate job_description
           = Ok e)
      candidates evaluated.
Proof.
  induction candidates as [|c cs IH]; intros i evaluated; simpl.
  - intro H; inversion H; constructor.
  - destruct (evaluate_candidate api_key (service i) c job_description)
      as [e|x] eqn:E; simpl; [|discriminate].
    destruct (gather_evaluations api_key service (S i) cs job_description)
      as [es|x] eqn:G; simpl; [|discriminate].
    intro H; inversion H; subst evaluated.
    constructor; [exists i; exact E|exact (IH _ _ G)].
Qed.

Section SortFacts.

Context {A : Type}.
Variable key : A -> value.

Lemma insert_perm (x : A) (l : list A) :
  forall l', Py.insert key x l = Ok l' -> Permutation (x :: l) l'.
Proof.
  induction l as [|y l IH]; intros l'; simpl.
  - intro H; inversion H; apply Permutation_refl.
  - destruct (Py.lt (key y) (key x)) as [b|e]; simpl; [|discriminate].
    destruct b.
    + destruct (Py.insert key x l) as [l''|e]; simpl; [|discriminate].
      intro H; inversion H; subst l'.
      eapply Permutation_trans; [apply perm_swap|].
      apply perm_skip, IH; reflexivity.
    + intro H; inversion H; apply Permutation_refl.
Qed.

Lemma sort_perm (l : list A) :
  forall l', Py.sort key l = Ok l' -> Permutation l l'.
Proof.
  induction l as [|x l IH]; intros l'; simpl.
  - intro H; inversion H; constructor.
  - destruct (Py.sort key l) as [s|e]; simpl; [|discriminate].
    intro H; apply insert_perm in H.
    eapply Permutation_trans; [|exact H].
    apply perm_skip, IH; reflexivity.
Qed.

Lemma sorted_reverse_perm (l l' : list A) :
  Py.sorted_reverse key l = Ok l' -> Permutation l l'.
Proof.
  unfold Py.sorted_reverse.
  destruct (Py.sort key (rev l)) as [s|e] eqn:E; simpl; [|discriminate].
  intro H; inversion H; subst l'.
  apply sort_perm in E.
  eapply Permutation_trans; [apply Permutation_rev|].
  eapply Permutation_trans; [exact E|apply Permutation_rev].
Qed.

End SortFacts.

Lemma Forall2_In_right {A B : Type} (R : A -> B -> Prop)
  (l1 : list A) (l2 : list B) (y : B) :
  Forall2 R l1 l2 -> In y l2 -> exists x, In x l1 /\ R x y.
Proof.
  induction 1 as [|a b l1 l2 Hab _ IH]; simpl; [tauto|].
  intros [<-|Hy].
  - exists a; auto.
  - destruct (IH Hy) as (x & Hx & Hxy); exists x; auto.
Qed.

Lemma rank_candidates_ok (api_key : option string) (service : nat -> reply)
  (candidates : list dict) (job_description : string) (ranked : list dict) :
  rank_candidates api_key service candidates job_description = Ok ranked ->
  exists evaluated,
    gather_evaluations api_key service 0 candidates job_description
    = Ok evaluated
    /\ Permutation evaluated ranked.
Proof.
  unfold rank_candidates.
  destruct candidates as [|c cs].
  - intro H; inversion H; exists []; split; [reflexivity|constructor].
  - destruct (gather_evaluations api_key service 0 (c :: cs) job_description)
      as [evaluated|e]; simpl; [|discriminate].
    intro H; exists evaluated; split; [reflexivity|].
    eapply sorted_reverse_perm; exact H.
Qed.

(** C8, as amended. The record [evaluate_candidate] returns, and so each
    record [rank_candidates] returns, has every key of its candidate:
    an evaluation removes no field. On the fallback path every field
    other than the six scoring fields keeps its value. On the success path
    every field that the evaluation object parsed from the response does
    not name keeps its value; a field it names takes the value it gives,
    whether it is a scoring field or not. *)
Theorem evaluation_keeps_fields
  (api_key : option string) (service : nat -> reply)
  (candidates : list dict) (job_description : string) :
  (forall r candidate e,
      evaluate_candidate api_key r candidate job_description = Ok e ->
      (forall k, Dict.mem k candidate = true -> Dict.mem k e = true)
      /\ ((e = fallback candidate
           /\ forall k, ~ In k scoring_fields ->
                Dict.lookup k e = Dict.lookup k candidate)
          \/ exists ai_text ev,
               r = Ok (Some ai_text)
               /\ evaluation_json ai_text = Ok (VDict ev)
               /\ e = Dict.update candidate ev
               /\ forall k, Dict.mem k ev = false ->
                    Dict.lookup k e = Dict.lookup k candidate))
  /\ (forall ranked,
        rank_candidates api_key service candidates job_description
        = Ok ranked ->
        forall e, In e ranked ->
          exists candidate n,
            In candidate candidates
            /\ evaluate_candidate api_key (service n) candidate
                 job_description = Ok e
            /\ forall k, Dict.mem k candidate = true -> Dict.mem k e = true).
Proof.
  assert (Keys : forall r candidate e,
             evaluate_candidate api_key r candidate job_description = Ok e ->
             forall k, Dict.mem k candidate = true -> Dict.mem k e = true).
  { intros r candidate e H k Hk.
    destruct (evaluate_candidate_ok _ _ _ _ _ H) as [->|(t & ev & _ & _ & ->)];
      apply mem_update, Hk. }
  split.
  - intros r candidate e H; split; [exact (Keys _ _ _ H)|].
    destruct (evaluate_candidate_ok _ _ _ _ _ H) as [->|(t & ev & Hr & Hj & ->)].
    + left; split; [reflexivity|].
      intros k Hk; apply lookup_update_other, mem_scoring_fields, Hk.
    + right; exists t, ev; repeat split; try assumption.
      intros k Hk; apply lookup_update_other, Hk.
  - intros ranked H e He.
    destruct (rank_candidates_ok _ _ _ _ _ H) as (evaluated & G & P).
    apply gather_evaluations_ok in G.
    apply (Permutation_in _ (Permutation_sym P)) in He.
    destruct (Forall2_In_right _ _ _ _ G He) as (candidate & Hc & n & Hn).
    exists candidate, n; repeat split; try assumption.
    exact (Keys _ _ _ Hn).
Qed.

Lemma evaluation_keeps_fields_witness :
  Dict.mem "name"
    (Dict.update [("name", VStr "Ann")] [("score", VInt 90)]) = true.
Proof.
  refine (proj1 (proj1 (evaluation_keeps_fields (Some "key")
                          (fun _ => Ok (Some (quoted "{'score': 90}")))
                          [[("name", VStr "Ann")]] "Python developer")
                   (Ok (Some (quoted "{'score': 90}"))) [("name", VStr "Ann")]
                   (Dict.update [("name", VStr "Ann")] [("score", VInt 90)])
                   _) "name" _).
  - vm_compute; reflexivity.
  - reflexivity.
Defined.

(** C8, as stated, fails on the success path: the evaluation object may
    name an extraction field, and the merge then replaces the extracted
    value. *)
Lemma evaluation_overwrites_name :
  evaluate_candidate (Some "key")
    (Ok (Some (quoted "{'score': 90, 'name': 'Bob'}")))
    [("name", VStr "Ann"); ("skills", VList [VStr "Python"])]
    "Python developer"
  = Ok [("name", VStr "Bob"); ("skills", VList [VStr "Python"]);
        ("score", VInt 90)].
Proof.
  vm_compute; reflexivity.
Qed.

(** ** The sort of the Ranker on integer scores *)

Lemma lt_int (a b : Z) : Py.lt (VInt a) (VInt b) = Ok (a <? b).
Proof.
  simpl; unfold Py.scaled.
  rewrite Z.min_id, Z.sub_diag, Z.pow_0_r, !Z.mul_1_r; reflexivity.
Qed.

Lemma StronglySorted_snoc {A : Type} (R : A -> A -> Prop) (l : list A) (a : A) :
  StronglySorted R l -> Forall (fun y => R y a) l ->
  StronglySorted R (l ++ [a]).
Proof.
  induction 1 as [|x l Hs IH Hx]; intro Hf; simpl.
  - constructor; constructor.
  - inversion Hf; subst.
    constructor; [apply IH; assumption|].
    apply Forall_app; split; [assumption|constructor; [assumption|constructor]].
Qed.

Lemma StronglySorted_rev {A : Type} (R : A -> A -> Prop) (l : list A) :
  StronglySorted R l -> StronglySorted (fun a b => R b a) (rev l).
Proof.
  induction 1 as [|x l Hs IH Hx]; simpl; [constructor|].
  apply StronglySorted_snoc; [exact IH|].
  apply Forall_rev; exact Hx.
Qed.

Section IntKeys.

Context {A : Type}.
Variable key : A -> value.
Variable zkey : A -> Z.

Let keyed (x : A) : Prop := key x = VInt (zkey x).
Let ascending : list A -> Prop :=
  StronglySorted (fun a b => zkey a <= zkey b).
Let of_key (s : Z) : list A -> list A := filter (fun x => zkey x =? s).

Lemma insert_int (x : A) (l : list A) :
  keyed x -> Forall keyed l ->
  exists l',
    Py.insert key x l = Ok l'
    /\ (ascending l -> ascending l')
    /\ forall s, of_key s l' = of_key s (x :: l).
Proof.
  intros Hx; induction 1 as [|y l Hy Hl IH]; simpl.
  - exists [x]; repeat split.
    intros _; constructor; constructor.
  - rewrite Hy, Hx, lt_int; simpl.
    destruct (zkey y <? zkey x) eqn:E.
    + apply Z.ltb_lt in E.
      destruct IH as (l'' & Hi & Hsorted & Hfilter).
      rewrite Hi; simpl.
      exists (y :: l''); repeat split.
      * intro Hs; inversion Hs as [|? ? Hs' Hall]; subst.
        constructor; [apply Hsorted; exact Hs'|].
        apply (Permutation_Forall (insert_perm key x l l'' Hi)).
        constructor; [lia|exact Hall].
      * intro s; unfold of_key in *; simpl.
        specialize (Hfilter s); simpl in Hfilter.
        rewrite Hfilter.
        destruct (zkey y =? s) eqn:Ey; destruct (zkey x =? s) eqn:Ex;
          try reflexivity.
        apply Z.eqb_eq in Ey, Ex; lia.
    + apply Z.ltb_ge in E.
      exists (x :: y :: l); repeat split.
      intro Hs; constructor; [exact Hs|].
      inversion Hs as [|? ? Hs' Hall]; subst.
      constructor; [exact E|].
      eapply Forall_impl; [|exact Hall].
      simpl; intros; lia.
Qed.

Lemma sort_int (l : list A) :
  Forall keyed l ->
  exists l',
    Py.sort key l = Ok l'
    /\ ascending l'
    /\ forall s, of_key s l' = of_key s l.
Proof.
  induction 1 as [|x l Hx Hl IH]; simpl.
  - exists []; repeat split; constructor.
  - destruct IH as (s0 & Hsort & Hasc & Hf).
    rewrite Hsort; simpl.
    assert (Hk : Forall keyed s0)
      by exact (Permutation_Forall (sort_perm key l s0 Hsort) Hl).
    destruct (insert_int x s0 Hx Hk) as (l' & Hi & Hs & Hf').
    exists l'; repeat split; auto.
    intro s; rewrite Hf'; unfold of_key in *; simpl.
    rewrite (Hf s); reflexivity.
Qed.

(** On integer keys [sorted] with [reverse=True] raises nothing and
    returns the list in descending order of key, the items of each key
    in the order they had. *)
Lemma sorted_reverse_int (l : list A) :
  Forall keyed l ->
  exists l',
    Py.sorted_reverse key l = Ok l'
    /\ StronglySorted (fun a b => zkey b <= zkey a) l'
    /\ forall s, of_key s l' = of_key s l.
Proof.
  intro H; unfold Py.sorted_reverse.
  destruct (sort_int (rev l) (Forall_rev H)) as (s0 & Hsort & Hasc & Hf).
  rewrite Hsort; simpl.
  exists (rev s0); repeat split.
  - exact (StronglySorted_rev _ _ Hasc).
  - intro s; unfold of_key in *.
    rewrite filter_rev, (Hf s), filter_rev, rev_involutive; reflexivity.
Qed.

End IntKeys.

Lemma int_score_key (x : dict) : int_score x -> score_key x = VInt (score_of x).
Proof.
  intros [z Hz]; unfold score_of; rewrite Hz; reflexivity.
Qed.





(** ** No candidate is lost *)

Lemma gather_evaluations_total (api_key : option string)
  (service : nat -> reply) (job_description client : string)
  (candidates : list dict) :
  get_client api_key = Ok client ->
  Forall (fun candidate =>
            candidate_summary candidate = Ok tt
            /\ printable (Dict.get "name" (VStr "Unknown") candidate) = true)
    candidates ->
  forall i,
  exists evaluated,
    gather_evaluations api_key service i candidates job_description
    = Ok evaluated.
Proof.
  intros Hclient; induction 1 as [|c cs [Hc Hn] _ IH]; intro i; simpl.
  - exists []; reflexivity.
  - unfold evaluate_candidate; rewrite Hclient, Hc; simpl.
    destruct (IH (S i)) as (es & Hes); rewrite Hes.
    destruct (try_evaluate (service i) c); simpl;
      [|rewrite (print_one _ Hn); simpl]; eexists; reflexivity.
Qed.

(** C3, as amended. Whatever list [rank_candidates] returns has the
    length of the input list; the empty list gives the empty list,
    whatever the environment and the service; and once the client is made,
    the prompts are built and the names can be printed, every candidate
    comes out of the evaluation with a record, whatever the service does,
    so none is dropped there, and with integer scores the ranking returns
    a list of the length of the input. *)
Theorem rank_candidates_length
  (api_key : option string) (service : nat -> reply)
  (candidates : list dict) (job_description : string) :
  (forall ranked,
      rank_candidates api_key service candidates job_description = Ok ranked ->
      List.length ranked = List.length candidates)
  /\ rank_candidates api_key service [] job_description = Ok []
  /\ (forall client,
        get_client api_key = Ok client ->
        Forall (fun candidate =>
                  candidate_summary candidate = Ok tt
                  /\ printable (Dict.get "name" (VStr "Unknown") candidate)
                     = true)
          candidates ->
        exists evaluated,
          gather_evaluations api_key service 0 candidates job_description
          = Ok evaluated
          /\ List.length evaluated = List.length candidates
          /\ (Forall int_score evaluated ->
              exists ranked,
                rank_candidates api_key service candidates job_description
                = Ok ranked
                /\ List.length ranked = List.length candidates)).
Proof.
  assert (L : forall ranked,
             rank_candidates api_key service candidates job_description
             = Ok ranked ->
             List.length ranked = List.length candidates).
  { intros ranked H.
    destruct (rank_candidates_ok _ _ _ _ _ H) as (evaluated & G & P).
    rewrite <- (Permutation_length P).
    symmetry; eapply Forall2_length, gather_evaluations_ok; exact G. }
  split; [exact L|].
  split; [reflexivity|].
  intros client Hclient Hsummary.
  destruct (gather_evaluations_total api_key service job_description client
              candidates Hclient Hsummary 0%nat) as (evaluated & G).
  exists evaluated; split; [exact G|].
  split.
  - symmetry; eapply Forall2_length, gather_evaluations_ok; exact G.
  - intro Hint.
    assert (Hk : Forall (fun x => score_key x = VInt (score_of x)) evaluated)
      by (eapply Forall_impl; [|exact Hint]; exact int_score_key).
    destruct (sorted_reverse_int score_key score_of evaluated Hk)
      as (ranked & Hs & _).
    assert (R : rank_candidates api_key service candidates job_description
                = Ok ranked).
    { unfold rank_candidates; destruct candidates as [|c cs].
      - simpl in G; inversion G; subst evaluated.
        vm_compute in Hs; exact Hs.
      - rewrite G; exact Hs. }
    exists ranked; split; [exact R|exact (L ranked R)].
Qed.

Lemma rank_candidates_length_witness :
  List.length
    [[("name", VStr "B"); ("score", VInt 90)];
     [("name", VStr "A"); ("score", VInt 50);
      ("match_percentage", VInt 50);
      ("summary", VStr "Unable to generate detailed assessment");
      ("strengths", VList [VStr "Evaluation pending"]);
      ("gaps", VList []); ("recommendation", VStr "moderate_fit")]]
  = List.length [[("name", VStr "A")]; [("name", VStr "B")]].
Proof.
  apply (proj1 (rank_candidates_length (Some "key")
                  (fun i => match i with
                            | 1%nat => Ok (Some (quoted "{'score': 90}"))
                            | _ => Raise (ExternalError "timeout")
                            end)
                  [[("name", VStr "A")]; [("name", VStr "B")]]
                  "Python developer")).
  vm_compute; reflexivity.
Defined.

(** C3, as stated, fails: candidates that reach the ranking are lost at
    evaluation time, all of them, when one evaluation raises. Without an
    API key every evaluation raises before its [try]; and with a failing
    service the handler raises on a name it cannot print. The ranking then
    returns no list. *)
Lemma rank_candidates_loses_candidates :
  rank_candidates None (fun _ => Ok (Some (quoted "{'score': 90}")))
    [[("name", VStr "A")]; [("name", VStr "B")]] "Python developer"
  = Raise (ValueError "AI_API_KEY not set in environment")
  /\ rank_candidates (Some "key")
       (fun i => match i with
                 | O => Ok (Some (quoted "{'score': 90}"))
                 | _ => Raise (ExternalError "timeout")
                 end)
       [[("name", VStr "A")]; [("name", VStr lone_surrogate)]]
       "Python developer"
     = Raise unicode_encode_error.
Proof.
  split; vm_compute; reflexivity.
Qed.

(** ** The Retriever *)

Lemma StronglySorted_app_inv {A : Type} (R : A -> A -> Prop) (l1 l2 : list A) :
  StronglySorted R (l1 ++ l2) ->
  StronglySorted R l2 /\ forall x y, In x l1 -> In y l2 -> R x y.
Proof.
  induction l1 as [|a l1 IH]; simpl; intro H.
  - split; [exact H|intros x y []].
  - inversion H as [|? ? Hs Hall]; subst.
    destruct (IH Hs) as [H2 H12]; split; [exact H2|].
    intros x y [<-|Hx] Hy.
    + rewrite Forall_forall in Hall; apply Hall, in_or_app; right; exact Hy.
    + exact (H12 x y Hx Hy).
Qed.

Lemma select_ok {A : Type} (docs : list A) (idx : list nat) :
  Forall (fun i => (i < List.length docs)%nat) idx ->
  exists chunks,
    select docs idx = Ok chunks
    /\ Forall2 (fun i chunk => nth_error docs i = Some chunk) idx chunks.
Proof.
  induction 1 as [|i idx Hi _ (chunks & Hs & Hf)]; simpl.
  - exists []; split; [reflexivity|constructor].
  - destruct (nth_error docs i) as [d|] eqn:E.
    + rewrite Hs; simpl; exists (d :: chunks); split; [reflexivity|].
      constructor; assumption.
    + apply nth_error_None in E; lia.
Qed.

Lemma insert_index_perm (sim : list Q) (i : nat) (l : list nat) :
  Permutation (Np.insert_index sim i l) (i :: l).
Proof.
  induction l as [|j l IH]; simpl; [apply Permutation_refl|].
  destruct (Np.sim_lt sim j i); [|apply Permutation_refl].
  eapply Permutation_trans; [apply perm_skip, IH|apply perm_swap].
Qed.

Lemma insert_index_sorted (sim : list Q) (i : nat) (l : list nat) :
  StronglySorted (fun a b => (Np.at_index sim a <= Np.at_index sim b)%Q) l ->
  StronglySorted (fun a b => (Np.at_index sim a <= Np.at_index sim b)%Q)
    (Np.insert_index sim i l).
Proof.
  induction 1 as [|j l Hs IH Hall]; simpl.
  - constructor; constructor.
  - unfold Np.sim_lt.
    destruct (Qle_bool (Np.at_index sim i) (Np.at_index sim j)) eqn:E; simpl.
    + apply Qle_bool_iff in E.
      constructor; [constructor; assumption|].
      constructor; [exact E|].
      eapply Forall_impl; [|exact Hall].
      simpl; intros k Hk; eapply Qle_trans; eassumption.
    + constructor; [exact IH|].
      apply (Permutation_Forall (Permutation_sym (insert_index_perm sim i l))).
      constructor; [|exact Hall].
      apply Qlt_le_weak, Qnot_le_lt.
      intro H; apply Qle_bool_iff in H; congruence.
Qed.

(** The index sort that keeps equal values in index order is one that
    numpy's contract allows. *)
Lemma stable_argsort_sorts : sorts_indices Np.stable_argsort.
Proof.
  intro sim; unfold Np.stable_argsort.
  generalize (seq 0 (List.length sim)) as l.
  induction l as [|i l [IHp IHs]]; simpl.
  - split; constructor.
  - split.
    + eapply Permutation_trans; [apply insert_index_perm|].
      apply perm_skip, IHp.
    + apply insert_index_sorted, IHs.
Qed.

(** C4, as amended. For any index sort that numpy's contract allows and
    [top_k >= 1], [retrieve_chunks] returns [min(top_k, number of chunks)]
    chunks, taken at distinct indices, in non-increasing order of
    similarity, and no chunk left out is more similar than a chunk
    returned; with [top_k] at or above the number of chunks these are all
    the chunks. Nothing is promised about the order of equally similar
    chunks. *)
Theorem retrieve_chunks_top_k {A : Type} (argsort : list Q -> list nat)
  (docs : list A) (sim : list Q) (top_k : Z) :
  sorts_indices argsort ->
  List.length sim = List.length docs ->
  1 <= top_k ->
  exists top_idx chunks,
    retrieve_chunks argsort docs sim top_k = Ok chunks
    /\ Forall2 (fun i chunk => nth_error docs i = Some chunk) top_idx chunks
    /\ List.length chunks
       = Z.to_nat (Z.min top_k (Z.of_nat (List.length docs)))
    /\ NoDup top_idx
    /\ StronglySorted
         (fun i j => (Np.at_index sim j <= Np.at_index sim i)%Q) top_idx
    /\ (forall i j,
          In i top_idx -> (j < List.length docs)%nat -> ~ In j top_idx ->
          (Np.at_index sim j <= Np.at_index sim i)%Q)
    /\ (Z.of_nat (List.length docs) <= top_k ->
        Permutation top_idx (seq 0 (List.length docs))).
Proof.
  intros Hsort Hlen Hk.
  destruct (Hsort sim) as [P S].
  unfold retrieve_chunks, Np.slice_from.
  assert (Hl : List.length (argsort sim) = List.length docs)
    by (rewrite (Permutation_length P), length_seq; exact Hlen).
  destruct (- top_k <? 0) eqn:E; [|apply Z.ltb_ge in E; lia].
  set (m := Z.to_nat (Z.max (Z.of_nat (List.length (argsort sim)) + - top_k) 0)).
  pose proof (firstn_skipn m (argsort sim)) as Hsplit.
  set (tail := skipn m (argsort sim)) in *.
  assert (Hin : forall i, In i tail -> In i (argsort sim))
    by (intros i Hi; rewrite <- Hsplit; apply in_or_app; right; exact Hi).
  assert (Hbound : Forall (fun i => (i < List.length docs)%nat) (rev tail)).
  { apply Forall_forall; intros i Hi.
    apply in_rev, Hin in Hi.
    apply (Permutation_in _ P), in_seq in Hi; lia. }
  destruct (select_ok docs (rev tail) Hbound) as (chunks & Hs & Hf).
  rewrite <- Hsplit in S.
  destruct (StronglySorted_app_inv _ _ _ S) as [Stail Scross].
  exists (rev tail), chunks.
  split; [exact Hs|].
  split; [exact Hf|].
  split.
  { rewrite <- (Forall2_length Hf), length_rev.
    unfold tail; rewrite length_skipn; unfold m; lia. }
  split.
  { apply NoDup_rev.
    apply (NoDup_app_remove_l (firstn m (argsort sim))).
    fold tail; rewrite Hsplit.
    apply (Permutation_NoDup (Permutation_sym P)), seq_NoDup. }
  split.
  { exact (StronglySorted_rev _ _ Stail). }
  split.
  { intros i j Hi Hj Hnot.
    apply in_rev in Hi.
    assert (Hja : In j (argsort sim))
      by (apply (Permutation_in _ (Permutation_sym P)), in_seq; lia).
    rewrite <- Hsplit in Hja.
    apply in_app_or in Hja; destruct Hja as [Hja|Hja].
    - exact (Scross j i Hja Hi).
    - exfalso; apply Hnot, in_rev; rewrite rev_involutive; exact Hja. }
  intro Hall.
  assert (Hm : m = 0%nat) by (unfold m; lia).
  unfold tail; rewrite Hm; simpl skipn.
  rewrite <- Hlen.
  eapply Permutation_trans; [apply Permutation_sym, Permutation_rev|exact P].
Qed.

Lemma retrieve_chunks_top_k_witness :
  exists chunks,
    retrieve_chunks Np.stable_argsort ["intro"; "skills"; "hobbies"]
      [1 # 4; 3 # 4; 1 # 2]%Q 2
    = Ok chunks
    /\ List.length chunks = 2%nat.
Proof.
  destruct (retrieve_chunks_top_k Np.stable_argsort
              ["intro"; "skills"; "hobbies"] [1 # 4; 3 # 4; 1 # 2]%Q 2)
    as (top_idx & chunks & H & _ & L & _).
  - exact stable_argsort_sorts.
  - reflexivity.
  - lia.
  - exists chunks; split; [exact H|exact L].
Defined.

(** C4, as stated, fails on ties and on [top_k = 0]. The indices come from
    an ascending sort read backwards: with the index sort that keeps equal
    values in index order, two equally similar chunks come out in the
    reverse of their original order. And [sim.argsort()[-0:]] is the whole
    array, so [top_k = 0] returns every chunk. *)
Lemma retrieve_chunks_ties_reversed :
  retrieve_chunks Np.stable_argsort ["first"; "second"] [1; 1]%Q 2
  = Ok ["second"; "first"]
  /\ retrieve_chunks Np.stable_argsort ["first"; "second"] [1 # 2; 1]%Q 0
     = Ok ["second"; "first"].
Proof.
  split; vm_compute; reflexivity.
Qed.

(** ** The matcher *)

Lemma match_greedy_eq (p : Re.regex) (s : string) (g : string * string) :
  Re.match_here (Re.AnyStar true :: p) s g
  = match s with
    | EmptyString => Re.match_here p s g
    | String _ s' =>
        Re.or_else (Re.match_here (Re.AnyStar true :: p) s' g)
          (Re.match_here p s g)
    end.
Proof. destruct s; reflexivity. Qed.

Lemma match_lazy_eq (p : Re.regex) (s : string) (g : string * string) :
  Re.match_here (Re.AnyStar false :: p) s g
  = match Re.match_here p s g with
    | Some r => Some r
    | None =>
        match s with
        | EmptyString => None
        | String _ s' => Re.match_here (Re.AnyStar false :: p) s' g
        end
    end.
Proof. destruct s; reflexivity. Qed.

Lemma match_space_eq (p : Re.regex) (s : string) (g : string * string) :
  Re.match_here (Re.SpaceStar :: p) s g
  = let stop := Re.match_here p s g in
    let again s' := Re.or_else (Re.match_here (Re.SpaceStar :: p) s' g) stop in
    match s with
    | EmptyString => stop
    | String a s1 =>
        if Re.is_space1 a then again s1
        else
          match s1 with
          | EmptyString => stop
          | String b s2 =>
              if Re.is_space2 a b then again s2
              else
                match s2 with
                | EmptyString => stop
                | String c s3 => if Re.is_space3 a b c then again s3 else stop
                end
          end
    end.
Proof.
  destruct s as [|a [|b [|c s3]]]; try reflexivity.
Qed.

Lemma append_assoc (a b c : string) : ((a ++ b) ++ c = a ++ (b ++ c))%string.
Proof. induction a; simpl; congruence. Qed.

Lemma append_nil_r (a : string) : (a ++ "")%string = a.
Proof. induction a; simpl; congruence. Qed.

Lemma matches_any_cons (greedy : bool) (p : Re.regex) (x : ascii) (s : string) :
  matches (Re.AnyStar greedy :: p) s ->
  matches (Re.AnyStar greedy :: p) (String x s).
Proof.
  inversion 1; subst.
  change (String x (a ++ s0)%string) with ((String x a) ++ s0)%string.
  constructor; assumption.
Qed.

Lemma matches_space_more (p : Re.regex) (w s : string) :
  spaces w -> matches (Re.SpaceStar :: p) s ->
  matches (Re.SpaceStar :: p) (w ++ s)%string.
Proof.
  intros Hw H; inversion H as [| | |p' w0 s0 Hw0 Hm| |]; subst.
  rewrite <- append_assoc; constructor; [|assumption].
  clear - Hw Hw0.
  induction Hw; simpl; [assumption| | |]; constructor; assumption.
Qed.

(** What the matcher accepts is a text of the pattern: soundness of
    [match_here] for the part of a pattern before its group. *)
Lemma match_here_app (p1 : Re.regex) :
  plain p1 = true ->
  forall q s g r,
    Re.match_here (p1 ++ q) s g = Some r ->
    exists c1 s1,
      s = (c1 ++ s1)%string /\ matches p1 c1 /\ Re.match_here q s1 g = Some r.
Proof.
  induction p1 as [|a p1 IH]; intros Hp q s g r.
  - intro H; exists "", s; repeat split; [constructor|exact H].
  - simpl in Hp; apply andb_prop in Hp; destruct Hp as [Ha Hp].
    specialize (IH Hp).
    destruct a as [c|[|]| | |]; try discriminate; rewrite <- app_comm_cons.
    + (* literal *)
      simpl; destruct s as [|x s]; [discriminate|].
      destruct (Ascii.eqb_spec x c); [subst x|discriminate].
      intro H; destruct (IH _ _ _ _ H) as (c1 & s1 & -> & Hm & Hq).
      exists (String c c1), s1; repeat split; [constructor|]; assumption.
    + (* greedy star *)
      induction s as [|x s IHs]; rewrite match_greedy_eq.
      * intro H; destruct (IH _ _ _ _ H) as (c1 & s1 & -> & Hm & Hq).
        exists c1, s1; repeat split; [|exact Hq].
        apply (matches_any true p1 "" c1 Hm).
      * destruct (Re.match_here (Re.AnyStar true :: p1 ++ q) s g) as [r'|]
          eqn:E; simpl.
        -- intro H; inversion H; subst r'.
           destruct (IHs eq_refl) as (c1 & s1 & -> & Hm & Hq).
           exists (String x c1), s1; repeat split;
             [apply matches_any_cons|]; assumption.
        -- intro H; destruct (IH _ _ _ _ H) as (c1 & s1 & Hs & Hm & Hq).
           exists c1, s1; repeat split; [exact Hs| |exact Hq].
           apply (matches_any true p1 "" c1 Hm).
    + (* lazy star *)
      induction s as [|x s IHs]; rewrite match_lazy_eq.
      * destruct (Re.match_here (p1 ++ q) "" g) as [r'|] eqn:E;
          [|discriminate].
        intro H; inversion H; subst r'.
        destruct (IH _ _ _ _ E) as (c1 & s1 & -> & Hm & Hq).
        exists c1, s1; repeat split; [|exact Hq].
        apply (matches_any false p1 "" c1 Hm).
      * destruct (Re.match_here (p1 ++ q) (String x s) g) as [r'|] eqn:E.
        -- intro H; inversion H; subst r'.
           destruct (IH _ _ _ _ E) as (c1 & s1 & Hs & Hm & Hq).
           exists c1, s1; repeat split; [exact Hs| |exact Hq].
           apply (matches_any false p1 "" c1 Hm).
        -- intro H; destruct (IHs H) as (c1 & s1 & -> & Hm & Hq).
           exists (String x c1), s1; repeat split;
             [apply matches_any_cons|]; assumption.
    + (* white space *)
      assert (Stop : forall s,
                 Re.match_here (p1 ++ q) s g = Some r ->
                 exists c1 s1,
                   s = (c1 ++ s1)%string /\ matches (Re.SpaceStar :: p1) c1
                   /\ Re.match_here q s1 g = Some r).
      { intros s0 H; destruct (IH _ _ _ _ H) as (c1 & s1 & Hs & Hm & Hq).
        exists c1, s1; repeat split; [exact Hs| |exact Hq].
        apply (matches_space p1 "" c1); [constructor|exact Hm]. }
      assert (Again : forall w s',
                 spaces w ->
                 (exists c1 s1,
                    s' = (c1 ++ s1)%string /\ matches (Re.SpaceStar :: p1) c1
                    /\ Re.match_here q s1 g = Some r) ->
                 exists c1 s1,
                   (w ++ s')%string = (c1 ++ s1)%string
                   /\ matches (Re.SpaceStar :: p1) c1
                   /\ Re.match_here q s1 g = Some r).
      { intros w s' Hw (c1 & s1 & -> & Hm & Hq).
        exists (w ++ c1)%string, s1; repeat split;
          [symmetry; apply append_assoc| |exact Hq].
        apply matches_space_more; assumption. }
      remember (String.length s) as n eqn:Hn.
      revert s Hn; induction n as [n IHn] using lt_wf_ind; intros s Hn.
      rewrite match_space_eq; cbv zeta.
      destruct s as [|a s1]; [apply Stop|].
      destruct (Re.is_space1 a) eqn:E1.
      { destruct (Re.match_here (Re.SpaceStar :: p1 ++ q) s1 g) as [r'|] eqn:E;
          simpl; [|apply Stop].
        intro H; inversion H; subst r'.
        apply (Again (String a "") s1);
          [constructor; [exact E1|constructor]|].
        apply (IHn (String.length s1)); [subst n; simpl; lia|reflexivity|exact E]. }
      destruct s1 as [|b s2]; [apply Stop|].
      destruct (Re.is_space2 a b) eqn:E2.
      { destruct (Re.match_here (Re.SpaceStar :: p1 ++ q) s2 g) as [r'|] eqn:E;
          simpl; [|apply Stop].
        intro H; inversion H; subst r'.
        apply (Again (String a (String b "")) s2);
          [apply spaces_2; [exact E2|constructor]|].
        apply (IHn (String.length s2)); [subst n; simpl; lia|reflexivity|exact E]. }
      destruct s2 as [|c s3]; [apply Stop|].
      destruct (Re.is_space3 a b c) eqn:E3; [|apply Stop].
      destruct (Re.match_here (Re.SpaceStar :: p1 ++ q) s3 g) as [r'|] eqn:E;
        simpl; [|apply Stop].
      intro H; inversion H; subst r'.
      apply (Again (String a (String b (String c ""))) s3);
        [apply spaces_3; [exact E3|constructor]|].
      apply (IHn (String.length s3)); [subst n; simpl; lia|reflexivity|exact E].
Qed.

Lemma length_append (a b : string) :
  String.length (a ++ b) = (String.length a + String.length b)%nat.
Proof. induction a; simpl; congruence. Qed.

Lemma upto_app (a b : string) : Re.upto (a ++ b)%string b = a.
Proof.
  unfold Re.upto.
  replace (String.length (a ++ b) - String.length b)%nat with (String.length a)
    by (rewrite length_append; lia).
  induction a as [|c a IH]; simpl; [destruct b; reflexivity|].
  rewrite IH; reflexivity.
Qed.

Lemma occurs_app (c : ascii) (a b : string) :
  occurs c (a ++ b)%string = (occurs c a || occurs c b)%bool.
Proof.
  induction a as [|x a IH]; simpl; [reflexivity|].
  rewrite IH; apply orb_assoc.
Qed.

Lemma search_sound (p : Re.regex) (text : string) (m : Re.rmatch) :
  Re.search p text = Some m ->
  exists pre s go gc rest,
    text = (pre ++ s)%string
    /\ Re.match_here p s (s, s) = Some (go, gc, rest)
    /\ Re.group0 m = Re.upto s rest
    /\ Re.group1 m = Re.upto go gc.
Proof.
  induction text as [|x text IH]; simpl.
  - destruct (Re.match_here p "" ("", "")) as [[[go gc] rest]|] eqn:E;
      [|discriminate].
    intro H; inversion H; subst m.
    exists "", "", go, gc, rest; repeat split; exact E.
  - destruct (Re.match_here p (String x text) (String x text, String x text))
      as [[[go gc] rest]|] eqn:E.
    + intro H; inversion H; subst m.
      exists "", (String x text), go, gc, rest; repeat split; exact E.
    + intro H; destruct (IH H) as (pre & s & go & gc & rest & -> & Hm & H0 & H1).
      exists (String x pre), s, go, gc, rest; repeat split; assumption.
Qed.

Lemma match_open (p : Re.regex) (s : string) (g : string * string) :
  Re.match_here (Re.GOpen :: p) s g = Re.match_here p s (s, snd g).
Proof. reflexivity. Qed.

Lemma match_close (p : Re.regex) (s : string) (g : string * string) :
  Re.match_here (Re.GClose :: p) s g = Re.match_here p s (fst g, s).
Proof. reflexivity. Qed.

Lemma matches_lits (l : string) (p : Re.regex) (c : string) :
  matches (Re.lits l ++ p) c ->
  exists c', c = (l ++ c')%string /\ matches p c'.
Proof.
  revert c; induction l as [|x l IH]; simpl; intros c H.
  - exists c; split; [reflexivity|exact H].
  - inversion H; subst.
    destruct (IH _ H3) as (c' & -> & Hc).
    exists c'; split; [reflexivity|exact Hc].
Qed.

(** A match of the fenced pattern is a block opened by the marker, and its
    group is what stands between the white space after the marker and the
    white space before the closing fence: a brace, any text, a brace. *)
Lemma search_fenced (text : string) (m : Re.rmatch) :
  Re.search fenced_json_re text = Some m ->
  exists pre w1 mid w2 post,
    text = (pre ++ "```json" ++ w1 ++ "{" ++ mid ++ "}" ++ w2 ++ "```"
            ++ post)%string
    /\ spaces w1 /\ spaces w2
    /\ Re.group1 m = ("{" ++ mid ++ "}")%string.
Proof.
  intro H.
  destruct (search_sound _ _ _ H) as (pre & s & go & gc & rest & -> & Hm & _ & ->).
  change fenced_json_re with
    ((Re.lits "```json" ++ [Re.SpaceStar])
       ++ Re.GOpen
       :: ([Re.Lit "{"; Re.AnyStar false; Re.Lit "}"]
             ++ Re.GClose :: ((Re.SpaceStar :: Re.lits "```") ++ []))) in Hm.
  apply match_here_app in Hm; [|reflexivity].
  destruct Hm as (c1 & s1 & -> & M1 & Hm).
  rewrite match_open in Hm.
  apply match_here_app in Hm; [|reflexivity].
  destruct Hm as (c2 & s2 & -> & M2 & Hm).
  rewrite match_close in Hm.
  apply match_here_app in Hm; [|reflexivity].
  destruct Hm as (c3 & s3 & -> & M3 & Hm).
  simpl in Hm; inversion Hm; subst go gc rest.
  rewrite upto_app.
  apply matches_lits in M1; destruct M1 as (w1 & -> & M1).
  inversion M1 as [| | |? w1' e1 Hw1 Me1| |]; subst.
  inversion Me1; subst.
  inversion M2 as [|? ? c2' M2'| | | |]; subst.
  inversion M2' as [| |? ? mid e2 M2''| | |]; subst.
  inversion M2'' as [|? ? e3 M2'''| | | |]; subst.
  inversion M2'''; subst.
  inversion M3 as [| | |? w2 e4 Hw2 Me4| |]; subst.
  apply (matches_lits "```" []) in Me4; destruct Me4 as (e5 & -> & Me5).
  inversion Me5; subst.
  exists pre, w1', mid, w2, s3; repeat split; try assumption.
  simpl; rewrite !append_nil_r, !append_assoc; simpl.
  repeat (rewrite ?append_assoc; simpl); reflexivity.
Qed.

(** The greedy star before the closing brace stops at the last closing
    brace of the text. *)
Lemma match_last_close (g : string * string) (s : string) :
  match Re.match_here [Re.AnyStar true; Re.Lit "}"; Re.GClose] s g with
  | Some (go, gc, rest) =>
      go = fst g /\ gc = rest
      /\ exists mid, s = (mid ++ "}" ++ rest)%string /\ occurs "}" rest = false
  | None => occurs "}" s = false
  end.
Proof.
  induction s as [|x s IH]; rewrite match_greedy_eq; [reflexivity|].
  destruct (Re.match_here [Re.AnyStar true; Re.Lit "}"; Re.GClose] s g)
    as [[[go gc] rest]|]; simpl.
  - destruct IH as (-> & -> & mid & -> & Hr).
    repeat split; exists (String x mid); split; [reflexivity|exact Hr].
  - destruct (Ascii.eqb_spec x "}"); simpl.
    + subst x; repeat split; exists ""; split; [reflexivity|exact IH].
    + exact IH.
Qed.

(** The second step selects the text from the first opening brace to the
    last closing brace, when the latter comes after the former. *)
Lemma search_brace_span (text : string) :
  match Re.search brace_span_re text with
  | Some m =>
      exists pre mid post,
        text = (pre ++ "{" ++ mid ++ "}" ++ post)%string
        /\ occurs "{" pre = false /\ occurs "}" post = false
        /\ Re.group0 m = ("{" ++ mid ++ "}")%string
  | None =>
      forall pre post,
        text = (pre ++ String "{" post)%string -> occurs "}" post = false
  end.
Proof.
  induction text as [|x text IH].
  - simpl; intros [|? ?] post H; discriminate.
  - assert (Later :
             Re.match_here brace_span_re (String x text)
               (String x text, String x text) = None ->
             (x = "{"%char -> occurs "}" text = false) ->
             match Re.search brace_span_re (String x text) with
             | Some m =>
                 exists pre mid post,
                   String x text = (pre ++ "{" ++ mid ++ "}" ++ post)%string
                   /\ occurs "{" pre = false /\ occurs "}" post = false
                   /\ Re.group0 m = ("{" ++ mid ++ "}")%string
             | None =>
                 forall pre post,
                   String x text = (pre ++ String "{" post)%string ->
                   occurs "}" post = false
             end).
    { intros E Hx.
      change (Re.search brace_span_re (String x text))
        with (match Re.match_here brace_span_re (String x text)
                      (String x text, String x text) with
              | Some (go, gc, rest) =>
                  Some {| Re.group0 := Re.upto (String x text) rest;
                          Re.group1 := Re.upto go gc |}
              | None => Re.search brace_span_re text
              end).
      rewrite E.
      destruct (Re.search brace_span_re text) as [m|].
      - destruct IH as (pre & mid & post & -> & Hpre & Hpost & Hg).
        destruct (Ascii.eqb_spec x "{") as [->|Hne].
        + specialize (Hx eq_refl).
          rewrite !occurs_app in Hx; simpl in Hx.
          rewrite !orb_true_r in Hx; discriminate.
        + exists (String x pre), mid, post; repeat split; try assumption.
          simpl; rewrite Hpre.
          destruct (Ascii.eqb_spec x "{"); [contradiction|reflexivity].
      - intros [|y pre] post H; simpl in H; inversion H; subst.
        + apply Hx; reflexivity.
        + eapply IH; reflexivity. }
    destruct (Ascii.eqb_spec x "{") as [->|Hne].
    + pose proof (match_last_close (String "{" text, String "{" text) text) as L.
      change (Re.match_here brace_span_re (String "{" text)
                (String "{" text, String "{" text))
        with (Re.match_here [Re.AnyStar true; Re.Lit "}"; Re.GClose] text
                (String "{" text, String "{" text)) in Later.
      change (Re.search brace_span_re (String "{" text))
        with (match Re.match_here [Re.AnyStar true; Re.Lit "}"; Re.GClose]
                      text (String "{" text, String "{" text) with
              | Some (go, gc, rest) =>
                  Some {| Re.group0 := Re.upto (String "{" text) rest;
                          Re.group1 := Re.upto go gc |}
              | None => Re.search brace_span_re text
              end) in *.
      destruct (Re.match_here [Re.AnyStar true; Re.Lit "}"; Re.GClose] text
                  (String "{" text, String "{" text)) as [[[go gc] rest]|].
      * destruct L as (-> & -> & mid & -> & Hr).
        exists "", mid, rest; repeat split; try assumption.
        change (Re.upto (String "{" (mid ++ String "}" rest)) rest
                = String "{" (mid ++ "}")).
        replace (mid ++ String "}" rest)%string
          with ((mid ++ "}") ++ rest)%string
          by (rewrite append_assoc; reflexivity).
        exact (upto_app (String "{" (mid ++ "}")) rest).
      * apply Later; [reflexivity|intros _; exact L].
    + apply Later; [|intro; contradiction].
      simpl; destruct (Ascii.eqb_spec x "{"); [contradiction|reflexivity].
Qed.

(** [extract_json] is its three steps in order: the span of the fence, else
    the brace span, then the commas stripped, then the parse. *)
Lemma extract_json_steps (text : string) :
  extract_json text
  = match selected_span text with
    | Some span => Json.loads (strip_trailing_commas span)
    | None => Raise (ValueError "JSON not found in AI response")
    end.
Proof.
  unfold extract_json, selected_span, strip_trailing_commas.
  destruct (Re.search fenced_json_re text); [reflexivity|].
  destruct (Re.search brace_span_re text); reflexivity.
Qed.

(** A text without opening brace has no span to select. *)
Lemma no_brace_no_span (text : string) :
  occurs "{" text = false -> selected_span text = None.
Proof.
  intro H; unfold selected_span.
  destruct (Re.search fenced_json_re text) as [m|] eqn:F.
  - destruct (search_fenced _ _ F) as (pre & w1 & mid & w2 & post & -> & _).
    rewrite !occurs_app in H; simpl in H.
    rewrite !orb_true_r in H; discriminate.
  - pose proof (search_brace_span text) as B.
    destruct (Re.search brace_span_re text) as [m|]; [|reflexivity].
    destruct B as (pre & mid & post & -> & _).
    rewrite !occurs_app in H; simpl in H.
    rewrite !orb_true_r in H; discriminate.
Qed.

(** ** The substitution of trailing commas *)

Lemma sub_from_skip (p : Re.regex) (repl a rest : string) :
  Re.sub_from p repl (a ++ rest)%string (String.length a)
  = Re.sub_from p repl rest 0.
Proof.
  induction a as [|x a IH]; simpl; [reflexivity|exact IH].
Qed.

Lemma sub_match (p : Re.regex) (repl : string) (x : ascii) (c rest : string)
  (go gc : string) :
  Re.match_here p (String x (c ++ rest))
    (String x (c ++ rest), String x (c ++ rest)) = Some (go, gc, rest) ->
  Re.sub_from p repl (String x (c ++ rest)) 0
  = (repl ++ Re.sub_from p repl rest 0)%string.
Proof.
  intro H.
  change (Re.sub_from p repl (String x (c ++ rest)) 0)
    with (match Re.match_here p (String x (c ++ rest))
                  (String x (c ++ rest), String x (c ++ rest)) with
          | Some (_, _, rest0) =>
              match (String.length (String x (c ++ rest))
                     - String.length rest0)%nat with
              | O => String x (Re.sub_from p repl (c ++ rest) 0)
              | S k => (repl ++ Re.sub_from p repl (c ++ rest) k)%string
              end
          | None => String x (Re.sub_from p repl (c ++ rest) 0)
          end).
  rewrite H.
  replace (String.length (String x (c ++ rest)) - String.length rest)%nat
    with (S (String.length c))
    by (change (String.length (String x (c ++ rest)))
          with (S (String.length (c ++ rest)));
        rewrite length_append; lia).
  rewrite sub_from_skip; reflexivity.
Qed.

Lemma sub_no_match (p : Re.regex) (repl : string) (x : ascii) (s : string) :
  Re.match_here p (String x s) (String x s, String x s) = None ->
  Re.sub_from p repl (String x s) 0 = String x (Re.sub_from p repl s 0).
Proof.
  intro H; simpl Re.sub_from; rewrite H; reflexivity.
Qed.

Lemma space2_first (a b : ascii) :
  Re.is_space2 a b = true -> Re.is_space1 a = false.
Proof.
  unfold Re.is_space2, Re.is_space1; intro H.
  apply andb_prop in H; destruct H as [H _].
  apply Nat.eqb_eq in H; cbv zeta; rewrite H; reflexivity.
Qed.

Lemma space3_first (a b c : ascii) :
  Re.is_space3 a b c = true ->
  Re.is_space1 a = false /\ Re.is_space2 a b = false.
Proof.
  unfold Re.is_space3, Re.is_space2, Re.is_space1; cbv zeta; intro H.
  assert (E : Re.byte a = 225%nat \/ Re.byte a = 226%nat
              \/ Re.byte a = 227%nat).
  { repeat (apply orb_prop in H; destruct H as [H|H]);
      repeat (apply andb_prop in H; destruct H as [H _]);
      apply Nat.eqb_eq in H; auto. }
  destruct E as [E|[E|E]]; rewrite E; split; reflexivity.
Qed.

Lemma space_not_comma (a : ascii) : Re.is_space1 a = true -> a <> ","%char.
Proof. intros H ->; discriminate. Qed.

Lemma spaces_no_comma (w : string) : spaces w -> occurs "," w = false.
Proof.
  induction 1 as [|a w Ha _ IH|a b w Hab _ IH|a b c w Habc _ IH]; simpl;
    [reflexivity| | |]; rewrite IH.
  - destruct (Ascii.eqb_spec a ","); [subst; discriminate|reflexivity].
  - unfold Re.is_space2 in Hab.
    destruct (Ascii.eqb_spec a ","); [subst; discriminate|].
    destruct (Ascii.eqb_spec b ","); [subst|reflexivity].
    rewrite andb_false_r in Hab; discriminate.
  - unfold Re.is_space3 in Habc; cbv zeta in Habc.
    destruct (Ascii.eqb_spec a ","); [subst; discriminate|].
    destruct (Ascii.eqb_spec b ",");
      [subst; simpl in Habc; rewrite ?andb_false_r, ?andb_false_l in Habc;
       simpl in Habc; rewrite ?andb_false_r in Habc; discriminate|].
    destruct (Ascii.eqb_spec c ","); [subst|reflexivity].
    simpl in Habc; rewrite ?andb_false_r in Habc; discriminate.
Qed.

Lemma match_lit_same (c : ascii) (p : Re.regex) (s : string)
  (g : string * string) :
  Re.match_here (Re.Lit c :: p) (String c s) g = Re.match_here p s g.
Proof. simpl; rewrite Ascii.eqb_refl; reflexivity. Qed.

Lemma comma_before_cons (X c : ascii) (s : string) :
  comma_before X (String c s)
  = (is_some (Re.match_here [Re.Lit ","; Re.SpaceStar; Re.Lit X]
                (String c s) (String c s, String c s))
     || comma_before X s)%bool.
Proof. reflexivity. Qed.

Section Closer.

(** [X] is one of the two closing characters. *)
Variable X : ascii.
Hypothesis closer : X = "}"%char \/ X = "]"%char.

Let comma_re : Re.regex := [Re.Lit ","; Re.SpaceStar; Re.Lit X].

Lemma comma_head (x : ascii) (s : string) (g : string * string) :
  x <> ","%char -> Re.match_here comma_re (String x s) g = None.
Proof.
  intro H; simpl.
  destruct (Ascii.eqb_spec x ","); [contradiction|reflexivity].
Qed.

(** A comma, white space and the closer: the pattern matches, and leaves
    what follows the closer. *)
Lemma spaces_then_closer (w rest : string) (g : string * string) :
  spaces w ->
  Re.match_here [Re.SpaceStar; Re.Lit X] (w ++ String X rest) g
  = Some (fst g, snd g, rest).
Proof.
  assert (Stop : Re.match_here [Re.Lit X] (String X rest) g
                 = Some (fst g, snd g, rest))
    by (simpl; rewrite Ascii.eqb_refl; reflexivity).
  induction 1 as [|a w Ha _ IH|a b w Hab _ IH|a b c w Habc _ IH].
  - change ("" ++ String X rest)%string with (String X rest).
    rewrite match_space_eq; cbv beta iota zeta.
    rewrite Stop.
    destruct closer; subst X; destruct rest as [|b [|c s3]]; reflexivity.
  - change (String a w ++ String X rest)%string
      with (String a (w ++ String X rest)).
    rewrite match_space_eq; cbv beta iota zeta.
    rewrite Ha, IH; reflexivity.
  - change (String a (String b w) ++ String X rest)%string
      with (String a (String b (w ++ String X rest))).
    rewrite match_space_eq; cbv beta iota zeta.
    rewrite (space2_first _ _ Hab), Hab, IH; reflexivity.
  - change (String a (String b (String c w)) ++ String X rest)%string
      with (String a (String b (String c (w ++ String X rest)))).
    rewrite match_space_eq; cbv beta iota zeta.
    destruct (space3_first _ _ _ Habc) as [H1 H2].
    rewrite H1, H2, Habc, IH; reflexivity.
Qed.

(** A comma, white space and the other closer: no match. *)
Lemma spaces_then_other (c0 : ascii) (w t : string) (g : string * string) :
  c0 = "}"%char \/ c0 = "]"%char -> c0 <> X ->
  spaces w ->
  Re.match_here [Re.SpaceStar; Re.Lit X] (w ++ String c0 t) g = None.
Proof.
  intros Hc Hne.
  assert (Lit : forall a s, a <> X ->
                  Re.match_here [Re.Lit X] (String a s) g = None).
  { intros a s Ha; simpl.
    destruct (Ascii.eqb_spec a X); [contradiction|reflexivity]. }
  induction 1 as [|a w Ha _ IH|a b w Hab _ IH|a b c w Habc _ IH].
  - change ("" ++ String c0 t)%string with (String c0 t).
    rewrite match_space_eq; cbv beta iota zeta.
    rewrite (Lit c0 t Hne).
    destruct Hc; subst c0; destruct t as [|b [|c s3]]; reflexivity.
  - change (String a w ++ String c0 t)%string
      with (String a (w ++ String c0 t)).
    rewrite match_space_eq; cbv beta iota zeta.
    rewrite Ha, IH, Lit; [reflexivity|].
    intro E; destruct closer; subst; discriminate.
  - change (String a (String b w) ++ String c0 t)%string
      with (String a (String b (w ++ String c0 t))).
    rewrite match_space_eq; cbv beta iota zeta.
    rewrite (space2_first _ _ Hab), Hab, IH, Lit; [reflexivity|].
    intro E; destruct closer; subst; discriminate.
  - change (String a (String b (String c w)) ++ String c0 t)%string
      with (String a (String b (String c (w ++ String c0 t)))).
    rewrite match_space_eq; cbv beta iota zeta.
    destruct (space3_first _ _ _ Habc) as [H1 H2].
    rewrite H1, H2, Habc, IH, Lit; [reflexivity|].
    intro E; destruct closer; subst; discriminate.
Qed.

Lemma sub_no_comma (w u : string) :
  occurs "," w = false ->
  Re.sub_from comma_re (String X "") (w ++ u)%string 0
  = (w ++ Re.sub_from comma_re (String X "") u 0)%string.
Proof.
  induction w as [|a w IH]; simpl occurs; intro H; [reflexivity|].
  apply orb_false_elim in H; destruct H as [Ha Hw].
  change (String a w ++ u)%string with (String a (w ++ u)).
  rewrite sub_no_match.
  - rewrite (IH Hw); reflexivity.
  - apply comma_head; intros ->; discriminate.
Qed.

Lemma trailing_prefix (allowed : ascii -> bool) (w u : string) :
  occurs "," w = false ->
  forall s,
    with_trailing_commas allowed s (w ++ u)%string ->
    exists s', s = (w ++ s')%string /\ with_trailing_commas allowed s' u.
Proof.
  induction w as [|a w IH]; simpl occurs; intros H s D.
  - exists s; split; [reflexivity|exact D].
  - apply orb_false_elim in H; destruct H as [Ha Hw].
    change (String a w ++ u)%string with (String a (w ++ u)) in D.
    inversion D as [|c s0 t0 D0|c w0 s0 t0 _ _ _]; subst.
    + destruct (IH Hw _ D0) as (s' & -> & D').
      exists s'; split; [reflexivity|exact D'].
    + discriminate.
Qed.

(** One substitution takes away the commas put in before [X] and leaves
    the others. *)
Lemma sub_trailing (allowed : ascii -> bool) (s t : string) :
  (forall c, allowed c = true -> c = "}"%char \/ c = "]"%char) ->
  with_trailing_commas allowed s t ->
  comma_before X s = false ->
  with_trailing_commas (fun c => allowed c && negb (Ascii.eqb c X))
    s (Re.sub comma_re (String X "") t).
Proof.
  intros Hallowed; unfold Re.sub.
  induction 1 as [|c s t D IH|c w s t Hc Hw D IH]; intro Hs.
  - constructor.
  - rewrite comma_before_cons in Hs; apply orb_false_elim in Hs.
    destruct Hs as [Hhere Hs].
    rewrite sub_no_match; [constructor; exact (IH Hs)|].
    destruct (Ascii.eqb_spec c ",") as [->|Hne];
      [|apply comma_head; exact Hne].
    destruct (Re.match_here comma_re (String "," t)
                (String "," t, String "," t)) as [r|] eqn:E; [|reflexivity].
    exfalso.
    apply (match_here_app comma_re eq_refl []) in E.
    destruct E as (c1 & s1 & E & M & _).
    inversion M as [|? ? c2 M2| | | |]; subst.
    inversion M2 as [| | |? w0 c3 Hw0 M3| |]; subst.
    inversion M3 as [|? ? c4 M4| | | |]; subst.
    inversion M4; subst.
    simpl in E; inversion E as [Et]; clear E.
    rewrite append_assoc in Et; simpl in Et; subst t.
    destruct (trailing_prefix allowed w0 _ (spaces_no_comma _ Hw0) _ D)
      as (s' & -> & D').
    assert (Hx : X <> ","%char) by (destruct closer; subst; discriminate).
    inversion D' as [|? s0 ? _|? ? ? ? _ _ _]; subst; [|contradiction].
    rewrite match_lit_same, spaces_then_closer in Hhere by exact Hw0.
    discriminate.
  - rewrite comma_before_cons in Hs; apply orb_false_elim in Hs.
    destruct Hs as [_ Hs].
    destruct (Ascii.eqb_spec c X) as [->|Hne].
    + replace (String "," (w ++ String X t))
        with (String "," ((w ++ String X "") ++ t))
        by (rewrite append_assoc; reflexivity).
      erewrite sub_match.
      * constructor; exact (IH Hs).
      * unfold comma_re.
        rewrite match_lit_same, append_assoc.
        change (String X "" ++ t)%string with (String X t).
        rewrite spaces_then_closer by exact Hw; reflexivity.
    + rewrite sub_no_match.
      * rewrite sub_no_comma by (apply spaces_no_comma; exact Hw).
        rewrite sub_no_match.
        -- apply trailing_comma; [|exact Hw|exact (IH Hs)].
           rewrite Hc; simpl.
           destruct (Ascii.eqb_spec c X); [contradiction|reflexivity].
        -- apply comma_head.
           destruct (Hallowed c Hc); subst; discriminate.
      * unfold comma_re; rewrite match_lit_same.
        apply spaces_then_other; auto.
Qed.

End Closer.

Lemma trailing_none (allowed : ascii -> bool) (s t : string) :
  (forall c, allowed c = false) -> with_trailing_commas allowed s t -> s = t.
Proof.
  intro H; induction 1 as [|c s t _ IH|c w s t Hc _ _ _].
  - reflexivity.
  - rewrite IH; reflexivity.
  - rewrite H in Hc; discriminate.
Qed.

(** The third step undoes trailing commas: when [t] is [s] with commas, and
    white space after them, put in before closing braces and brackets, and
    [s] itself has no comma before a closing brace or bracket, stripping
    [t] gives [s] back. *)
Lemma strip_trailing_commas_inverse (s t : string) :
  with_trailing_commas (closer_in ["}"; "]"]%char) s t ->
  comma_before "}" s = false ->
  comma_before "]" s = false ->
  strip_trailing_commas t = s.
Proof.
  intros D H1 H2; unfold strip_trailing_commas.
  assert (C : forall c, closer_in ["}"; "]"]%char c = true ->
                c = "}"%char \/ c = "]"%char).
  { intros c; unfold closer_in; simpl.
    destruct (Ascii.eqb_spec c "}"); [auto|].
    destruct (Ascii.eqb_spec c "]"); [auto|discriminate]. }
  pose proof (sub_trailing "}" (or_introl eq_refl) _ s t C D H1) as D1.
  assert (C1 : forall c,
             (closer_in ["}"; "]"]%char c && negb (Ascii.eqb c "}"))%bool
             = true -> c = "}"%char \/ c = "]"%char).
  { intros c Hc; apply andb_prop in Hc; destruct Hc as [Hc _]; auto. }
  pose proof (sub_trailing "]" (or_intror eq_refl) _ s _ C1 D1 H2) as D2.
  symmetry; eapply trailing_none; [|exact D2].
  intro c; unfold closer_in; simpl.
  destruct (Ascii.eqb_spec c "}"); [reflexivity|].
  destruct (Ascii.eqb_spec c "]"); reflexivity.
Qed.

(** ** The fuel of the decoder *)

Lemma skip_ws_length (s : string) :
  (String.length (Json.skip_ws s) <= String.length s)%nat.
Proof.
  induction s as [|c s IH]; simpl; [lia|].
  destruct (Json.is_ws c); simpl; lia.
Qed.

Lemma starts_length (c : ascii) (s r : string) :
  Json.starts c s = Some r -> String.length s = S (String.length r).
Proof.
  destruct s as [|x s]; simpl; [discriminate|].
  destruct (Ascii.eqb x c); intro H; inversion H; reflexivity.
Qed.

Lemma strip_prefix_length (p : string) :
  forall s r,
    Json.strip_prefix p s = Some r ->
    String.length s = (String.length p + String.length r)%nat.
Proof.
  induction p as [|c p IH]; intros s r; simpl.
  - intro H; inversion H; reflexivity.
  - destruct s as [|x s]; [discriminate|].
    destruct (Ascii.eqb x c); [|discriminate].
    intro H; simpl; rewrite (IH _ _ H); reflexivity.
Qed.

Lemma hex4_length (s r : string) (n : N) :
  Json.hex4 s = Some (n, r) -> String.length s = (4 + String.length r)%nat.
Proof.
  destruct s as [|a [|b [|c [|d s]]]]; simpl; try discriminate.
  destruct (Json.hex_val a), (Json.hex_val b), (Json.hex_val c),
    (Json.hex_val d); intro H; inversion H; reflexivity.
Qed.

Lemma prepend_parsed (p : string) (r : Json.parsed string) (k rest : string) :
  Json.prepend p r = Json.Parsed k rest ->
  exists k', r = Json.Parsed k' rest.
Proof.
  destruct r; simpl; intro H; inversion H; eauto.
Qed.

Lemma prepend_fuel (p : string) (r : Json.parsed string) :
  Json.prepend p r = Json.OutOfFuel -> r = Json.OutOfFuel.
Proof.
  destruct r; simpl; intro H; inversion H; reflexivity.
Qed.

Lemma scan_string_length (fuel : nat) :
  forall s k rest,
    Json.scan_string fuel s = Json.Parsed k rest ->
    (String.length rest < String.length s)%nat.
Proof.
  induction fuel as [|f IH]; intros s k rest; [discriminate|].
  cbn [Json.scan_string].
  destruct s as [|c s1]; [discriminate|].
  destruct (Json.byte c =? 34)%N; [intro H; inversion H; simpl; lia|].
  destruct (Json.byte c =? 92)%N.
  - destruct s1 as [|e s2]; [discriminate|].
    destruct (Json.byte e =? 117)%N.
    + destruct (Json.hex4 s2) as [[hi s3]|] eqn:H4; [|discriminate].
      apply hex4_length in H4.
      destruct (if Json.is_high_surrogate hi
                then Json.strip_prefix "\u" s3 else None) as [s4|] eqn:P.
      * destruct (Json.is_high_surrogate hi); [|discriminate].
        apply strip_prefix_length in P.
        destruct (Json.hex4 s4) as [[lo s5]|] eqn:H5; [|discriminate].
        apply hex4_length in H5.
        destruct (Json.is_low_surrogate lo); intro H;
          apply prepend_parsed in H; destruct H as [k' H];
          apply IH in H; simpl in *; lia.
      * intro H; apply prepend_parsed in H; destruct H as [k' H].
        apply IH in H; simpl; lia.
    + destruct (Json.simple_escape e); [|discriminate].
      intro H; apply prepend_parsed in H; destruct H as [k' H].
      apply IH in H; simpl; lia.
  - destruct (Json.byte c <? 32)%N; [discriminate|].
    intro H; apply prepend_parsed in H; destruct H as [k' H].
    apply IH in H; simpl; lia.
Qed.

Lemma scan_string_fuel (fuel : nat) :
  forall s,
    (String.length s < fuel)%nat ->
    Json.scan_string fuel s <> Json.OutOfFuel.
Proof.
  induction fuel as [|f IH]; intros s Hf; [lia|].
  cbn [Json.scan_string].
  destruct s as [|c s1]; [discriminate|].
  simpl in Hf.
  destruct (Json.byte c =? 34)%N; [discriminate|].
  destruct (Json.byte c =? 92)%N.
  - destruct s1 as [|e s2]; [discriminate|].
    simpl in Hf.
    destruct (Json.byte e =? 117)%N.
    + destruct (Json.hex4 s2) as [[hi s3]|] eqn:H4; [|discriminate].
      apply hex4_length in H4.
      destruct (if Json.is_high_surrogate hi
                then Json.strip_prefix "\u" s3 else None) as [s4|] eqn:P.
      * destruct (Json.is_high_surrogate hi); [|discriminate].
        apply strip_prefix_length in P.
        destruct (Json.hex4 s4) as [[lo s5]|] eqn:H5; [|discriminate].
        apply hex4_length in H5.
        destruct (Json.is_low_surrogate lo); intro H;
          apply prepend_fuel in H; revert H; apply IH; simpl in *; lia.
      * intro H; apply prepend_fuel in H; revert H; apply IH; lia.
    + destruct (Json.simple_escape e); [|discriminate].
      intro H; apply prepend_fuel in H; revert H; apply IH; lia.
  - destruct (Json.byte c <? 32)%N; [discriminate|].
    intro H; apply prepend_fuel in H; revert H; apply IH; lia.
Qed.

Lemma take_digits_length (s : string) :
  String.length s
  = (String.length (fst (Json.take_digits s))
     + String.length (snd (Json.take_digits s)))%nat.
Proof.
  induction s as [|c s IH]; simpl; [reflexivity|].
  destruct (Json.is_digit c); simpl; [|reflexivity].
  destruct (Json.take_digits s); simpl in *; lia.
Qed.

Lemma take_digits_rest (s : string) :
  (String.length (snd (Json.take_digits s)) <= String.length s)%nat.
Proof. pose proof (take_digits_length s); lia. Qed.

Lemma int_part_length (s i r : string) :
  Json.int_part s = Some (i, r) -> (String.length r < String.length s)%nat.
Proof.
  unfold Json.int_part.
  destruct s as [|c s']; [discriminate|].
  destruct (Json.byte c =? 48)%N; [intro H; inversion H; simpl; lia|].
  destruct (Json.is_digit c) eqn:D; [|discriminate].
  cbn [Json.take_digits]; rewrite D.
  pose proof (take_digits_rest s') as L.
  destruct (Json.take_digits s'); intro H; inversion H; subst.
  simpl in *; lia.
Qed.

Lemma frac_part_length (s d r : string) :
  Json.frac_part s = Some (d, r) -> (String.length r <= String.length s)%nat.
Proof.
  unfold Json.frac_part.
  destruct s as [|p [|c s']]; try discriminate.
  destruct ((Json.byte p =? 46)%N && Json.is_digit c)%bool; [|discriminate].
  pose proof (take_digits_rest (String c s')) as L.
  destruct (Json.take_digits (String c s')); intro H; inversion H; subst.
  simpl in *; lia.
Qed.

Lemma exp_part_length (s r : string) (x : Z) :
  Json.exp_part s = Some (x, r) -> (String.length r <= String.length s)%nat.
Proof.
  unfold Json.exp_part.
  destruct s as [|e s']; [discriminate|].
  destruct ((Json.byte e =? 101) || (Json.byte e =? 69))%N; [|discriminate].
  assert (Hsg : forall neg s1,
             match s' with
             | String g s'' =>
                 if (Json.byte g =? 45)%N then (true, s'')
                 else if (Json.byte g =? 43)%N then (false, s'')
                 else (false, s')
             | EmptyString => (false, s')
             end = (neg, s1) ->
             (String.length s1 <= String.length s')%nat).
  { intros neg s1; destruct s' as [|g s'']; [intro H; inversion H; lia|].
    destruct (Json.byte g =? 45)%N; [intro H; inversion H; simpl; lia|].
    destruct (Json.byte g =? 43)%N; intro H; inversion H; simpl; lia. }
  destruct (match s' with
            | String g s'' =>
                if (Json.byte g =? 45)%N then (true, s'')
                else if (Json.byte g =? 43)%N then (false, s'')
                else (false, s')
            | EmptyString => (false, s')
            end) as [neg s1].
  specialize (Hsg neg s1 eq_refl).
  pose proof (take_digits_rest s1) as L.
  destruct (Json.take_digits s1) as [[|d0 d] r0]; intro H; inversion H; subst.
  simpl in *; lia.
Qed.

Lemma parse_number_length (s rest : string) (v : value) :
  Json.parse_number s = Json.Parsed v rest ->
  (String.length rest < String.length s)%nat.
Proof.
  unfold Json.parse_number.
  destruct (Json.starts "-" s) as [s0|] eqn:E0.
  - apply starts_length in E0.
    destruct (Json.int_part s0) as [[i s1]|] eqn:EI; [|discriminate].
    apply int_part_length in EI.
    destruct (Json.frac_part s1) as [[d s2]|] eqn:EF;
      [apply frac_part_length in EF|];
      (destruct (Json.exp_part _) as [[x s3]|] eqn:EE;
       [apply exp_part_length in EE|]);
      intro H; inversion H; subst; lia.
  - destruct (Json.int_part s) as [[i s1]|] eqn:EI; [|discriminate].
    apply int_part_length in EI.
    destruct (Json.frac_part s1) as [[d s2]|] eqn:EF;
      [apply frac_part_length in EF|];
      (destruct (Json.exp_part _) as [[x s3]|] eqn:EE;
       [apply exp_part_length in EE|]);
      intro H; inversion H; subst; lia.
Qed.

Lemma parse_constant_length (cs : list (string * value)) (s rest : string)
  (v : value) :
  Forall (fun c => fst c <> "") cs ->
  Json.parse_constant cs s = Some (v, rest) ->
  (String.length rest < String.length s)%nat.
Proof.
  induction 1 as [|[name v0] cs Hn _ IH]; simpl; [discriminate|].
  destruct (Json.strip_prefix name s) as [r|] eqn:E; [|exact IH].
  intro H; inversion H; subst.
  apply strip_prefix_length in E.
  destruct name; [contradiction|simpl in *; lia].
Qed.

Lemma pmap_parsed {A B : Type} (f : A -> B) (p : Json.parsed A) (b : B)
  (rest : string) :
  Json.pmap f p = Json.Parsed b rest -> exists a, p = Json.Parsed a rest.
Proof.
  destruct p; simpl; intro H; inversion H; eauto.
Qed.

(** Every function of the decoder consumes some of its text. *)
Lemma parse_lengths (fuel : nat) :
  (forall s v rest,
      Json.parse_value fuel s = Json.Parsed v rest ->
      (String.length rest < String.length s)%nat)
  /\ (forall s acc v rest,
        Json.parse_members fuel s acc = Json.Parsed v rest ->
        (String.length rest < String.length s)%nat)
  /\ (forall s acc v rest,
        Json.parse_elements fuel s acc = Json.Parsed v rest ->
        (String.length rest < String.length s)%nat).
Proof.
  induction fuel as [|f (IHv & IHm & IHe)];
    [repeat split; intros; discriminate|].
  repeat split.
  - intros s v rest; cbn [Json.parse_value].
    destruct s as [|c s']; [discriminate|].
    pose proof (skip_ws_length s') as W.
    destruct (Json.byte c =? 34)%N.
    { intro H; apply pmap_parsed in H; destruct H as [k H].
      apply scan_string_length in H; simpl; lia. }
    destruct (Json.byte c =? 123)%N.
    { destruct (Json.starts "}" (Json.skip_ws s')) as [r|] eqn:E.
      - apply starts_length in E; intro H; inversion H; subst; simpl; lia.
      - intro H; apply IHm in H; simpl; lia. }
    destruct (Json.byte c =? 91)%N.
    { destruct (Json.starts "]" (Json.skip_ws s')) as [r|] eqn:E.
      - apply starts_length in E; intro H; inversion H; subst; simpl; lia.
      - intro H; apply IHe in H; simpl; lia. }
    destruct (Json.parse_constant Json.constants (String c s'))
      as [[v0 r]|] eqn:E.
    + intro H; inversion H; subst.
      eapply parse_constant_length; [|exact E].
      repeat constructor; discriminate.
    + apply parse_number_length.
  - intros s acc v rest; cbn [Json.parse_members].
    destruct (Json.starts (Json.chr 34) s) as [s1|] eqn:E1; [|discriminate].
    apply starts_length in E1.
    destruct (Json.scan_string (S (String.length s1)) s1) as [k s2| |] eqn:E2;
      try discriminate.
    apply scan_string_length in E2.
    pose proof (skip_ws_length s2) as W2.
    destruct (Json.starts ":" (Json.skip_ws s2)) as [s3|] eqn:E3;
      [|discriminate].
    apply starts_length in E3.
    pose proof (skip_ws_length s3) as W3.
    destruct (Json.parse_value f (Json.skip_ws s3)) as [v0 s4| |] eqn:E4;
      try discriminate.
    apply IHv in E4.
    pose proof (skip_ws_length s4) as W4.
    destruct (Json.starts "}" (Json.skip_ws s4)) as [r|] eqn:E5.
    + apply starts_length in E5; intro H; inversion H; subst; lia.
    + destruct (Json.starts "," (Json.skip_ws s4)) as [s5|] eqn:E6;
        [|discriminate].
      apply starts_length in E6.
      pose proof (skip_ws_length s5) as W5.
      intro H; apply IHm in H; lia.
  - intros s acc v rest; cbn [Json.parse_elements].
    destruct (Json.parse_value f s) as [v0 s1| |] eqn:E1; try discriminate.
    apply IHv in E1.
    pose proof (skip_ws_length s1) as W1.
    destruct (Json.starts "]" (Json.skip_ws s1)) as [r|] eqn:E2.
    + apply starts_length in E2; intro H; inversion H; subst; lia.
    + destruct (Json.starts "," (Json.skip_ws s1)) as [s2|] eqn:E3;
        [|discriminate].
      apply starts_length in E3.
      pose proof (skip_ws_length s2) as W2.
      intro H; apply IHe in H; lia.
Qed.

Lemma pmap_fuel {A B : Type} (f : A -> B) (p : Json.parsed A) :
  Json.pmap f p = Json.OutOfFuel -> p = Json.OutOfFuel.
Proof.
  destruct p; simpl; intro H; inversion H; reflexivity.
Qed.

Lemma parse_number_fuel (s : string) : Json.parse_number s <> Json.OutOfFuel.
Proof.
  unfold Json.parse_number.
  destruct (match Json.starts "-" s with
            | Some r => (true, r)
            | None => (false, s)
            end) as [neg s0].
  destruct (Json.int_part s0) as [[i s1]|]; [|discriminate].
  destruct (match Json.frac_part s1 with
            | Some (d, r) => (Some d, r)
            | None => (None, s1)
            end) as [fr s2].
  destruct (match Json.exp_part s2 with
            | Some (x, r) => (Some x, r)
            | None => (None, s2)
            end) as [ex s3].
  destruct fr, ex; discriminate.
Qed.

(** A fuel above twice the length of the text is never used up. *)
Lemma parse_fuel (fuel : nat) :
  (forall s,
      (2 * String.length s < fuel)%nat ->
      Json.parse_value fuel s <> Json.OutOfFuel)
  /\ (forall s acc,
        (2 * String.length s < fuel)%nat ->
        Json.parse_members fuel s acc <> Json.OutOfFuel)
  /\ (forall s acc,
        (2 * String.length s + 1 < fuel)%nat ->
        Json.parse_elements fuel s acc <> Json.OutOfFuel).
Proof.
  induction fuel as [|f (IHv & IHm & IHe)]; [repeat split; intros; lia|].
  repeat split.
  - intros s Hf; cbn [Json.parse_value].
    destruct s as [|c s']; [discriminate|].
    pose proof (skip_ws_length s') as W; simpl in Hf.
    destruct (Json.byte c =? 34)%N.
    { intro H; apply pmap_fuel in H; revert H.
      apply scan_string_fuel; lia. }
    destruct (Json.byte c =? 123)%N.
    { destruct (Json.starts "}" (Json.skip_ws s')); [discriminate|].
      apply IHm; lia. }
    destruct (Json.byte c =? 91)%N.
    { destruct (Json.starts "]" (Json.skip_ws s')); [discriminate|].
      apply IHe; lia. }
    destruct (Json.parse_constant Json.constants (String c s')) as [[v0 r]|];
      [discriminate|apply parse_number_fuel].
  - intros s acc Hf; cbn [Json.parse_members].
    destruct (Json.starts (Json.chr 34) s) as [s1|] eqn:E1; [|discriminate].
    apply starts_length in E1.
    pose proof (scan_string_fuel (S (String.length s1)) s1) as F2.
    destruct (Json.scan_string (S (String.length s1)) s1) as [k s2| |] eqn:E2;
      [|discriminate|exfalso; apply F2; [lia|reflexivity]].
    apply scan_string_length in E2.
    pose proof (skip_ws_length s2) as W2.
    destruct (Json.starts ":" (Json.skip_ws s2)) as [s3|] eqn:E3;
      [|discriminate].
    apply starts_length in E3.
    pose proof (skip_ws_length s3) as W3.
    pose proof (IHv (Json.skip_ws s3)) as F4.
    destruct (Json.parse_value f (Json.skip_ws s3)) as [v0 s4| |] eqn:E4;
      [|discriminate|exfalso; apply F4; [lia|reflexivity]].
    apply (proj1 (parse_lengths f)) in E4.
    pose proof (skip_ws_length s4) as W4.
    destruct (Json.starts "}" (Json.skip_ws s4)) as [r|] eqn:E5;
      [discriminate|].
    destruct (Json.starts "," (Json.skip_ws s4)) as [s5|] eqn:E6;
      [|discriminate].
    apply starts_length in E6.
    pose proof (skip_ws_length s5) as W5.
    apply IHm; lia.
  - intros s acc Hf; cbn [Json.parse_elements].
    pose proof (IHv s) as F1.
    destruct (Json.parse_value f s) as [v0 s1| |] eqn:E1;
      [|discriminate|exfalso; apply F1; [lia|reflexivity]].
    apply (proj1 (parse_lengths f)) in E1.
    pose proof (skip_ws_length s1) as W1.
    destruct (Json.starts "]" (Json.skip_ws s1)) as [r|] eqn:E2;
      [discriminate|].
    destruct (Json.starts "," (Json.skip_ws s1)) as [s2|] eqn:E3;
      [|discriminate].
    apply starts_length in E3.
    pose proof (skip_ws_length s2) as W2.
    apply IHe; lia.
Qed.

(** [json.loads] never runs out of fuel: what it raises is a decoding
    error. *)
Lemma loads_fuel (s : string) :
  Json.parse_value (2 * String.length s + 2) (Json.skip_ws s)
  <> Json.OutOfFuel.
Proof.
  apply (proj1 (parse_fuel _)).
  pose proof (skip_ws_length s); lia.
Qed.

Lemma loads_result (s : string) :
  (exists v, Json.loads s = Ok v)
  \/ exists msg, Json.loads s = Raise (JSONDecodeError msg).
Proof.
  unfold Json.loads.
  pose proof (loads_fuel s) as F.
  destruct (Json.parse_value (2 * String.length s + 2) (Json.skip_ws s))
    as [v rest| |]; [|right; eauto|contradiction].
  destruct (Json.skip_ws rest); [left|right]; eauto.
Qed.

(** ** What [extract_json] returns *)

Lemma parse_members_dict (fuel : nat) :
  forall s acc v rest,
    Json.parse_members fuel s acc = Json.Parsed v rest ->
    exists d, v = VDict d.
Proof.
  induction fuel as [|f IH]; intros s acc v rest; [discriminate|].
  cbn [Json.parse_members].
  destruct (Json.starts (Json.chr 34) s) as [s1|]; [|discriminate].
  destruct (Json.scan_string (S (String.length s1)) s1) as [k s2| |];
    try discriminate.
  destruct (Json.starts ":" (Json.skip_ws s2)) as [s3|]; [|discriminate].
  destruct (Json.parse_value f (Json.skip_ws s3)) as [v0 s4| |];
    try discriminate.
  destruct (Json.starts "}" (Json.skip_ws s4)) as [r|].
  - intro H; inversion H; eauto.
  - destruct (Json.starts "," (Json.skip_ws s4)) as [s5|]; [|discriminate].
    apply IH.
Qed.

(** A text that opens with a brace is decoded to a dict or not at all. *)
Lemma loads_brace_dict (u : string) (v : value) :
  Json.loads (String "{" u) = Ok v -> exists d, v = VDict d.
Proof.
  unfold Json.loads.
  replace (2 * String.length (String "{" u) + 2)%nat
    with (S (2 * String.length (String "{" u) + 1)) by lia.
  set (f := (2 * String.length (String "{" u) + 1)%nat).
  change (Json.parse_value (S f) (Json.skip_ws (String "{" u)))
    with (match Json.starts "}" (Json.skip_ws u) with
          | Some rest => Json.Parsed (VDict []) rest
          | None => Json.parse_members f (Json.skip_ws u) []
          end).
  destruct (Json.starts "}" (Json.skip_ws u)) as [rest|].
  - destruct (Json.skip_ws rest); intro H; inversion H; eauto.
  - destruct (Json.parse_members f (Json.skip_ws u) []) as [v0 rest| |] eqn:E;
      try discriminate.
    destruct (parse_members_dict _ _ _ _ _ E) as [d ->].
    destruct (Json.skip_ws rest); intro H; inversion H; eauto.
Qed.

Lemma selected_span_brace (text span : string) :
  selected_span text = Some span -> exists u, span = String "{" u.
Proof.
  unfold selected_span.
  destruct (Re.search fenced_json_re text) as [m|] eqn:F.
  - destruct (search_fenced _ _ F) as (pre & w1 & mid & w2 & post & _ & _ & _ & G).
    intro H; inversion H; subst span; rewrite G; eexists; reflexivity.
  - pose proof (search_brace_span text) as B.
    destruct (Re.search brace_span_re text) as [m|]; [|discriminate].
    destruct B as (pre & mid & post & _ & _ & _ & G).
    intro H; inversion H; subst span; rewrite G; eexists; reflexivity.
Qed.

Lemma strip_keeps_brace (u : string) :
  exists u', strip_trailing_commas (String "{" u) = String "{" u'.
Proof.
  unfold strip_trailing_commas, Re.sub.
  rewrite (sub_no_match comma_brace_re)
    by (apply comma_head; discriminate).
  rewrite (sub_no_match comma_bracket_re)
    by (apply comma_head; discriminate).
  eexists; reflexivity.
Qed.

(** [extract_json] returns dicts only. *)
Lemma extract_json_dict (text : string) (v : value) :
  extract_json text = Ok v -> exists d, v = VDict d.
Proof.
  rewrite extract_json_steps.
  destruct (selected_span text) as [span|] eqn:S; [|discriminate].
  destruct (selected_span_brace _ _ S) as [u ->].
  destruct (strip_keeps_brace u) as [u' ->].
  apply loads_brace_dict.
Qed.

Lemma evaluation_json_dict (text : string) (v : value) :
  evaluation_json text = Ok v -> exists d, v = VDict d.
Proof.
  unfold evaluation_json.
  pose proof (selected_span_brace text) as S; unfold selected_span in S.
  destruct (Re.search fenced_json_re text) as [m|].
  - destruct (S _ eq_refl) as [u ->]; apply loads_brace_dict.
  - destruct (Re.search brace_span_re text) as [m|]; [|discriminate].
    destruct (S _ eq_refl) as [u ->]; apply loads_brace_dict.
Qed.

(** ** The Extractor's records *)

Lemma generate_candidate_info_dict (api_key : option string) (r : reply)
  (text job_description : string) (v : value) :
  generate_candidate_info api_key r text job_description = Ok v ->
  exists d, v = VDict d.
Proof.
  unfold generate_candidate_info.
  destruct (get_client api_key); simpl; [|discriminate].
  destruct r as [[t|]|e]; simpl; try solve [intro H; inversion H; eauto].
  destruct (extract_json t) as [v0|e] eqn:E; intro H; inversion H; subst.
  - exact (extract_json_dict _ _ E).
  - eauto.
Qed.

Lemma extracted_candidate_dict (api_key : option string)
  (argsort : list Q -> list nat) (file : resume) (job_description : string)
  (v : value) :
  extracted_candidate api_key argsort file job_description = Ok v ->
  exists d, v = VDict d.
Proof.
  unfold extracted_candidate.
  destruct (load_pdf file) as [docs|]; simpl; [|discriminate].
  destruct (similarity file docs) as [sim|]; simpl; [|discriminate].
  destruct (retrieve_chunks argsort docs sim 5) as [chunks|]; simpl;
    [|discriminate].
  apply generate_candidate_info_dict.
Qed.


(** The four ways through [parse_resume]. *)
Lemma parse_resume_cases (api_key : option string)
  (argsort : list Q -> list nat) (file : resume) (job_description : string) :
  (exists e,
      extracted_candidate api_key argsort file job_description = Raise e
      /\ parse_resume api_key argsort file job_description
         = VDict [("error", VStr (exn_str e))])
  \/ exists c,
       extracted_candidate api_key argsort file job_description
       = Ok (VDict c)
       /\ ((Dict.mem "error" c = true
            /\ parse_resume api_key argsort file job_description = VDict c)
           \/ (Dict.mem "error" c = false
               /\ ((exists n,
                       Py.len (Dict.get "skills" (VList []) c) = Ok n
                       /\ parse_resume api_key argsort file job_description
                          = VDict (Dict.set "preliminary_score"
                                     (VInt (Z.min (n * 10) 100)) c))
                   \/ exists e,
                        Py.len (Dict.get "skills" (VList []) c) = Raise e
                        /\ parse_resume api_key argsort file job_description
                           = VDict [("error", VStr (exn_str e))]))).
Proof.
  unfold parse_resume.
  destruct (extracted_candidate api_key argsort file job_description)
    as [v|e] eqn:E; simpl.
  - destruct (extracted_candidate_dict _ _ _ _ _ E) as [c ->].
    right; exists c; split; [reflexivity|]; simpl.
    destruct (Dict.mem "error" c); simpl; [left; auto|right].
    split; [reflexivity|].
    destruct (Py.len (Dict.get "skills" (VList []) c)) as [n|e]; simpl;
      [left|right]; eauto.
  - left; eauto.
Qed.

Lemma parsed_candidates_in (api_key : option string)
  (argsort : list Q -> list nat) (job_description_store : string)
  (files : list upload) :
  forall parsed d,
    parsed_candidates api_key argsort files job_description_store
    = Ok parsed ->
    In d parsed ->
    Dict.mem "error" d = false
    /\ exists file,
         In file files
         /\ parse_resume api_key argsort (content file)
              job_description_store
            = VDict d.
Proof.
  induction files as [|file files IH]; intros parsed d;
    cbn [parsed_candidates].
  - intro H; injection H as <-; contradiction.
  - assert (Later :
             parsed_candidates api_key argsort files job_description_store
             = Ok parsed ->
             In d parsed ->
             Dict.mem "error" d = false
             /\ exists file0,
                  In file0 (file :: files)
                  /\ parse_resume api_key argsort (content file0)
                       job_description_store = VDict d).
    { intros H Hin; destruct (IH _ _ H Hin) as (Hd & f & Hf & Hp).
      split; [exact Hd|exists f; split; [right; exact Hf|exact Hp]]. }
    assert (Handled :
             (_ <- handle_failure file ;;
              parsed_candidates api_key argsort files job_description_store)
             = Ok parsed ->
             In d parsed ->
             Dict.mem "error" d = false
             /\ exists file0,
                  In file0 (file :: files)
                  /\ parse_resume api_key argsort (content file0)
                       job_description_store = VDict d).
    { destruct (handle_failure file); cbn [bind];
        [exact Later|discriminate]. }
    destruct (negb (ends_with ".pdf" (filename file))); [exact Later|].
    destruct (write_file file); cbn [bind]; [|exact Handled].
    destruct (remove_file file); cbn [bind]; [|exact Handled].
    destruct (parse_resume api_key argsort (content file)
                job_description_store)
      as [|b|z|f|s|l|c] eqn:P; cbn [contains bind];
      try exact Handled; try exact Later.
    + destruct (match index 0 "error" s with
                | Some _ => true
                | None => false
                end); exact Later.
    + destruct (existsb _ l); exact Later.
    + destruct (Dict.mem "error" c) eqn:M; [exact Later|].
      destruct (parsed_candidates api_key argsort files
                  job_description_store) as [later|x] eqn:L; cbn [bind];
        [|discriminate].
      intro H; injection H as <-.
      intros [<-|Hin].
      * split; [exact M|exists file; split; [left; reflexivity|exact P]].
      * destruct (IH _ _ eq_refl Hin) as (Hd & f & Hf & Hp).
        split; [exact Hd|exists f; split; [right; exact Hf|exact Hp]].
Qed.

(** ** Completeness of the matcher *)

Lemma or_else_right {A : Type} (a b : option A) :
  b <> None -> Re.or_else a b <> None.
Proof. destruct a; simpl; [discriminate|auto]. Qed.

Lemma or_else_left {A : Type} (a b : option A) :
  a <> None -> Re.or_else a b <> None.
Proof. destruct a; simpl; [discriminate|contradiction]. Qed.

(** The matcher finds a match wherever the pattern has one: it gives up
    on no text of the pattern. *)
Lemma match_here_complete (p : Re.regex) (c : string) :
  matches p c -> forall rest g, Re.match_here p (c ++ rest)%string g <> None.
Proof.
  induction 1 as [|x p s _ IH|greedy p a s _ IH|p w s Hw _ IH|p s _ IH
                 |p s _ IH]; intros rest g.
  - discriminate.
  - simpl; rewrite Ascii.eqb_refl; apply IH.
  - rewrite append_assoc.
    destruct greedy.
    + induction a as [|x a IHa].
      * change ("" ++ s ++ rest)%string with (s ++ rest)%string.
        rewrite match_greedy_eq.
        destruct (s ++ rest)%string eqn:E; [rewrite <- E; apply IH|].
        apply or_else_right; rewrite <- E; apply IH.
      * change (String x a ++ s ++ rest)%string
          with (String x (a ++ s ++ rest)).
        rewrite match_greedy_eq; apply or_else_left, IHa.
    + induction a as [|x a IHa].
      * change ("" ++ s ++ rest)%string with (s ++ rest)%string.
        rewrite match_lazy_eq.
        specialize (IH rest g).
        destruct (Re.match_here p (s ++ rest) g); [discriminate|contradiction].
      * change (String x a ++ s ++ rest)%string
          with (String x (a ++ s ++ rest)).
        rewrite match_lazy_eq.
        destruct (Re.match_here p (String x (a ++ s ++ rest)) g);
          [discriminate|exact IHa].
  - rewrite append_assoc.
    induction Hw as [|a w Ha _ IHw|a b w Hab _ IHw|a b c w Habc _ IHw].
    + change ("" ++ s ++ rest)%string with (s ++ rest)%string.
      specialize (IH rest g).
      rewrite match_space_eq; cbv beta zeta.
      destruct (s ++ rest)%string as [|a [|b [|c s3]]];
        repeat match goal with
          | |- context [if ?b then _ else _] => destruct b
          end;
        try exact IH; apply or_else_right; exact IH.
    + change (String a w ++ s ++ rest)%string
        with (String a (w ++ s ++ rest)).
      rewrite match_space_eq; cbv beta iota zeta.
      rewrite Ha; apply or_else_left, IHw.
    + change (String a (String b w) ++ s ++ rest)%string
        with (String a (String b (w ++ s ++ rest))).
      rewrite match_space_eq; cbv beta iota zeta.
      rewrite (space2_first _ _ Hab), Hab; apply or_else_left, IHw.
    + change (String a (String b (String c w)) ++ s ++ rest)%string
        with (String a (String b (String c (w ++ s ++ rest)))).
      rewrite match_space_eq; cbv beta iota zeta.
      destruct (space3_first _ _ _ Habc) as [H1 H2].
      rewrite H1, H2, Habc; apply or_else_left, IHw.
  - rewrite match_open; apply IH.
  - rewrite match_close; apply IH.
Qed.

Lemma search_complete (p : Re.regex) (pre c rest : string) :
  matches p c -> Re.search p (pre ++ c ++ rest)%string <> None.
Proof.
  intro M; induction pre as [|x pre IH].
  - change ("" ++ c ++ rest)%string with (c ++ rest)%string.
    pose proof (match_here_complete p c M rest
                  ((c ++ rest)%string, (c ++ rest)%string)) as H.
    destruct (c ++ rest)%string eqn:E; simpl;
      destruct (Re.match_here p _ _) as [[[go gc] r]|];
      try discriminate; contradiction.
  - change (String x pre ++ c ++ rest)%string
      with (String x (pre ++ c ++ rest)).
    simpl.
    destruct (Re.match_here p (String x (pre ++ c ++ rest)) _)
      as [[[go gc] r]|]; [discriminate|exact IH].
Qed.

Lemma matches_lits_intro (l : string) (p : Re.regex) (c : string) :
  matches p c -> matches (Re.lits l ++ p) (l ++ c)%string.
Proof.
  intro M; induction l as [|x l IH]; simpl; [exact M|].
  constructor; exact IH.
Qed.

(** Where the text has a fenced block marked as JSON, the first step finds
    a match. *)
Lemma search_fenced_complete (pre w1 mid w2 post : string) :
  spaces w1 -> spaces w2 ->
  Re.search fenced_json_re
    (pre ++ "```json" ++ w1 ++ "{" ++ mid ++ "}" ++ w2 ++ "```" ++ post)%string
  <> None.
Proof.
  intros H1 H2.
  assert (M : matches fenced_json_re
                ("```json" ++ w1 ++ "{" ++ mid ++ "}" ++ w2 ++ "```")%string).
  { apply (matches_lits_intro "```json"
             [Re.SpaceStar; Re.GOpen; Re.Lit "{"; Re.AnyStar false;
              Re.Lit "}"; Re.GClose; Re.SpaceStar; Re.Lit "`"; Re.Lit "`";
              Re.Lit "`"]).
    apply matches_space; [exact H1|].
    apply matches_open.
    apply (matches_lit "{").
    apply (matches_any false _ mid).
    apply (matches_lit "}").
    apply matches_close.
    apply matches_space; [exact H2|].
    repeat constructor. }
  pose proof (search_complete fenced_json_re pre _ post M) as S.
  repeat (rewrite append_assoc in S; simpl in S).
  simpl; exact S.
Qed.

(** ** The recovery of JSON from a response *)

(** C6. [extract_json] takes its steps in order. A text with a fenced
    block marked as JSON (the marker, white space, a text held between
    braces, white space, the closing fence) has a match of the first
    pattern, and what is parsed then is the text between braces of the
    block matched; else the text from the first opening brace to the last
    closing brace is parsed, when there is such a span; in both cases after
    the commas standing before a closing brace or bracket, white space
    between them allowed, are taken away. So a span that is a JSON text
    with such trailing commas put in parses to what the JSON text parses
    to, and a text without span, such as one without opening brace, raises
    [ValueError]. *)
Theorem extract_json_recovery (text : string) :
  (forall m,
      Re.search fenced_json_re text = Some m ->
      (exists pre w1 mid w2 post,
          text = (pre ++ "```json" ++ w1 ++ "{" ++ mid ++ "}" ++ w2 ++ "```"
                  ++ post)%string
          /\ spaces w1 /\ spaces w2
          /\ Re.group1 m = ("{" ++ mid ++ "}")%string)
      /\ extract_json text
         = Json.loads (strip_trailing_commas (Re.group1 m)))
  /\ (Re.search fenced_json_re text = None ->
      forall m,
        Re.search brace_span_re text = Some m ->
        (exists pre mid post,
            text = (pre ++ "{" ++ mid ++ "}" ++ post)%string
            /\ occurs "{" pre = false /\ occurs "}" post = false
            /\ Re.group0 m = ("{" ++ mid ++ "}")%string)
        /\ extract_json text
           = Json.loads (strip_trailing_commas (Re.group0 m)))
  /\ (forall span s v,
        selected_span text = Some span ->
        with_trailing_commas (closer_in ["}"; "]"]%char) s span ->
        comma_before "}" s = false ->
        comma_before "]" s = false ->
        Json.loads s = Ok v ->
        extract_json text = Ok v)
  /\ (forall span v,
        selected_span text = Some span ->
        Json.loads (strip_trailing_commas span) = Ok v ->
        extract_json text = Ok v)
  /\ (Re.search fenced_json_re text = None ->
      Re.search brace_span_re text = None ->
      extract_json text = Raise (ValueError "JSON not found in AI response"))
  /\ (occurs "{" text = false ->
      extract_json text = Raise (ValueError "JSON not found in AI response"))
  /\ (forall pre w1 mid w2 post,
        spaces w1 -> spaces w2 ->
        text = (pre ++ "```json" ++ w1 ++ "{" ++ mid ++ "}" ++ w2 ++ "```"
                ++ post)%string ->
        exists m, Re.search fenced_json_re text = Some m)
  /\ (Re.search brace_span_re text = None ->
      forall pre post,
        text = (pre ++ String "{" post)%string -> occurs "}" post = false).
Proof.
  repeat match goal with |- _ /\ _ => split end.
  - intros m F; split; [exact (search_fenced _ _ F)|].
    rewrite extract_json_steps; unfold selected_span; rewrite F; reflexivity.
  - intros F m B; split.
    + pose proof (search_brace_span text) as S; rewrite B in S; exact S.
    + rewrite extract_json_steps; unfold selected_span; rewrite F, B.
      reflexivity.
  - intros span s v S D H1 H2 L.
    rewrite extract_json_steps, S.
    rewrite (strip_trailing_commas_inverse s span D H1 H2); exact L.
  - intros span v S L; rewrite extract_json_steps, S; exact L.
  - intros F B; rewrite extract_json_steps; unfold selected_span.
    rewrite F, B; reflexivity.
  - intro H; rewrite extract_json_steps, (no_brace_no_span _ H); reflexivity.
  - intros pre w1 mid w2 post H1 H2 ->.
    pose proof (search_fenced_complete pre w1 mid w2 post H1 H2) as S.
    destruct (Re.search fenced_json_re _) as [m|]; [eauto|contradiction].
  - intro B; pose proof (search_brace_span text) as S.
    rewrite B in S; exact S.
Qed.

Lemma extract_json_recovery_witness :
  extract_json (quoted "Here it is: {'name': 'Ann', 'skills': ['sql',], } Bye")
  = Ok (VDict [("name", VStr "Ann"); ("skills", VList [VStr "sql"])]).
Proof.
  apply (proj1 (proj2 (proj2 (extract_json_recovery
                                (quoted "Here it is: {'name': 'Ann', 'skills': ['sql',], } Bye"))))
           (quoted "{'name': 'Ann', 'skills': ['sql',], }")
           (quoted "{'name': 'Ann', 'skills': ['sql']}")).
  - vm_compute; reflexivity.
  - vm_compute.
    do 32 apply trailing_keep.
    apply (trailing_comma _ "]" "" _ _ eq_refl spaces_nil).
    apply (trailing_comma _ "}" " " "" "" eq_refl);
      [apply spaces_1; [reflexivity|exact spaces_nil]|exact (trailing_nil _)].
  - vm_compute; reflexivity.
  - vm_compute; reflexivity.
  - vm_compute; reflexivity.
Defined.

(** C5, as the code has it. [evaluate_candidate] has the first two steps
    and not the third: on the response below [extract_json] recovers the
    object, the recovery inside [evaluate_candidate] fails on the trailing
    comma, and the candidate gets the fallback. *)
Lemma evaluation_json_trailing_comma :
  extract_json (quoted "{'score': 90, 'summary': 'Strong',}")
  = Ok (VDict [("score", VInt 90); ("summary", VStr "Strong")])
  /\ evaluation_json (quoted "{'score': 90, 'summary': 'Strong',}")
     = Raise (JSONDecodeError "Expecting value")
  /\ evaluate_candidate (Some "key")
       (Ok (Some (quoted "{'score': 90, 'summary': 'Strong',}")))
       [("name", VStr "Ann")] "Python developer"
     = Ok (fallback [("name", VStr "Ann")]).
Proof.
  repeat split; vm_compute; reflexivity.
Qed.

(** C10. There is a response whose brace span is well-formed JSON with a
    string value holding a comma before a closing brace, on which
    [extract_json] succeeds with another string value than the JSON parse
    of the span gives: the substitution also takes the comma inside the
    string literal away. *)
Theorem extract_json_edits_strings :
  exists text span m,
    Re.search fenced_json_re text = None
    /\ Re.search brace_span_re text = Some m
    /\ Re.group0 m = span
    /\ Json.loads span
       = Ok (VDict [("note", VStr "set {a,}"); ("tags", VStr "[x, ]")])
    /\ extract_json text
       = Ok (VDict [("note", VStr "set {a}"); ("tags", VStr "[x]")])
    /\ VStr "set {a,}" <> VStr "set {a}".
Proof.
  exists (quoted "Result: {'note': 'set {a,}', 'tags': '[x, ]'} done").
  exists (quoted "{'note': 'set {a,}', 'tags': '[x, ]'}").
  eexists.
  split; [vm_compute; reflexivity|].
  split; [vm_compute; reflexivity|].
  split; [vm_compute; reflexivity|].
  split; [vm_compute; reflexivity|].
  split; [vm_compute; reflexivity|discriminate].
Qed.

(** ** The preliminary score and the error records *)



(** C9, as amended. [parse_resume] always returns a mapping, and the key
    "error" tells failure from success: a mapping without it has a
    preliminary score; a mapping with it is either the record of the one
    field "error" or the extraction JSON itself, returned as it came, so
    that no preliminary score is attached to it (it has one only when the
    extraction JSON came with one). An extraction JSON that has an "error"
    field is returned unchanged, and the caller keeps for ranking only the
    mappings without the key. *)
Theorem parse_resume_error_key (api_key : option string)
  (argsort : list Q -> list nat) (file : resume) (job_description : string) :
  (exists r,
      parse_resume api_key argsort file job_description = VDict r
      /\ (Dict.mem "error" r = false ->
          exists score,
            Dict.lookup "preliminary_score" r = Some (VInt score))
      /\ (Dict.mem "error" r = true ->
          (exists msg, r = [("error", VStr msg)])
          \/ extracted_candidate api_key argsort file job_description
             = Ok (VDict r)))
  /\ (forall c,
        extracted_candidate api_key argsort file job_description
        = Ok (VDict c) ->
        Dict.mem "error" c = true ->
        parse_resume api_key argsort file job_description = VDict c)
  /\ (forall files parsed d,
        parsed_candidates api_key argsort files job_description
        = Ok parsed ->
        In d parsed ->
        Dict.mem "error" d = false
        /\ exists kept,
             In kept files
             /\ parse_resume api_key argsort (content kept) job_description
                = VDict d).
Proof.
  pose proof (parse_resume_cases api_key argsort file job_description) as C.
  split; [|split].
  - destruct C as [(e & _ & P)|(c & E & [(M & P)|(M & [(n & L & P)|(e & _ & P)])])];
      rewrite P; eexists; (split; [reflexivity|]); split; intro H.
    + discriminate.
    + left; eauto.
    + rewrite M in H; discriminate.
    + right; exact E.
    + eexists; rewrite lookup_set; reflexivity.
    + rewrite mem_set, M in H; discriminate.
    + discriminate.
    + left; eauto.
  - intros c E M.
    destruct C as [(e & E' & _)|(c' & E' & C)]; rewrite E' in E;
      [discriminate|].
    inversion E; subst c'; clear E.
    destruct C as [(_ & P)|(M' & _)]; [exact P|].
    rewrite M in M'; discriminate.
  - intros files parsed d; apply parsed_candidates_in.
Qed.

Lemma parse_resume_error_key_witness :
  parse_resume (Some "key") Np.stable_argsort
    {| load_pdf := Ok ["scan"];
       similarity := fun _ => Ok [1 # 2]%Q;
       extraction := Ok (Some (quoted "{'error': 'no text in the scan'}")) |}
    "Python developer"
  = VDict [("error", VStr "no text in the scan")].
Proof.
  apply (proj1 (proj2 (parse_resume_error_key (Some "key") Np.stable_argsort
                         {| load_pdf := Ok ["scan"];
                            similarity := fun _ => Ok [1 # 2]%Q;
                            extraction :=
                              Ok (Some (quoted
                                          "{'error': 'no text in the scan'}"))
                         |} "Python developer"))
           [("error", VStr "no text in the scan")]).
  - vm_compute; reflexivity.
  - reflexivity.
Defined.

(** C9, as stated, fails: the extraction JSON below has an "error" field
    and a "preliminary_score" field, and the mapping returned for this
    failure has both. *)
Lemma parse_resume_error_with_score :
  parse_resume (Some "key") Np.stable_argsort
    {| load_pdf := Ok ["scan"];
       similarity := fun _ => Ok [1 # 2]%Q;
       extraction :=
         Ok (Some (quoted
                     "{'error': 'no text in the scan', 'preliminary_score': 0}"))
    |} "Python developer"
  = VDict [("error", VStr "no text in the scan");
           ("preliminary_score", VInt 0)].
Proof.
  vm_compute; reflexivity.
Qed.

(** A skills field without length makes the scoring raise, and the record
    that was extracted comes back as an error record. *)
Lemma parse_resume_skills_null :
  parse_resume (Some "key") Np.stable_argsort
    {| load_pdf := Ok ["Ann, engineer"];
       similarity := fun _ => Ok [1 # 2]%Q;
       extraction := Ok (Some (quoted "{'name': 'Ann', 'skills': null}")) |}
    "Python developer"
  = VDict [("error", VStr "object of type 'NoneType' has no len()")].
Proof.
  vm_compute; reflexivity.
Qed.

(** * Further properties *)

(** ** The recovery, once more *)

(** X1. Whatever [extract_json] returns is a JSON object: the span it
    parses opens with a brace, the substitutions leave that brace alone,
    and the decoder turns a text that opens with a brace into a dict or
    raises. *)
Theorem extract_json_returns_dict (text : string) (v : value) :
  extract_json text = Ok v -> exists d, v = VDict d.
Proof.
  exact (extract_json_dict text v).
Qed.

Lemma extract_json_returns_dict_witness :
  exists d, VDict [("name", VStr "Ann")] = VDict d.
Proof.
  apply (extract_json_returns_dict (quoted "Sure. {'name': 'Ann',}")).
  vm_compute; reflexivity.
Defined.

Lemma trailing_refl (allowed : ascii -> bool) (s : string) :
  with_trailing_commas allowed s s.
Proof.
  induction s; constructor; assumption.
Qed.

Lemma evaluation_json_steps (text : string) :
  evaluation_json text
  = match selected_span text with
    | Some span => Json.loads span
    | None => Raise (ValueError "JSON not found")
    end.
Proof.
  unfold evaluation_json, selected_span.
  destruct (Re.search fenced_json_re text); [reflexivity|].
  destruct (Re.search brace_span_re text); reflexivity.
Qed.

(** X2. The recovery inside [evaluate_candidate] and [extract_json] select
    the same span, and they return the same, value or exception, whenever
    no comma of the span stands before a closing brace or bracket; on a
    text without span both raise [ValueError], with different messages. *)
Theorem recoveries_agree (text : string) :
  (forall span,
      selected_span text = Some span ->
      comma_before "}" span = false ->
      comma_before "]" span = false ->
      evaluation_json text = extract_json text)
  /\ (selected_span text = None ->
      evaluation_json text = Raise (ValueError "JSON not found")
      /\ extract_json text
         = Raise (ValueError "JSON not found in AI response")).
Proof.
  split.
  - intros span S H1 H2.
    rewrite evaluation_json_steps, extract_json_steps, S.
    rewrite (strip_trailing_commas_inverse span span (trailing_refl _ span)
               H1 H2).
    reflexivity.
  - intro S; rewrite evaluation_json_steps, extract_json_steps, S; auto.
Qed.

Lemma recoveries_agree_witness :
  evaluation_json (quoted "Result: {'score': 70, 'gaps': ['sql']} end")
  = extract_json (quoted "Result: {'score': 70, 'gaps': ['sql']} end").
Proof.
  apply (proj1 (recoveries_agree
                  (quoted "Result: {'score': 70, 'gaps': ['sql']} end"))
           (quoted "{'score': 70, 'gaps': ['sql']}"));
    vm_compute; reflexivity.
Defined.

(** ** The Retriever on other values of [top_k] *)

(** The chunks at the indices an index sort puts last, read backwards. *)
Lemma select_last_indices {A : Type} (argsort : list Q -> list nat)
  (docs : list A) (sim : list Q) (m : nat) :
  sorts_indices argsort ->
  List.length sim = List.length docs ->
  exists chunks,
    select docs (rev (skipn m (argsort sim))) = Ok chunks
    /\ Forall2 (fun i chunk => nth_error docs i = Some chunk)
         (rev (skipn m (argsort sim))) chunks
    /\ List.length chunks = (List.length docs - m)%nat
    /\ StronglySorted
         (fun i j => (Np.at_index sim j <= Np.at_index sim i)%Q)
         (rev (skipn m (argsort sim)))
    /\ (forall i j,
          In i (rev (skipn m (argsort sim))) ->
          (j < List.length docs)%nat ->
          ~ In j (rev (skipn m (argsort sim))) ->
          (Np.at_index sim j <= Np.at_index sim i)%Q).
Proof.
  intros Hsort Hlen.
  destruct (Hsort sim) as [P S].
  assert (Hl : List.length (argsort sim) = List.length docs)
    by (rewrite (Permutation_length P), length_seq; exact Hlen).
  pose proof (firstn_skipn m (argsort sim)) as Hsplit.
  set (tail := skipn m (argsort sim)) in *.
  assert (Hin : forall i, In i tail -> In i (argsort sim))
    by (intros i Hi; rewrite <- Hsplit; apply in_or_app; right; exact Hi).
  assert (Hbound : Forall (fun i => (i < List.length docs)%nat) (rev tail)).
  { apply Forall_forall; intros i Hi.
    apply in_rev, Hin in Hi.
    apply (Permutation_in _ P), in_seq in Hi; lia. }
  destruct (select_ok docs (rev tail) Hbound) as (chunks & Hs & Hf).
  rewrite <- Hsplit in S.
  destruct (StronglySorted_app_inv _ _ _ S) as [Stail Scross].
  exists chunks.
  split; [exact Hs|].
  split; [exact Hf|].
  split.
  { rewrite <- (Forall2_length Hf), length_rev.
    unfold tail; rewrite length_skipn; lia. }
  split; [exact (StronglySorted_rev _ _ Stail)|].
  intros i j Hi Hj Hnot.
  apply in_rev in Hi.
  assert (Hja : In j (argsort sim))
    by (apply (Permutation_in _ (Permutation_sym P)), in_seq; lia).
  rewrite <- Hsplit in Hja.
  apply in_app_or in Hja; destruct Hja as [Hja|Hja].
  - exact (Scross j i Hja Hi).
  - exfalso; apply Hnot, in_rev; rewrite rev_involutive; exact Hja.
Qed.

(** X3. For [top_k <= 0] the slice [[-top_k:]] starts at index [-top_k]:
    [retrieve_chunks] leaves out the [-top_k] least similar chunks and
    returns the others by non-increasing similarity, which are all the
    chunks for [top_k = 0] and none once [-top_k] reaches the number of
    chunks. *)
Theorem retrieve_chunks_non_positive {A : Type}
  (argsort : list Q -> list nat) (docs : list A) (sim : list Q) (top_k : Z) :
  sorts_indices argsort ->
  List.length sim = List.length docs ->
  top_k <= 0 ->
  exists top_idx chunks,
    retrieve_chunks argsort docs sim top_k = Ok chunks
    /\ Forall2 (fun i chunk => nth_error docs i = Some chunk) top_idx chunks
    /\ List.length chunks
       = Z.to_nat (Z.max (Z.of_nat (List.length docs) + top_k) 0)
    /\ (top_k = 0 -> List.length chunks = List.length docs)
    /\ (Z.of_nat (List.length docs) <= - top_k -> chunks = [])
    /\ StronglySorted
         (fun i j => (Np.at_index sim j <= Np.at_index sim i)%Q) top_idx
    /\ (forall i j,
          In i top_idx -> (j < List.length docs)%nat -> ~ In j top_idx ->
          (Np.at_index sim j <= Np.at_index sim i)%Q).
Proof.
  intros Hsort Hlen Hk.
  assert (Hl : List.length (argsort sim) = List.length docs).
  { destruct (Hsort sim) as [P _].
    rewrite (Permutation_length P), length_seq; exact Hlen. }
  unfold retrieve_chunks, Np.slice_from.
  destruct (- top_k <? 0) eqn:E; [apply Z.ltb_lt in E; lia|].
  set (m := Z.to_nat (Z.min (- top_k) (Z.of_nat (List.length (argsort sim))))).
  destruct (select_last_indices argsort docs sim m Hsort Hlen)
    as (chunks & Hs & Hf & Hn & Hsorted & Htop).
  exists (rev (skipn m (argsort sim))), chunks.
  assert (Hc : List.length chunks
               = Z.to_nat (Z.max (Z.of_nat (List.length docs) + top_k) 0))
    by (rewrite Hn; unfold m; lia).
  split; [exact Hs|].
  split; [exact Hf|].
  split; [exact Hc|].
  split; [intro H0; rewrite Hc; lia|].
  split.
  { intro Hall; destruct chunks as [|c cs]; [reflexivity|].
    simpl in Hc; lia. }
  split; assumption.
Qed.

Lemma retrieve_chunks_non_positive_witness :
  exists chunks,
    retrieve_chunks Np.stable_argsort ["intro"; "skills"; "hobbies"]
      [1 # 4; 3 # 4; 1 # 2]%Q (-1)
    = Ok chunks
    /\ List.length chunks = 2%nat.
Proof.
  destruct (retrieve_chunks_non_positive Np.stable_argsort
              ["intro"; "skills"; "hobbies"] [1 # 4; 3 # 4; 1 # 2]%Q (-1))
    as (top_idx & chunks & H & _ & L & _).
  - exact stable_argsort_sorts.
  - reflexivity.
  - lia.
  - exists chunks; split; [exact H|exact L].
Defined.

(** For [top_k = -5] and three chunks nothing is returned. *)
Lemma retrieve_chunks_none :
  retrieve_chunks Np.stable_argsort ["intro"; "skills"; "hobbies"]
    [1 # 4; 3 # 4; 1 # 2]%Q (-5)
  = Ok [].
Proof.
  vm_compute; reflexivity.
Qed.

(** ** The Evaluator and the Ranker together *)

(** X4. [evaluate_candidate] raises in three cases only, each with the
    exception of its step: the client cannot be made; the prompt cannot be
    built; or the body of the [try] fails and the handler cannot print the
    candidate's name, which gives [UnicodeEncodeError]. A failure of the
    service reaches the caller in the last case only. *)
Theorem evaluate_candidate_exceptions
  (api_key : option string) (r : reply) (candidate : dict)
  (job_description : string) (e : exn) :
  evaluate_candidate api_key r candidate job_description = Raise e
  <-> get_client api_key = Raise e
      \/ ((exists client, get_client api_key = Ok client)
          /\ candidate_summary candidate = Raise e)
      \/ ((exists client, get_client api_key = Ok client)
          /\ candidate_summary candidate = Ok tt
          /\ (exists x, try_evaluate r candidate = Raise x)
          /\ printable (Dict.get "name" (VStr "Unknown") candidate) = false
          /\ e = unicode_encode_error).
Proof.
  unfold evaluate_candidate.
  destruct (get_client api_key) as [client|e0]; simpl.
  - destruct (candidate_summary candidate) as [[]|e1]; simpl.
    + destruct (try_evaluate r candidate) as [enhanced|x].
      * split; [discriminate|].
        intros [H|[[_ H]|(_ & _ & [x H] & _)]]; discriminate.
      * unfold print; simpl.
        destruct (printable (Dict.get "name" (VStr "Unknown") candidate));
          simpl.
        -- split; [discriminate|].
           intros [H|[[_ H]|(_ & _ & _ & H & _)]]; discriminate.
        -- split.
           ++ intro H; injection H as <-.
              right; right; repeat split; eauto.
           ++ intros [H|[[_ H]|(_ & _ & _ & _ & ->)]];
                [discriminate|discriminate|reflexivity].
    + split.
      * intro H; injection H as ->; right; left; split; [eauto|reflexivity].
      * intros [H|[[_ H]|(_ & H & _)]];
          [discriminate|injection H as ->; reflexivity|discriminate].
  - split.
    + intro H; injection H as ->; left; reflexivity.
    + intros [H|[[[client H] _]|([client H] & _)]];
        [injection H as ->; reflexivity|discriminate|discriminate].
Qed.

Lemma evaluate_candidate_exceptions_witness :
  evaluate_candidate (Some "key") (Ok (Some "no JSON here"))
    [("name", VStr lone_surrogate); ("skills", VList [VStr "SQL"])]
    "Python developer"
  = Raise unicode_encode_error.
Proof.
  apply (proj2 (evaluate_candidate_exceptions (Some "key")
                  (Ok (Some "no JSON here"))
                  [("name", VStr lone_surrogate);
                   ("skills", VList [VStr "SQL"])]
                  "Python developer" unicode_encode_error)).
  right; right.
  split; [exists "key"; reflexivity|].
  split; [reflexivity|].
  split; [eexists; vm_compute; reflexivity|].
  split; [vm_compute; reflexivity|reflexivity].
Defined.

Lemma gather_all_fallback (api_key : option string) (service : nat -> reply)
  (job_description client : string) (candidates : list dict) :
  get_client api_key = Ok client ->
  Forall (fun candidate =>
            candidate_summary candidate = Ok tt
            /\ printable (Dict.get "name" (VStr "Unknown") candidate) = true)
    candidates ->
  (forall i, evaluation_fails (service i)) ->
  forall i,
    gather_evaluations api_key service i candidates job_description
    = Ok (map fallback candidates).
Proof.
  intros Hclient Hsummary Hfails.
  induction Hsummary as [|c cs [Hc Hn] _ IH]; intro i; simpl; [reflexivity|].
  unfold evaluate_candidate; rewrite Hclient, Hc; simpl.
  destruct (try_evaluate_fails (service i) c (Hfails i)) as [e He].
  rewrite He, (print_one _ Hn); simpl; rewrite (IH (S i)); reflexivity.
Qed.

(** X5. When the API key is set, the prompt of every candidate can be
    built and every name can be printed, and the service fails for every
    candidate, the ranking is the ranking by preliminary score: for
    candidates that carry an integer preliminary score, as [parse_resume]
    gives them, [rank_candidates] returns their fallback records by
    descending preliminary score, those of one score in input order. *)
Theorem rank_candidates_by_preliminary_score
  (api_key : option string) (service : nat -> reply)
  (candidates : list dict) (job_description client : string) :
  get_client api_key = Ok client ->
  Forall (fun candidate =>
            candidate_summary candidate = Ok tt
            /\ printable (Dict.get "name" (VStr "Unknown") candidate) = true)
    candidates ->
  (forall i, evaluation_fails (service i)) ->
  Forall (fun candidate =>
            exists z, Dict.lookup "preliminary_score" candidate
                      = Some (VInt z)) candidates ->
  exists ranked,
    rank_candidates api_key service candidates job_description = Ok ranked
    /\ Permutation (map fallback candidates) ranked
    /\ StronglySorted (fun a b => score_of b <= score_of a) ranked
    /\ (forall s,
          with_score s ranked = with_score s (map fallback candidates))
    /\ (forall candidate,
          In candidate candidates ->
          Dict.lookup "preliminary_score" candidate
          = Some (VInt (score_of (fallback candidate)))).
Proof.
  intros Hclient Hsummary Hfails Hscore.
  pose proof (gather_all_fallback api_key service job_description client
                candidates Hclient Hsummary Hfails 0%nat) as G.
  assert (Hfb : forall candidate z,
             Dict.lookup "preliminary_score" candidate = Some (VInt z) ->
             score_key (fallback candidate) = VInt z).
  { intros candidate z Hz; unfold score_key, Dict.get.
    destruct (fallback_fields candidate) as [F _].
    rewrite F; unfold Dict.get; rewrite Hz; reflexivity. }
  assert (Hk : Forall (fun x => score_key x = VInt (score_of x))
                 (map fallback candidates)).
  { apply Forall_map; eapply Forall_impl; [|exact Hscore].
    intros candidate [z Hz]; simpl.
    unfold score_of; rewrite (Hfb _ _ Hz); reflexivity. }
  destruct (sorted_reverse_int score_key score_of _ Hk)
    as (ranked & Hs & Hdesc & Hstable).
  exists ranked.
  split.
  { unfold rank_candidates; destruct candidates as [|c cs].
    - vm_compute in Hs; exact Hs.
    - rewrite G; exact Hs. }
  split; [eapply sorted_reverse_perm; exact Hs|].
  split; [exact Hdesc|].
  split; [exact Hstable|].
  intros candidate Hin.
  rewrite Forall_forall in Hscore.
  destruct (Hscore _ Hin) as [z Hz].
  unfold score_of; rewrite (Hfb _ _ Hz); exact Hz.
Qed.

Lemma rank_candidates_by_preliminary_score_witness :
  exists ranked,
    rank_candidates (Some "key") (fun _ => Raise (ExternalError "timeout"))
      [[("name", VStr "A"); ("preliminary_score", VInt 20)];
       [("name", VStr "B"); ("preliminary_score", VInt 70)]]
      "Python developer" = Ok ranked
    /\ Permutation
         (map fallback
            [[("name", VStr "A"); ("preliminary_score", VInt 20)];
             [("name", VStr "B"); ("preliminary_score", VInt 70)]]) ranked.
Proof.
  destruct (rank_candidates_by_preliminary_score (Some "key")
              (fun _ => Raise (ExternalError "timeout"))
              [[("name", VStr "A"); ("preliminary_score", VInt 20)];
               [("name", VStr "B"); ("preliminary_score", VInt 70)]]
              "Python developer" "key")
    as (ranked & R & P & _).
  - reflexivity.
  - repeat constructor.
  - intro i; exact I.
  - repeat constructor; eexists; reflexivity.
  - exists ranked; split; assumption.
Defined.

(** ** The store of candidates *)

Lemma with_ids_nth (ranked : list dict) :
  forall idx i c,
    nth_error (with_ids idx ranked) i = Some c ->
    exists r,
      nth_error ranked i = Some r
      /\ c = Dict.set "id" (VInt (idx + Z.of_nat i)) r.
Proof.
  induction ranked as [|r0 ranked IH]; intros idx i c; simpl.
  - destruct i; discriminate.
  - destruct i as [|i]; simpl.
    + intro H; inversion H; exists r0; split; [reflexivity|].
      rewrite Z.add_0_r; reflexivity.
    + intro H; destruct (IH _ _ _ H) as (r & Hr & ->).
      exists r; split; [exact Hr|].
      replace (idx + 1 + Z.of_nat i) with (idx + Z.pos (Pos.of_succ_nat i))
        by lia.
      reflexivity.
Qed.

Lemma with_ids_length (ranked : list dict) :
  forall idx, List.length (with_ids idx ranked) = List.length ranked.
Proof.
  induction ranked as [|r ranked IH]; intro idx; simpl;
    [reflexivity|rewrite IH; reflexivity].
Qed.

Lemma parsed_candidate_scored (api_key : option string)
  (argsort : list Q -> list nat) (job_description_store : string)
  (files : list upload) (parsed : list dict) (d : dict) :
  parsed_candidates api_key argsort files job_description_store = Ok parsed ->
  In d parsed ->
  Dict.mem "preliminary_score" d = true.
Proof.
  intros Hparsed H.
  destruct (parsed_candidates_in _ _ _ _ _ _ Hparsed H)
    as (Herr & file & _ & Hp).
  destruct (parse_resume_cases api_key argsort (content file)
              job_description_store)
    as [(e & _ & P)|(c & _ & [(M & P)|(M & [(n & _ & P)|(e & _ & P)])])];
    rewrite P in Hp; inversion Hp; subst d.
  - discriminate.
  - congruence.
  - rewrite mem_set; reflexivity.
  - discriminate.
Qed.

Lemma evaluate_candidate_keys (api_key : option string) (r : reply)
  (candidate : dict) (job_description : string) (e : dict) (k : string) :
  evaluate_candidate api_key r candidate job_description = Ok e ->
  Dict.mem k candidate = true -> Dict.mem k e = true.
Proof.
  intros H Hk.
  destruct (evaluate_candidate_ok _ _ _ _ _ H) as [->|(t & ev & _ & _ & ->)];
    apply mem_update, Hk.
Qed.

(** What [upload_resumes] stores: at each position a candidate with the
    position as id, made from a parsed resume. *)
Lemma upload_resumes_store (job_description_store : string)
  (api_key : option string) (argsort : list Q -> list nat)
  (service : nat -> reply) (files : list upload) (store : list dict) :
  upload_resumes job_description_store api_key argsort service files
  = Ok store ->
  store <> []
  /\ forall i c,
       nth_error store i = Some c ->
       Dict.lookup "id" c = Some (VInt (Z.of_nat i))
       /\ Dict.mem "preliminary_score" c = true.
Proof.
  unfold upload_resumes.
  destruct job_description_store as [|a jd]; [discriminate|].
  set (store_jd := String a jd).
  destruct (parsed_candidates api_key argsort files store_jd)
    as [[|p ps]|x] eqn:Hp; cbn [bind]; try discriminate.
  destruct (rank_candidates api_key service (p :: ps) store_jd)
    as [ranked|e] eqn:R; simpl; [|discriminate].
  intro H; inversion H; subst store; clear H.
  destruct (rank_candidates_ok _ _ _ _ _ R) as (evaluated & G & P).
  apply gather_evaluations_ok in G.
  split.
  - intro E.
    pose proof (with_ids_length ranked 0) as L.
    rewrite E in L; simpl in L.
    pose proof (Forall2_length G) as L1.
    pose proof (Permutation_length P) as L2.
    simpl in L1; lia.
  - intros i c Hc.
    destruct (with_ids_nth _ _ _ _ Hc) as (r & Hr & ->).
    split; [rewrite lookup_set; reflexivity|].
    rewrite mem_set; simpl.
    apply nth_error_In in Hr.
    apply (Permutation_in _ (Permutation_sym P)) in Hr.
    destruct (Forall2_In_right _ _ _ _ G Hr) as (candidate & Hin & n & Hn).
    apply (evaluate_candidate_keys _ _ _ _ _ _ Hn).
    exact (parsed_candidate_scored _ _ _ _ _ _ Hp Hin).
Qed.

Lemma handle_numbered (st : server) (req : request) :
  numbered (candidates_store st) -> numbered (candidates_store (handle st req)).
Proof.
  intro H; destruct req as [jd|api_key argsort service files]; simpl;
    [exact H|].
  unfold upload_resumes_on.
  destruct (upload_resumes (job_description_store st) api_key argsort service
              files) as [store|e] eqn:U; simpl; [|exact H].
  exact (proj2 (upload_resumes_store _ _ _ _ _ _ U)).
Qed.

Lemma run_numbered (requests : list request) :
  forall st,
    numbered (candidates_store st) ->
    numbered (candidates_store (fold_left handle requests st)).
Proof.
  induction requests as [|req requests IH]; intros st H; simpl;
    [exact H|apply IH, handle_numbered, H].
Qed.

Lemma store_numbered (requests : list request) :
  numbered (candidates_store (run requests)).
Proof.
  apply (run_numbered requests initial).
  intros j d H; destruct j; discriminate.
Qed.

(** X6. Whatever requests the server has handled, the candidate at
    position [i] of its store has the id [i] and still carries the
    [preliminary_score] key that [parse_resume] gave it. *)
Theorem store_ids_are_positions (requests : list request) (i : nat)
  (c : dict) :
  nth_error (candidates_store (run requests)) i = Some c ->
  Dict.lookup "id" c = Some (VInt (Z.of_nat i))
  /\ Dict.mem "preliminary_score" c = true.
Proof. exact (store_numbered requests i c). Qed.

Lemma store_ids_are_positions_witness :
  Dict.lookup "id"
    (Dict.set "id" (VInt 1)
       (fallback [("name", VStr "Ann"); ("skills", VList [VStr "SQL"]);
                  ("preliminary_score", VInt 10)]))
  = Some (VInt 1)
  /\ Dict.mem "preliminary_score"
       (Dict.set "id" (VInt 1)
          (fallback [("name", VStr "Ann"); ("skills", VList [VStr "SQL"]);
                     ("preliminary_score", VInt 10)]))
     = true.
Proof.
  apply (store_ids_are_positions example_requests 1); vm_compute; reflexivity.
Defined.

(** X7. An upload that succeeds never leaves the store empty, and the
    count that [health_check] reports afterwards is the number of resumes
    that were parsed without error. *)
Theorem upload_resumes_count (st : server) (api_key : option string)
  (argsort : list Q -> list nat) (service : nat -> reply)
  (files : list upload) (store : list dict) (st' : server) :
  upload_resumes_on st api_key argsort service files = (Ok store, st') ->
  candidates_store st' = store
  /\ job_description_store st' = job_description_store st
  /\ 0 < health_check st'
  /\ exists parsed,
       parsed_candidates api_key argsort files (job_description_store st)
       = Ok parsed
       /\ health_check st' = Z.of_nat (List.length parsed).
Proof.
  unfold upload_resumes_on.
  destruct (upload_resumes (job_description_store st) api_key argsort service
              files) as [s|e] eqn:U; [|discriminate].
  intro H; inversion H; subst s st'; clear H; simpl.
  split; [reflexivity|].
  split; [reflexivity|].
  destruct (upload_resumes_store _ _ _ _ _ _ U) as [Hne _].
  unfold health_check; simpl.
  split; [destruct store; [congruence|simpl; lia]|].
  unfold upload_resumes in U.
  destruct (job_description_store st) as [|a jd]; [discriminate|].
  destruct (parsed_candidates api_key argsort files (String a jd))
    as [[|p ps]|x]; cbn [bind] in U; try discriminate.
  destruct (rank_candidates api_key service (p :: ps) (String a jd))
    as [ranked|e] eqn:R; simpl in U; [|discriminate].
  inversion U; subst store.
  exists (p :: ps); split; [reflexivity|].
  rewrite with_ids_length.
  destruct (rank_candidates_ok _ _ _ _ _ R) as (evaluated & G & P).
  apply gather_evaluations_ok, Forall2_length in G.
  rewrite <- (Permutation_length P), <- G; reflexivity.
Qed.

Lemma upload_resumes_count_witness :
  0 < health_check (run example_requests).
Proof.
  refine (proj1 (proj2 (proj2
            (upload_resumes_count (run [PostJobDescription "Python developer"])
               (Some "key") Np.stable_argsort
               (fun _ => Raise (ExternalError "timeout"))
               [example_file "ann.pdf"
                  (quoted "{'name': 'Ann', 'skills': ['SQL']}");
                example_file "bob.pdf"
                  (quoted "{'name': 'Bob', 'skills': ['SQL', 'Go']}")]
               (candidates_store (run example_requests))
               (run example_requests) _)))).
  vm_compute; reflexivity.
Defined.

(** ** The selection by index *)

Lemma list_item_in_range {A : Type} (l : list A) (idx : Z) :
  in_range l idx ->
  exists x, list_item l idx = Ok x /\ item_at l idx = Some x.
Proof.
  unfold in_range, list_item, item_at.
  set (n := Z.of_nat (List.length l)); intro H.
  assert (Hpos : (if idx <? 0 then idx + n else idx) = idx mod n).
  { destruct (idx <? 0) eqn:E.
    - apply Z.ltb_lt in E.
      rewrite <- (Z.mod_small (idx + n) n) by lia.
      rewrite <- (Z.mod_add idx 1 n) by lia.
      f_equal; lia.
    - apply Z.ltb_ge in E; rewrite Z.mod_small by lia; reflexivity. }
  rewrite Hpos.
  assert (Hm : 0 <= idx mod n < n) by (apply Z.mod_pos_bound; lia).
  replace ((0 <=? idx mod n) && (idx mod n <? n))%bool with true
    by (symmetry; apply andb_true_iff; split;
        [apply Z.leb_le|apply Z.ltb_lt]; lia).
  destruct (nth_error l (Z.to_nat (idx mod n))) as [x|] eqn:E;
    [exists x; split; reflexivity|].
  apply nth_error_None in E; unfold n in *; lia.
Qed.

Lemma list_item_below {A : Type} (l : list A) (idx : Z) :
  idx < - Z.of_nat (List.length l) ->
  list_item l idx = Raise (IndexError "list index out of range").
Proof.
  unfold list_item; intro H.
  replace (idx <? 0) with true by (symmetry; apply Z.ltb_lt; lia).
  replace (0 <=? idx + Z.of_nat (List.length l)) with false
    by (symmetry; apply Z.leb_gt; lia).
  reflexivity.
Qed.

(** The indices that the loop of [select_candidates] accepts. *)
Lemma selected_candidates_indices (store : list dict)
  (candidate_indices : list Z) (selected : list dict) :
  selected_candidates store candidate_indices = Ok selected
  <-> Forall2 (fun idx c => in_range store idx /\ item_at store idx = Some c)
        candidate_indices selected.
Proof.
  revert selected;
    induction candidate_indices as [|idx rest IH]; intro selected; simpl.
  - split.
    + intro H; inversion H; constructor.
    + intro H; inversion H; reflexivity.
  - destruct (idx >=? Z.of_nat (List.length store)) eqn:E.
    + split; [discriminate|].
      intro H; inversion H as [|? ? ? ? [R _] _]; subst.
      unfold in_range in R; apply Z.geb_le in E; lia.
    + rewrite Z.geb_leb in E; apply Z.leb_gt in E.
      destruct (Z_lt_dec idx (- Z.of_nat (List.length store))) as [L|L].
      * rewrite (list_item_below _ _ L); simpl.
        split; [discriminate|].
        intro H; inversion H as [|? ? ? ? [R _] _]; subst.
        unfold in_range in R; lia.
      * assert (R : in_range store idx) by (unfold in_range; lia).
        destruct (list_item_in_range store idx R) as (x & Hx & Hat).
        rewrite Hx; simpl.
        destruct (selected_candidates store rest) as [sel|e]; simpl.
        -- split.
           ++ intro H; inversion H; subst selected.
              constructor; [split; assumption|apply IH; reflexivity].
           ++ intro H; inversion H as [|? c ? sel' [_ Hc] F]; subst.
              apply IH in F; inversion F; subst sel'.
              congruence.
        -- split; [discriminate|].
           intro H; inversion H as [|? c ? sel' _ F]; subst.
           apply IH in F; discriminate.
Qed.

(** X8. [selected_candidates] accepts exactly the indices from
    [-len(store)] to [len(store) - 1]: a negative index is not refused but
    counts from the end of the store, as Python's lists have it. The
    candidates selected are those at the indices modulo the length, in the
    order of the indices, repeated when an index is. *)
Theorem selected_candidates_accepts (store : list dict)
  (candidate_indices : list Z) (selected : list dict) :
  selected_candidates store candidate_indices = Ok selected
  <-> Forall2 (fun idx c => in_range store idx /\ item_at store idx = Some c)
        candidate_indices selected.
Proof.
  exact (selected_candidates_indices store candidate_indices selected).
Qed.

Lemma selected_candidates_accepts_witness :
  selected_candidates [[("name", VStr "A")]; [("name", VStr "B")]] [-1; 0]
  = Ok [[("name", VStr "B")]; [("name", VStr "A")]].
Proof.
  apply (proj2 (selected_candidates_accepts
                  [[("name", VStr "A")]; [("name", VStr "B")]] [-1; 0]
                  [[("name", VStr "B")]; [("name", VStr "A")]])).
  repeat constructor; unfold in_range; simpl; lia.
Defined.

(** X9. The first index out of range decides the error, whatever comes
    after it: an index of at least [len(store)] gives the 400 response
    that names it, an index below [-len(store)] escapes the check and it
    is the list access that raises [IndexError]. *)
Theorem selected_candidates_first_invalid (store : list dict)
  (valid : list Z) (idx : Z) (rest : list Z) :
  Forall (in_range store) valid ->
  ~ in_range store idx ->
  selected_candidates store (valid ++ idx :: rest)
  = Raise (if idx >=? Z.of_nat (List.length store)
           then HTTPException 400
                  ("Invalid candidate index: " ++ str_int idx)%string
           else IndexError "list index out of range").
Proof.
  intros Hvalid Hidx.
  induction Hvalid as [|v valid Hv _ IH]; simpl.
  - destruct (idx >=? Z.of_nat (List.length store)) eqn:E; [reflexivity|].
    rewrite Z.geb_leb in E; apply Z.leb_gt in E.
    rewrite list_item_below by (unfold in_range in Hidx; lia).
    reflexivity.
  - replace (v >=? Z.of_nat (List.length store)) with false
      by (symmetry; rewrite Z.geb_leb; apply Z.leb_gt;
          unfold in_range in Hv; lia).
    destruct (list_item_in_range store v Hv) as (x & Hx & _).
    rewrite Hx, IH; reflexivity.
Qed.

Lemma selected_candidates_first_invalid_witness :
  selected_candidates [[("name", VStr "A")]; [("name", VStr "B")]] [1; -3; 7]
  = Raise (IndexError "list index out of range")
  /\ selected_candidates [[("name", VStr "A")]; [("name", VStr "B")]] [1; 2]
     = Raise (HTTPException 400 "Invalid candidate index: 2").
Proof.
  split.
  - apply (selected_candidates_first_invalid
             [[("name", VStr "A")]; [("name", VStr "B")]] [1] (-3) [7]).
    + repeat constructor; unfold in_range; simpl; lia.
    + unfold in_range; simpl; lia.
  - apply (selected_candidates_first_invalid
             [[("name", VStr "A")]; [("name", VStr "B")]] [1] 2 []).
    + repeat constructor; unfold in_range; simpl; lia.
    + unfold in_range; simpl; lia.
Defined.

(** X10. In every state the server can be in, the candidate that an index
    selects is the one whose id is the index, or the index plus the length
    of the store for a negative index. *)
Theorem selected_candidates_ids (requests : list request)
  (candidate_indices : list Z) (selected : list dict) :
  selected_candidates (candidates_store (run requests)) candidate_indices
  = Ok selected ->
  Forall2
    (fun idx c =>
       Dict.lookup "id" c
       = Some (VInt (if idx <? 0
                     then idx + health_check (run requests)
                     else idx)))
    candidate_indices selected.
Proof.
  intro H; apply selected_candidates_indices in H.
  induction H as [|idx c idxs sel [R Hat] _ IH]; constructor; [|exact IH].
  unfold item_at in Hat.
  destruct (store_numbered requests _ _ Hat) as [Hid _].
  rewrite Hid; do 2 f_equal.
  unfold in_range in R; unfold health_check.
  set (n := Z.of_nat (List.length (candidates_store (run requests)))) in *.
  assert (Hm : 0 <= idx mod n < n) by (apply Z.mod_pos_bound; lia).
  rewrite Z2Nat.id by lia.
  destruct (idx <? 0) eqn:E.
  - apply Z.ltb_lt in E.
    rewrite <- (Z.mod_small (idx + n) n) by lia.
    rewrite <- (Z.mod_add idx 1 n) by lia.
    f_equal; lia.
  - apply Z.ltb_ge in E; apply Z.mod_small; lia.
Qed.

Lemma selected_candidates_ids_witness :
  Forall2
    (fun idx c =>
       Dict.lookup "id" c
       = Some (VInt (if idx <? 0
                     then idx + health_check (run example_requests)
                     else idx)))
    [-1; 0]
    [Dict.set "id" (VInt 1)
       (fallback [("name", VStr "Ann"); ("skills", VList [VStr "SQL"]);
                  ("preliminary_score", VInt 10)]);
     Dict.set "id" (VInt 0)
       (fallback [("name", VStr "Bob");
                  ("skills", VList [VStr "SQL"; VStr "Go"]);
                  ("preliminary_score", VInt 20)])].
Proof.
  apply (selected_candidates_ids example_requests [-1; 0]).
  vm_compute; reflexivity.
Defined.

(** ** The schedule *)

Lemma add_minutes_ok (t t' : datetime) (m : Z) :
  Dt.add_minutes t m = Ok t' ->
  t' = {| ticks := ticks t + m * Dt.minute; tzinfo := tzinfo t |}.
Proof.
  unfold Dt.add_minutes.
  destruct (Z.abs (m * Dt.minute / Dt.day) >? 999999999); [discriminate|].
  destruct ((0 <=? ticks t + m * Dt.minute)
            && (ticks t + m * Dt.minute <=? Dt.max_ticks))%bool;
    [|discriminate].
  intro H; inversion H; reflexivity.
Qed.

Lemma add_minutes_in_range (t : datetime) (m : Z) :
  0 <= m -> 0 <= ticks t -> ticks t + m * Dt.minute <= Dt.max_ticks ->
  Dt.add_minutes t m
  = Ok {| ticks := ticks t + m * Dt.minute; tzinfo := tzinfo t |}.
Proof.
  intros Hm Ht Hmax; unfold Dt.add_minutes.
  assert (Hd : 0 <= m * Dt.minute / Dt.day <= 999999999).
  { unfold Dt.max_ticks, Dt.minute, Dt.day in *; split.
    - apply Z.div_pos; lia.
    - apply Z.div_le_upper_bound; lia. }
  replace (Z.abs (m * Dt.minute / Dt.day) >? 999999999) with false
    by (symmetry; rewrite Z.gtb_ltb; apply Z.ltb_ge; lia).
  replace (0 <=? ticks t + m * Dt.minute) with true
    by (symmetry; apply Z.leb_le; unfold Dt.minute; lia).
  replace (ticks t + m * Dt.minute <=? Dt.max_ticks) with true
    by (symmetry; apply Z.leb_le; lia).
  reflexivity.
Qed.

Lemma slot_start_next (t : datetime) (duration gap : Z) (i : nat) :
  slot_start
    {| ticks := ticks t + duration * Dt.minute + gap * Dt.minute;
       tzinfo := tzinfo t |} duration gap i
  = slot_start t duration gap (S i).
Proof.
  unfold slot_start; simpl ticks; simpl tzinfo; f_equal.
  rewrite Nat2Z.inj_succ; ring.
Qed.

Lemma slot_end_next (t : datetime) (duration gap : Z) (i : nat) :
  slot_end
    {| ticks := ticks t + duration * Dt.minute + gap * Dt.minute;
       tzinfo := tzinfo t |} duration gap i
  = slot_end t duration gap (S i).
Proof.
  unfold slot_end; rewrite slot_start_next; reflexivity.
Qed.

Lemma slot_start_0 (t : datetime) (duration gap : Z) :
  slot_start t duration gap 0 = t.
Proof.
  unfold slot_start; destruct t as [tk tz]; simpl; f_equal; lia.
Qed.

Lemma slot_end_0 (t : datetime) (duration gap : Z) :
  slot_end t duration gap 0
  = {| ticks := ticks t + duration * Dt.minute; tzinfo := tzinfo t |}.
Proof.
  unfold slot_end; rewrite slot_start_0; reflexivity.
Qed.

(** One insertion appends one entry when it returns: a [print] that
    raises in the [try] raises in the handler too. *)
Lemma insert_entry_of (lib : pylib) (insert : nat -> result dict) (i : nat)
  (candidate : dict) (interview_start interview_end : datetime)
  (appended : list dict) :
  insert_entry lib (insert i) candidate interview_start interview_end
  = Ok appended ->
  exists entry,
    appended = [entry]
    /\ entry_of lib candidate interview_start interview_end
         (entry_status (Ok insert) i) entry.
Proof.
  unfold insert_entry, entry_status, getitem, Dict.mem.
  destruct (print [Dict.get "name" VNone candidate]) as [u|x];
    destruct (insert i) as [created_event|e]; cbn [bind];
    try discriminate.
  - destruct (Dict.lookup "id" created_event); cbn [bind];
      intro H; injection H as <-; eexists; (split; [reflexivity|]);
      repeat split; reflexivity.
  - intro H; injection H as <-; eexists; (split; [reflexivity|]);
      repeat split; reflexivity.
  - destruct (Dict.lookup "id" created_event); discriminate.
Qed.

Lemma insert_entry_returns (lib : pylib) (created : result dict)
  (candidate : dict) (interview_start interview_end : datetime) :
  printable (Dict.get "name" VNone candidate) = true ->
  exists entry,
    insert_entry lib created candidate interview_start interview_end
    = Ok [entry].
Proof.
  intro Hn; unfold insert_entry; rewrite (print_one _ Hn).
  destruct created as [created_event|e]; cbn [bind]; [|eauto].
  destruct (getitem "id" created_event); cbn [bind]; eauto.
Qed.

Lemma schedule_loop_entries (lib : pylib) (insert : nat -> result dict)
  (duration gap : Z) (candidates : list dict) :
  forall j t entries,
    schedule_loop lib insert j candidates t duration gap = Ok entries ->
    List.length entries = List.length candidates
    /\ forall i candidate,
         nth_error candidates i = Some candidate ->
         exists entry,
           nth_error entries i = Some entry
           /\ entry_of lib candidate (slot_start t duration gap i)
                (slot_end t duration gap i)
                (entry_status (Ok insert) (j + i)) entry.
Proof.
  induction candidates as [|c cs IH]; intros j t entries; simpl.
  - intro H; inversion H; split; [reflexivity|].
    intros i candidate Hi; destruct i; discriminate.
  - destruct (Dt.add_minutes t duration) as [e1|x] eqn:E1; simpl;
      [|discriminate].
    destruct (join (Dict.get "skills" (VList []) c)); simpl; [|discriminate].
    destruct (insert_entry lib (insert j) c t e1) as [appended|x] eqn:A;
      cbn [bind]; [|discriminate].
    destruct (insert_entry_of _ _ _ _ _ _ _ A) as (entry0 & -> & Hof0).
    destruct (Dt.add_minutes e1 gap) as [next|x] eqn:E2; simpl;
      [|discriminate].
    destruct (schedule_loop lib insert (S j) cs next duration gap)
      as [es|x] eqn:L; simpl; [|discriminate].
    intro H; inversion H; subst entries; clear H.
    apply add_minutes_ok in E1; subst e1.
    apply add_minutes_ok in E2; cbn [ticks tzinfo] in E2; subst next.
    destruct (IH _ _ _ L) as [Hlen Hnth].
    split; [simpl; rewrite Hlen; reflexivity|].
    intros [|i] candidate Hi; simpl in Hi.
    + inversion Hi; subst candidate.
      eexists; split; [reflexivity|].
      rewrite slot_start_0, slot_end_0, Nat.add_0_r.
      exact Hof0.
    + destruct (Hnth i candidate Hi) as (entry & He & Hof).
      exists entry; split; [exact He|].
      rewrite slot_start_next, slot_end_next in Hof.
      rewrite Nat.add_succ_r; exact Hof.
Qed.

Lemma create_mock_schedule_entries (lib : pylib) (duration : Z)
  (candidates : list dict) :
  forall t entries,
    create_mock_schedule lib candidates t duration = Ok entries ->
    List.length entries = List.length candidates
    /\ forall i candidate,
         nth_error candidates i = Some candidate ->
         exists entry,
           nth_error entries i = Some entry
           /\ entry_of lib candidate (slot_start t duration 15 i)
                (slot_end t duration 15 i) "scheduled_mock" entry.
Proof.
  induction candidates as [|c cs IH]; intros t entries; simpl.
  - intro H; inversion H; split; [reflexivity|].
    intros i candidate Hi; destruct i; discriminate.
  - destruct (Dt.add_minutes t duration) as [e1|x] eqn:E1; simpl;
      [|discriminate].
    destruct (Dt.add_minutes e1 15) as [next|x] eqn:E2; simpl;
      [|discriminate].
    destruct (create_mock_schedule lib cs next duration)
      as [es|x] eqn:L; simpl; [|discriminate].
    intro H; inversion H; subst entries; clear H.
    apply add_minutes_ok in E1; subst e1.
    apply add_minutes_ok in E2; cbn [ticks tzinfo] in E2; subst next.
    destruct (IH _ _ L) as [Hlen Hnth].
    split; [simpl; rewrite Hlen; reflexivity|].
    intros [|i] candidate Hi; simpl in Hi.
    + inversion Hi; subst candidate.
      eexists; split; [reflexivity|].
      rewrite slot_start_0, slot_end_0.
      repeat split; reflexivity.
    + destruct (Hnth i candidate Hi) as (entry & He & Hof).
      exists entry; split; [exact He|].
      rewrite slot_start_next, slot_end_next in Hof; exact Hof.
Qed.

(** The entries of a schedule, for both ways of making it. *)
Lemma schedule_interviews_entry (lib : pylib)
  (calendar : result (nat -> result dict)) (candidates : list dict)
  (start_date : datetime) (duration_minutes gap_minutes : Z)
  (entries : list dict) :
  schedule_interviews lib calendar candidates start_date duration_minutes
    gap_minutes = Ok entries ->
  List.length entries = List.length candidates
  /\ forall i candidate,
       nth_error candidates i = Some candidate ->
       exists entry,
         nth_error entries i = Some entry
         /\ entry_of lib candidate
              (slot_start start_date duration_minutes
                 (gap_used calendar gap_minutes) i)
              (slot_end start_date duration_minutes
                 (gap_used calendar gap_minutes) i)
              (entry_status calendar i) entry.
Proof.
  destruct calendar as [insert|e]; simpl; intro H.
  - exact (schedule_loop_entries _ _ _ _ _ _ _ _ H).
  - exact (create_mock_schedule_entries _ _ _ _ _ H).
Qed.

(** X11. A schedule that is returned has one entry for each candidate, in
    the order of the candidates, with the candidate's name and address
    (or the defaults ['Unknown'] and ['']). Its status is
    ['scheduled_mock'] when there is no calendar service, and with a
    service ['scheduled'] when the insertion of its event returned an
    event with an id and ['failed'] when it raised or returned no id: a
    failed insertion does not stop the loop. *)
Theorem schedule_interviews_entries (lib : pylib)
  (calendar : result (nat -> result dict)) (candidates : list dict)
  (start_date : datetime) (duration_minutes gap_minutes : Z)
  (entries : list dict) :
  schedule_interviews lib calendar candidates start_date duration_minutes
    gap_minutes = Ok entries ->
  List.length entries = List.length candidates
  /\ forall i candidate,
       nth_error candidates i = Some candidate ->
       exists entry,
         nth_error entries i = Some entry
         /\ Dict.lookup "candidate_name" entry
            = Some (Dict.get "name" (VStr "Unknown") candidate)
         /\ Dict.lookup "candidate_email" entry
            = Some (Dict.get "email" (VStr "") candidate)
         /\ Dict.lookup "status" entry
            = Some (VStr (entry_status calendar i)).
Proof.
  intro H; destruct (schedule_interviews_entry _ _ _ _ _ _ _ H) as [L E].
  split; [exact L|].
  intros i candidate Hi.
  destruct (E i candidate Hi) as (entry & He & Hn & Hm & _ & _ & Hs).
  exists entry; auto.
Qed.

Lemma schedule_interviews_entries_witness :
  exists entries,
    schedule_interviews example_lib example_calendar example_candidates
      example_start 60 15 = Ok entries
    /\ List.length entries = 2%nat.
Proof.
  eexists; split; [vm_compute; reflexivity|].
  apply (proj1 (schedule_interviews_entries example_lib example_calendar
                  example_candidates example_start 60 15 _ eq_refl)).
Defined.

(** X12. The slots of a schedule follow one another from the start date:
    the entry at index [i] starts [i * (duration + gap)] minutes after it
    and ends [duration] minutes later, in the time zone of the start date.
    The gap is the argument [gap_minutes] with a calendar service and 15
    minutes without, whatever the argument. *)
Theorem schedule_interviews_slots (lib : pylib)
  (calendar : result (nat -> result dict)) (candidates : list dict)
  (start_date : datetime) (duration_minutes gap_minutes : Z)
  (entries : list dict) (i : nat) (entry : dict) :
  schedule_interviews lib calendar candidates start_date duration_minutes
    gap_minutes = Ok entries ->
  nth_error entries i = Some entry ->
  Dict.lookup "interview_start" entry
  = Some (VStr (isoformat lib
                  (slot_start start_date duration_minutes
                     (gap_used calendar gap_minutes) i)))
  /\ Dict.lookup "interview_end" entry
     = Some (VStr (isoformat lib
                     (slot_end start_date duration_minutes
                        (gap_used calendar gap_minutes) i))).
Proof.
  intros H Hi; destruct (schedule_interviews_entry _ _ _ _ _ _ _ H) as [L E].
  assert (Hlt : (i < List.length candidates)%nat)
    by (rewrite <- L; apply nth_error_Some; congruence).
  destruct (nth_error candidates i) as [candidate|] eqn:Hc;
    [|apply nth_error_None in Hc; lia].
  destruct (E i candidate Hc) as (entry' & He & _ & _ & Hs & He' & _).
  rewrite Hi in He; inversion He; subst entry'; auto.
Qed.

Lemma schedule_interviews_slots_witness :
  exists entries entry,
    schedule_interviews example_lib (Raise (ExternalError "no credentials"))
      example_candidates example_start 60 0 = Ok entries
    /\ nth_error entries 1 = Some entry
    /\ Dict.lookup "interview_start" entry
       = Some (VStr "63894914100000000").
Proof.
  do 2 eexists; split; [vm_compute; reflexivity|].
  split; [reflexivity|].
  apply (proj1 (schedule_interviews_slots example_lib
                  (Raise (ExternalError "no credentials"))
                  example_candidates example_start 60 0 _ 1 _
                  eq_refl eq_refl)).
Defined.

Lemma slots_in_range_next (t : datetime) (duration gap : Z) (n : nat) :
  slots_in_range t duration gap (S n) ->
  Dt.add_minutes t duration
  = Ok {| ticks := ticks t + duration * Dt.minute; tzinfo := tzinfo t |}
  /\ Dt.add_minutes
       {| ticks := ticks t + duration * Dt.minute; tzinfo := tzinfo t |} gap
     = Ok {| ticks := ticks t + duration * Dt.minute + gap * Dt.minute;
             tzinfo := tzinfo t |}
  /\ slots_in_range
       {| ticks := ticks t + duration * Dt.minute + gap * Dt.minute;
          tzinfo := tzinfo t |} duration gap n.
Proof.
  unfold slots_in_range; rewrite Nat2Z.inj_succ; simpl ticks.
  intros (Hd & Hg & Ht & Hmax).
  assert (Hm : 0 < Dt.minute) by (unfold Dt.minute; lia).
  assert (Hn : 0 <= Z.of_nat n * (duration + gap) * Dt.minute) by nia.
  assert (Hdm : 0 <= duration * Dt.minute) by nia.
  assert (Hgm : 0 <= gap * Dt.minute) by nia.
  assert (Hs : Z.succ (Z.of_nat n) * (duration + gap) * Dt.minute
               = Z.of_nat n * (duration + gap) * Dt.minute
                 + duration * Dt.minute + gap * Dt.minute) by ring.
  split; [apply add_minutes_in_range; lia|].
  split; [rewrite add_minutes_in_range; simpl; try lia; reflexivity|].
  repeat split; lia.
Qed.






(** X14. With a calendar service, the first candidate whose skills cannot
    be joined makes [schedule_interviews] raise the [TypeError] of the
    join: the event is built outside the [try], so the entries of the
    candidates before it, whose skills could be joined, whose names could
    be printed and whose events were inserted, are lost with it. *)
Theorem schedule_interviews_unjoinable (lib : pylib)
  (insert : nat -> result dict) (before : list dict) (candidate : dict)
  (after : list dict) (start_date : datetime)
  (duration_minutes gap_minutes : Z) (e : exn) :
  Forall schedulable before ->
  join (Dict.get "skills" (VList []) candidate) = Raise e ->
  slots_in_range start_date duration_minutes gap_minutes
    (S (List.length before)) ->
  schedule_interviews lib (Ok insert) (before ++ candidate :: after)
    start_date duration_minutes gap_minutes
  = Raise e.
Proof.
  intros Hb Hc; simpl.
  generalize 0%nat as j; revert start_date.
  induction Hb as [|c cs [Hj Hn] _ IH]; intros t j Hr; simpl in *.
  - destruct (slots_in_range_next _ _ _ _ Hr) as (E1 & _).
    rewrite E1; cbn [bind]; rewrite Hc; reflexivity.
  - destruct (slots_in_range_next _ _ _ _ Hr) as (E1 & E2 & Hr').
    rewrite E1; cbn [bind]; rewrite Hj; cbn [bind].
    destruct (insert_entry_returns lib (insert j) c t
                {| ticks := ticks t + duration_minutes * Dt.minute;
                   tzinfo := tzinfo t |} Hn) as [entry ->].
    cbn [bind]; rewrite E2; cbn [bind].
    rewrite (IH _ (S j) Hr'); reflexivity.
Qed.

Lemma schedule_interviews_unjoinable_witness :
  schedule_interviews example_lib example_calendar
    (example_candidates ++ [("name", VStr "Cy"); ("skills", VList [VInt 3])]
       :: [])
    example_start 60 15
  = Raise (TypeError "sequence item 0: expected str instance, int found").
Proof.
  apply (schedule_interviews_unjoinable example_lib _ example_candidates
           [("name", VStr "Cy"); ("skills", VList [VInt 3])] []
           example_start 60 15).
  - repeat constructor.
  - reflexivity.
  - unfold slots_in_range; vm_compute; repeat split; discriminate.
Defined.

(** A name that cannot be printed makes the loop with a calendar service
    raise, whether the insertion of its event succeeds or fails, and the
    mock schedule return. *)
Lemma schedule_interviews_unprintable_name :
  schedule_interviews example_lib example_calendar
    [[("name", VStr lone_surrogate)]] example_start 60 15
  = Raise unicode_encode_error
  /\ schedule_interviews example_lib
       (Ok (fun _ => Raise (ExternalError "quota exceeded")))
       [[("name", VStr lone_surrogate)]] example_start 60 15
     = Raise unicode_encode_error
  /\ exists entries,
       schedule_interviews example_lib
         (Raise (ExternalError "no credentials"))
         [[("name", VStr lone_surrogate)]] example_start 60 15
       = Ok entries.
Proof.
  split; [vm_compute; reflexivity|].
  split; [vm_compute; reflexivity|].
  eexists; vm_compute; reflexivity.
Qed.

(** ** The confirmation mails *)

Lemma create_fallback_email_parsed (lib : pylib)
  (candidate_name interview_datetime calendar_link : value) :
  match Dt.parse lib interview_datetime with
  | Ok _ =>
      exists html,
        create_fallback_email lib candidate_name interview_datetime
          calendar_link = Ok html
  | Raise e =>
      create_fallback_email lib candidate_name interview_datetime
        calendar_link = Raise e
  end.
Proof.
  unfold create_fallback_email.
  destruct (Dt.parse lib interview_datetime); cbn [bind]; eauto.
Qed.

Lemma try_generate_email_parsed (lib : pylib) (api_key : option string)
  (r : reply) (candidate_name interview_datetime : value)
  (job_description : string) (calendar_link : value) (content : string) :
  try_generate_email lib api_key r candidate_name interview_datetime
    job_description calendar_link = Ok content ->
  exists dt, Dt.parse lib interview_datetime = Ok dt.
Proof.
  unfold try_generate_email.
  pose proof (create_fallback_email_parsed lib candidate_name
                interview_datetime calendar_link) as F.
  destruct (Dt.parse lib interview_datetime) as [dt|e]; [eauto|].
  destruct (unset api_key); [rewrite F|cbn [bind]]; discriminate.
Qed.

Lemma generate_personalized_email_parsed (lib : pylib)
  (api_key : option string) (r : reply)
  (candidate_name interview_datetime : value) (job_description : string)
  (calendar_link : value) :
  match Dt.parse lib interview_datetime with
  | Ok _ =>
      exists content,
        generate_personalized_email lib api_key r candidate_name
          interview_datetime job_description calendar_link = Ok content
  | Raise e =>
      generate_personalized_email lib api_key r candidate_name
        interview_datetime job_description calendar_link = Raise e
  end.
Proof.
  unfold generate_personalized_email.
  pose proof (create_fallback_email_parsed lib candidate_name
                interview_datetime calendar_link) as F.
  destruct (try_generate_email lib api_key r candidate_name
              interview_datetime job_description calendar_link)
    as [content|x] eqn:T.
  - destruct (try_generate_email_parsed _ _ _ _ _ _ _ _ T) as [dt ->]; eauto.
  - destruct (Dt.parse lib interview_datetime) as [dt|x']; exact F.
Qed.

(** X15. [generate_personalized_email] raises exactly when the start of
    the interview is not a text that [fromisoformat] reads, and then what
    [fromisoformat] raises: the handler calls [create_fallback_email],
    which parses the date again outside any [try]. No failure of the
    service makes it raise. *)
Theorem generate_personalized_email_raises (lib : pylib)
  (api_key : option string) (r : reply)
  (candidate_name interview_datetime : value) (job_description : string)
  (calendar_link : value) (e : exn) :
  generate_personalized_email lib api_key r candidate_name
    interview_datetime job_description calendar_link = Raise e
  <-> Dt.parse lib interview_datetime = Raise e.
Proof.
  pose proof (generate_personalized_email_parsed lib api_key r candidate_name
                interview_datetime job_description calendar_link) as G.
  destruct (Dt.parse lib interview_datetime) as [dt|x].
  - destruct G as [content ->]; split; discriminate.
  - rewrite G; split; intro H; injection H as ->; reflexivity.
Qed.

Lemma generate_personalized_email_raises_witness :
  generate_personalized_email example_lib (Some "key")
    (Ok (Some "<p>See you soon</p>")) (VStr "Ann") (VStr "tomorrow")
    "Python developer" (VStr "")
  = Raise (ValueError "Invalid isoformat string").
Proof.
  apply (proj2 (generate_personalized_email_raises example_lib (Some "key")
                  (Ok (Some "<p>See you soon</p>")) (VStr "Ann")
                  (VStr "tomorrow") "Python developer" (VStr "")
                  (ValueError "Invalid isoformat string"))).
  reflexivity.
Defined.

(** X16. Without an API key, and when the service raises or answers
    without text, the mail is the one of [create_fallback_email]. *)
Theorem generate_personalized_email_fallback (lib : pylib)
  (api_key : option string) (r : reply)
  (candidate_name interview_datetime : value) (job_description : string)
  (calendar_link : value) :
  unset api_key = true \/ no_reply r ->
  generate_personalized_email lib api_key r candidate_name
    interview_datetime job_description calendar_link
  = create_fallback_email lib candidate_name interview_datetime
      calendar_link.
Proof.
  intro H; unfold generate_personalized_email, try_generate_email.
  destruct (unset api_key).
  - destruct (create_fallback_email lib candidate_name interview_datetime
                calendar_link); reflexivity.
  - destruct H as [H|H]; [discriminate|].
    pose proof (create_fallback_email_parsed lib candidate_name
                  interview_datetime calendar_link) as F.
    destruct (Dt.parse lib interview_datetime) as [dt|x]; cbn [bind].
    + destruct r as [[t|]|x]; simpl in H; [contradiction| |]; reflexivity.
    + reflexivity.
Qed.

Lemma generate_personalized_email_fallback_witness :
  generate_personalized_email example_lib (Some "key")
    (Raise (ExternalError "timeout")) (VStr "Ann")
    (VStr "63894909600000000") "Python developer" (VStr "")
  = create_fallback_email example_lib (VStr "Ann")
      (VStr "63894909600000000") (VStr "").
Proof.
  apply (generate_personalized_email_fallback example_lib (Some "key")
           (Raise (ExternalError "timeout"))).
  right; exact I.
Defined.

Lemma search_html_fence (text : string) (m : Re.rmatch) :
  Re.search html_fence_re text = Some m ->
  exists pre w1 w2 post,
    text = (pre ++ "```html" ++ w1 ++ Re.group1 m ++ w2 ++ "```"
            ++ post)%string
    /\ spaces w1 /\ spaces w2.
Proof.
  intro H.
  destruct (search_sound _ _ _ H) as (pre & s & go & gc & rest & -> & Hm & _ & ->).
  change html_fence_re with
    ((Re.lits "```html" ++ [Re.SpaceStar])
       ++ Re.GOpen
       :: ([Re.AnyStar false]
             ++ Re.GClose :: ((Re.SpaceStar :: Re.lits "```") ++ []))) in Hm.
  apply match_here_app in Hm; [|reflexivity].
  destruct Hm as (c1 & s1 & -> & M1 & Hm).
  rewrite match_open in Hm.
  apply match_here_app in Hm; [|reflexivity].
  destruct Hm as (c2 & s2 & -> & M2 & Hm).
  rewrite match_close in Hm.
  apply match_here_app in Hm; [|reflexivity].
  destruct Hm as (c3 & s3 & -> & M3 & Hm).
  simpl in Hm; inversion Hm; subst go gc rest.
  rewrite upto_app.
  apply matches_lits in M1; destruct M1 as (w1 & -> & M1).
  inversion M1 as [| | |? w1' e1 Hw1 Me1| |]; subst.
  inversion Me1; subst.
  inversion M3 as [| | |? w2 e4 Hw2 Me4| |]; subst.
  apply (matches_lits "```" []) in Me4; destruct Me4 as (e5 & -> & Me5).
  inversion Me5; subst.
  exists pre, w1', w2, s3; repeat split; try assumption.
  simpl; rewrite !append_nil_r, !append_assoc; simpl.
  repeat (rewrite ?append_assoc; simpl); reflexivity.
Qed.

Lemma search_html_fence_complete (pre w1 body w2 post : string) :
  spaces w1 -> spaces w2 ->
  Re.search html_fence_re
    (pre ++ "```html" ++ w1 ++ body ++ w2 ++ "```" ++ post)%string
  <> None.
Proof.
  intros H1 H2.
  assert (M : matches html_fence_re
                ("```html" ++ w1 ++ body ++ w2 ++ "```")%string).
  { apply (matches_lits_intro "```html"
             [Re.SpaceStar; Re.GOpen; Re.AnyStar false; Re.GClose;
              Re.SpaceStar; Re.Lit "`"; Re.Lit "`"; Re.Lit "`"]).
    apply matches_space; [exact H1|].
    apply matches_open.
    apply (matches_any false _ body).
    apply matches_close.
    apply matches_space; [exact H2|].
    repeat constructor. }
  pose proof (search_complete html_fence_re pre _ post M) as S.
  repeat (rewrite append_assoc in S; simpl in S).
  simpl; exact S.
Qed.

(** X17. With an API key, a start that parses and a text from the
    service, the mail is taken from the text: the text itself, or, when
    the text has a block fenced with the marker [html], what stands
    between the white space after the marker of such a block and the
    white space before a closing fence, which is shorter than the text. *)
Theorem generate_personalized_email_content (lib : pylib)
  (api_key : option string) (text : string)
  (candidate_name interview_datetime : value) (job_description : string)
  (calendar_link : value) (dt : datetime) :
  unset api_key = false ->
  Dt.parse lib interview_datetime = Ok dt ->
  exists content,
    generate_personalized_email lib api_key (Ok (Some text)) candidate_name
      interview_datetime job_description calendar_link = Ok content
    /\ (content = text
        \/ exists pre w1 w2 post,
             text = (pre ++ "```html" ++ w1 ++ content ++ w2 ++ "```"
                     ++ post)%string
             /\ spaces w1 /\ spaces w2)
    /\ ((exists pre w1 body w2 post,
            text = (pre ++ "```html" ++ w1 ++ body ++ w2 ++ "```"
                    ++ post)%string
            /\ spaces w1 /\ spaces w2) ->
        (String.length content + 10 <= String.length text)%nat).
Proof.
  intros Hkey Hdt.
  unfold generate_personalized_email, try_generate_email.
  rewrite Hkey, Hdt; cbn [bind response_text].
  destruct (Re.search html_fence_re text) as [m|] eqn:S.
  - exists (Re.group1 m); split; [reflexivity|].
    destruct (search_html_fence _ _ S) as (pre & w1 & w2 & post & Ht & H1 & H2).
    split; [right; exists pre, w1, w2, post; auto|].
    intros _; rewrite Ht.
    rewrite !length_append; simpl; lia.
  - exists text; split; [reflexivity|].
    split; [left; reflexivity|].
    intros (pre & w1 & body & w2 & post & -> & H1 & H2).
    exfalso; exact (search_html_fence_complete _ _ _ _ _ H1 H2 S).
Qed.

Lemma generate_personalized_email_content_witness :
  exists content,
    generate_personalized_email example_lib (Some "key")
      (Ok (Some "Here you are: ```html <p>See you soon</p> ``` Regards"))
      (VStr "Ann") (VStr "63894909600000000") "Python developer" (VStr "")
    = Ok content.
Proof.
  destruct (generate_personalized_email_content example_lib (Some "key")
              "Here you are: ```html <p>See you soon</p> ``` Regards"
              (VStr "Ann") (VStr "63894909600000000") "Python developer"
              (VStr "") example_start)
    as (content & H & _).
  - reflexivity.
  - reflexivity.
  - exists content; exact H.
Defined.

Lemma email_tasks_confirmed (lib : pylib) (api_key : option string)
  (service : nat -> reply) (job_description : string)
  (interviews : list dict) :
  forall i tasks,
    email_tasks lib api_key service i interviews job_description = Ok tasks ->
    Forall2
      (fun interview task =>
         Dict.lookup "candidate_email" interview = Some (fst (fst (snd task))))
      (filter to_confirm interviews) tasks.
Proof.
  induction interviews as [|interview rest IH]; intros i tasks;
    cbn [email_tasks filter].
  - intro H; inversion H; constructor.
  - unfold getitem at 1, to_confirm at 1.
    destruct (Dict.lookup "status" interview) as [status|]; cbn [bind];
      [|discriminate].
    destruct (is_scheduled status); cbn [negb]; [|apply IH].
    unfold getitem.
    destruct (Dict.lookup "candidate_name" interview) as [name|]; cbn [bind];
      [|discriminate].
    destruct (Dict.lookup "candidate_email" interview) as [email|] eqn:Em;
      cbn [bind]; [|discriminate].
    destruct (Dict.lookup "interview_start" interview) as [start|];
      cbn [bind]; [|discriminate].
    destruct (generate_personalized_email lib api_key (service i) name start
                job_description
                (Dict.get "calendar_link" (VStr "") interview));
      cbn [bind]; [|discriminate].
    destruct (email_tasks lib api_key service (S i) rest job_description)
      as [ts|x] eqn:T; cbn [bind]; [|discriminate].
    intro H; injection H as <-.
    constructor; [exact Em|exact (IH _ _ T)].
Qed.

Lemma send_email_result (env : mail_env) (smtp : result unit)
  (to_email : value) (subject html_content : string) (email_result : dict) :
  send_email env smtp to_email subject html_content = Ok email_result ->
  Dict.lookup "email" email_result = Some to_email
  /\ exists status,
       Dict.lookup "status" email_result = Some (VStr status)
       /\ In status ["mock_sent"; "sent"; "failed"]
       /\ (no_credentials env = true -> status = "mock_sent").
Proof.
  unfold send_email, get_email_config, no_credentials.
  destruct (smtp_port env); cbn [bind]; [|discriminate].
  destruct (print [to_email]) as [u|x]; cbn [bind].
  - destruct (unset (sender_email env) || unset (sender_password env))%bool.
    + intro H; injection H as <-; split; [reflexivity|].
      exists "mock_sent"; simpl; auto.
    + destruct smtp; cbn [bind]; intro H; injection H as <-;
        (split; [reflexivity|]);
        [exists "sent"|exists "failed"]; simpl; split; auto;
        split; auto; discriminate.
  - destruct (unset (sender_email env) || unset (sender_password env))%bool;
      [discriminate|].
    destruct smtp; discriminate.
Qed.

Lemma send_email_returns (env : mail_env) (smtp : result unit) (port : Z)
  (to_email : value) (subject html_content : string) :
  smtp_port env = Ok port ->
  printable to_email = true ->
  exists email_result,
    send_email env smtp to_email subject html_content = Ok email_result.
Proof.
  intros Hp Hto; unfold send_email, get_email_config.
  rewrite Hp, (print_one _ Hto); cbn [bind].
  destruct (unset (sender_email env) || unset (sender_password env))%bool;
    [|destruct smtp]; cbn [bind]; eauto.
Qed.

Lemma gather_emails_results (env : mail_env) (smtp : nat -> result unit)
  (tasks : list (nat * mail)) :
  forall email_results,
    gather_emails env smtp tasks = Ok email_results ->
    Forall2
      (fun task email_result =>
         Dict.lookup "email" email_result = Some (fst (fst (snd task)))
         /\ exists status,
              Dict.lookup "status" email_result = Some (VStr status)
              /\ In status ["mock_sent"; "sent"; "failed"]
              /\ (no_credentials env = true -> status = "mock_sent"))
      tasks email_results.
Proof.
  induction tasks as [|[i [[to_email subject] html]] rest IH];
    intro email_results; cbn [gather_emails].
  - intro H; inversion H; constructor.
  - destruct (send_email env (smtp i) to_email subject html) as [r|x] eqn:S;
      cbn [bind]; [|discriminate].
    destruct (gather_emails env smtp rest) as [rs|x] eqn:G; cbn [bind];
      [|discriminate].
    intro H; injection H as <-.
    constructor; [exact (send_email_result _ _ _ _ _ _ S)
                 |exact (IH _ eq_refl)].
Qed.

Lemma Forall2_compose {A B C : Type} (R : A -> B -> Prop) (S : B -> C -> Prop)
  (T : A -> C -> Prop) :
  (forall a b c, R a b -> S b c -> T a c) ->
  forall la lb lc, Forall2 R la lb -> Forall2 S lb lc -> Forall2 T la lc.
Proof.
  intros H la lb lc HR; revert lc.
  induction HR as [|a b la lb Hab _ IH]; intros lc HS; inversion HS; subst;
    constructor; eauto.
Qed.

(** X18. The results of [send_confirmation_emails] stand, in order, for
    the interviews whose status is ['scheduled'] or ['scheduled_mock']:
    an interview whose insertion failed gets no mail and no result. Each
    result carries the address of its interview and one of the statuses
    ['mock_sent'], ['sent'] and ['failed'], the first whenever the
    sender's address or password is not set. *)
Theorem send_confirmation_emails_results (lib : pylib)
  (api_key : option string) (service : nat -> reply) (env : mail_env)
  (smtp : nat -> result unit) (scheduled_interviews : list dict)
  (job_description : string) (email_results : list dict) :
  send_confirmation_emails lib api_key service env smtp scheduled_interviews
    job_description = Ok email_results ->
  Forall2
    (fun interview email_result =>
       Dict.lookup "email" email_result
       = Dict.lookup "candidate_email" interview
       /\ exists status,
            Dict.lookup "status" email_result = Some (VStr status)
            /\ In status ["mock_sent"; "sent"; "failed"]
            /\ (no_credentials env = true -> status = "mock_sent"))
    (filter to_confirm scheduled_interviews) email_results.
Proof.
  unfold send_confirmation_emails.
  destruct (email_tasks lib api_key service 0 scheduled_interviews
              job_description) as [tasks|x] eqn:T; cbn [bind];
    [|discriminate].
  intro G.
  apply email_tasks_confirmed in T.
  apply gather_emails_results in G.
  refine (Forall2_compose _ _ _ _ _ _ _ T G).
  intros interview task r H1 [H2 H3]; split; [congruence|exact H3].
Qed.

Lemma email_tasks_total (lib : pylib) (api_key : option string)
  (service : nat -> reply) (job_description : string)
  (interviews : list dict) :
  Forall (confirmable lib) interviews ->
  forall i,
  exists tasks,
    email_tasks lib api_key service i interviews job_description = Ok tasks
    /\ Forall (fun task : nat * mail =>
                 printable (fst (fst (snd task))) = true) tasks.
Proof.
  induction 1 as [|interview rest Hi _ IH]; intro i; cbn [email_tasks];
    [eauto|].
  destruct Hi
    as (c & s & e & st & dt & (Hn & Hm & Hs & _ & Hst) & Hdt & Hto).
  unfold getitem; rewrite Hst, Hn, Hm, Hs; cbn [bind].
  destruct (IH (S i)) as (tasks & Ht & Hp).
  destruct (negb (is_scheduled (VStr st))); [eauto|].
  pose proof (generate_personalized_email_parsed lib api_key (service i)
                (Dict.get "name" (VStr "Unknown") c)
                (VStr (isoformat lib s)) job_description
                (Dict.get "calendar_link" (VStr "") interview)) as G.
  cbn [Dt.parse] in G; rewrite Hdt in G; destruct G as [content ->].
  cbn [bind]; rewrite Ht; cbn [bind].
  eexists; split; [reflexivity|].
  constructor; [exact Hto|exact Hp].
Qed.

Lemma gather_emails_total (env : mail_env) (smtp : nat -> result unit)
  (port : Z) (tasks : list (nat * mail)) :
  smtp_port env = Ok port ->
  Forall (fun task : nat * mail =>
            printable (fst (fst (snd task))) = true) tasks ->
  exists email_results, gather_emails env smtp tasks = Ok email_results.
Proof.
  intros Hp Hto;
    induction Hto as [|[i [[to_email subject] html]] rest Ht _ IH];
    cbn [gather_emails]; [eauto|].
  destruct IH as [rs ->].
  destruct (send_email_returns env (smtp i) port to_email subject html Hp Ht)
    as [r ->].
  cbn [bind]; eauto.
Qed.

Lemma schedule_entries_read (lib : pylib)
  (calendar : result (nat -> result dict)) (candidates : list dict)
  (start_date : datetime) (duration_minutes gap_minutes : Z)
  (entries : list dict) :
  schedule_interviews lib calendar candidates start_date duration_minutes
    gap_minutes = Ok entries ->
  reads_own_dates lib ->
  Forall mailable candidates ->
  Forall (confirmable lib) entries.
Proof.
  intros H Hread Hmail.
  destruct (schedule_interviews_entry _ _ _ _ _ _ _ H) as [L E].
  apply Forall_forall; intros entry Hin.
  destruct (In_nth_error _ _ Hin) as [i Hi].
  assert (Hlt : (i < List.length candidates)%nat)
    by (rewrite <- L; apply nth_error_Some; congruence).
  destruct (nth_error candidates i) as [candidate|] eqn:Hc;
    [|apply nth_error_None in Hc; lia].
  destruct (E i candidate Hc) as (entry' & He & Hof).
  rewrite Hi in He; inversion He; subst entry'.
  destruct (Hread (slot_start start_date duration_minutes
                     (gap_used calendar gap_minutes) i)) as [dt Hdt].
  rewrite Forall_forall in Hmail.
  pose proof (Hmail _ (nth_error_In _ _ Hc)) as Hto.
  unfold confirmable; eauto 10.
Qed.

Lemma confirmations_total (lib : pylib) (api_key : option string)
  (service : nat -> reply) (env : mail_env) (smtp : nat -> result unit)
  (port : Z) (job_description : string) (entries : list dict) :
  Forall (confirmable lib) entries ->
  smtp_port env = Ok port ->
  exists email_results,
    send_confirmation_emails lib api_key service env smtp entries
      job_description = Ok email_results
    /\ List.length email_results
       = List.length (filter to_confirm entries).
Proof.
  intros He Hp; unfold send_confirmation_emails.
  destruct (email_tasks_total lib api_key service job_description entries He
              0%nat) as (tasks & T & Hto).
  rewrite T; cbn [bind].
  destruct (gather_emails_total env smtp port tasks Hp Hto) as [rs G].
  exists rs; split; [exact G|].
  apply email_tasks_confirmed, Forall2_length in T.
  apply gather_emails_results, Forall2_length in G.
  congruence.
Qed.

(** X19. The mails do not fail on a schedule that [schedule_interviews]
    made for candidates whose address can be printed: its entries have
    the keys that [send_confirmation_emails] reads, and their starts are
    dates written by [isoformat]. So, with a library whose
    [fromisoformat] reads what its [isoformat] writes and an SMTP port
    that is a number, [send_confirmation_emails] returns one result for
    each entry not marked ['failed'], whatever the service that writes
    the mails and the mail server do. *)
Theorem confirmations_after_schedule (lib : pylib)
  (calendar : result (nat -> result dict)) (candidates : list dict)
  (start_date : datetime) (duration_minutes gap_minutes : Z)
  (entries : list dict) (api_key : option string) (service : nat -> reply)
  (env : mail_env) (smtp : nat -> result unit) (port : Z)
  (job_description : string) :
  schedule_interviews lib calendar candidates start_date duration_minutes
    gap_minutes = Ok entries ->
  Forall mailable candidates ->
  reads_own_dates lib ->
  smtp_port env = Ok port ->
  exists email_results,
    send_confirmation_emails lib api_key service env smtp entries
      job_description = Ok email_results
    /\ List.length email_results
       = List.length (filter to_confirm entries).
Proof.
  intros H Hmail Hread Hp.
  exact (confirmations_total lib api_key service env smtp port
           job_description entries
           (schedule_entries_read _ _ _ _ _ _ _ H Hread Hmail) Hp).
Qed.

Lemma decimal_read_back (d : Decimal.signed_int) :
  exists d', NilZero.int_of_string (NilZero.string_of_int d) = Some d'.
Proof.
  destruct d as [u|u]; destruct u;
    try (eexists; apply NilZero.isi; discriminate);
    eexists; [apply NilZero.isi_posnil|apply NilZero.isi_negnil].
Qed.

Lemma example_lib_reads : reads_own_dates example_lib.
Proof.
  intro t; unfold example_lib, str_int; cbn [fromisoformat isoformat].
  destruct (decimal_read_back (Z.to_int (ticks t))) as [d' ->]; eauto.
Qed.

Lemma send_confirmation_emails_results_witness :
  Forall2
    (fun interview email_result =>
       Dict.lookup "email" email_result
       = Dict.lookup "candidate_email" interview
       /\ exists status,
            Dict.lookup "status" email_result = Some (VStr status)
            /\ In status ["mock_sent"; "sent"; "failed"]
            /\ (no_credentials (email_env example_world) = true ->
                status = "mock_sent"))
    (filter to_confirm example_schedule)
    [[("email", VStr "ann@example.com"); ("status", VStr "failed");
      ("message", VStr "connection refused")]].
Proof.
  apply (send_confirmation_emails_results example_lib None
           (fun _ => Raise (ExternalError "timeout"))
           (email_env example_world) (smtp example_world) example_schedule
           "Python developer").
  vm_compute; reflexivity.
Defined.

Lemma confirmations_after_schedule_witness :
  exists email_results,
    send_confirmation_emails example_lib None
      (fun _ => Raise (ExternalError "timeout")) (email_env example_world)
      (smtp example_world) example_schedule "Python developer"
    = Ok email_results
    /\ List.length email_results
       = List.length (filter to_confirm example_schedule).
Proof.
  apply (confirmations_after_schedule example_lib example_calendar
           example_candidates example_start 60 15 example_schedule None
           (fun _ => Raise (ExternalError "timeout"))
           (email_env example_world) (smtp example_world) 587
           "Python developer").
  - vm_compute; reflexivity.
  - repeat constructor.
  - exact example_lib_reads.
  - reflexivity.
Defined.

(** An address that cannot be printed makes [send_email] raise, with or
    without credentials, whatever the mail server does. *)
Lemma send_email_unprintable_address :
  send_email (email_env example_world) (Ok tt) (VStr lone_surrogate)
    "Interview Confirmation - Ann" "<p>See you soon</p>"
  = Raise unicode_encode_error
  /\ send_email
       {| smtp_port := Ok 587; sender_email := None;
          sender_password := None |}
       (Ok tt) (VStr lone_surrogate)
       "Interview Confirmation - Ann" "<p>See you soon</p>"
     = Raise unicode_encode_error.
Proof.
  split; vm_compute; reflexivity.
Qed.

(** ** The selection workflow *)

Lemma selected_candidates_raises (store : list dict)
  (candidate_indices : list Z) (e : exn) :
  selected_candidates store candidate_indices = Raise e ->
  (exists idx,
      In idx candidate_indices
      /\ Z.of_nat (List.length store) <= idx
      /\ e = HTTPException 400
               ("Invalid candidate index: " ++ str_int idx)%string)
  \/ (e = IndexError "list index out of range"
      /\ exists idx,
           In idx candidate_indices
           /\ idx < - Z.of_nat (List.length store)).
Proof.
  induction candidate_indices as [|idx rest IH]; simpl; [discriminate|].
  destruct (idx >=? Z.of_nat (List.length store)) eqn:E.
  - intro H; injection H as <-; left; exists idx.
    apply Z.geb_le in E; auto.
  - rewrite Z.geb_leb in E; apply Z.leb_gt in E.
    destruct (Z_lt_dec idx (- Z.of_nat (List.length store))) as [L|L].
    + rewrite (list_item_below _ _ L); simpl.
      intro H; injection H as <-; right; split; [reflexivity|].
      exists idx; auto.
    + assert (R : in_range store idx) by (unfold in_range; lia).
      destruct (list_item_in_range store idx R) as (x & -> & _); simpl.
      destruct (selected_candidates store rest) as [sel|x']; simpl;
        [discriminate|].
      intro H; injection H as ->.
      destruct (IH eq_refl) as [(i & Hi & Hn & He)|[He (i & Hi & Hn)]];
        [left|right; split; [exact He|]]; exists i; auto.
Qed.

(** X20. What [select_candidates] raises is one of its own responses,
    with status 400 for an empty store, an index of at least the length
    of the store, an empty selection or a date that does not parse, and
    with status 500 for a failure of the scheduling or of the mails, or
    it is the [IndexError] of an index below the negated length of the
    store, which no check and no handler catches. *)
Theorem select_candidates_errors (st : server) (w : world)
  (candidate_indices : list Z) (interview_date : string)
  (interview_duration : Z) (e : exn) :
  select_candidates st w candidate_indices interview_date interview_duration
  = Raise e ->
  (candidates_store st = []
   /\ e = HTTPException 400 "No candidates available")
  \/ (exists idx,
         In idx candidate_indices
         /\ health_check st <= idx
         /\ e = HTTPException 400
                  ("Invalid candidate index: " ++ str_int idx)%string)
  \/ (candidate_indices = []
      /\ e = HTTPException 400 "No candidates selected")
  \/ ((exists x, fromisoformat (lib w) interview_date = Raise x)
      /\ e = HTTPException 400
               "Invalid date format. Use ISO format: YYYY-MM-DD")
  \/ (exists detail, e = HTTPException 500 detail)
  \/ ((exists idx, In idx candidate_indices /\ idx < - health_check st)
      /\ e = IndexError "list index out of range").
Proof.
  unfold select_candidates, health_check.
  destruct (candidates_store st) as [|c0 cs] eqn:St.
  - intro H; injection H as <-; left; auto.
  - rewrite <- St.
    destruct (selected_candidates (candidates_store st) candidate_indices)
      as [selected|x] eqn:Sel; cbn [bind].
    + destruct selected as [|s0 ss].
      * intro H; injection H as <-; right; right; left.
        apply selected_candidates_indices in Sel; inversion Sel; auto.
      * destruct (fromisoformat (lib w) interview_date) as [start|x] eqn:F.
        -- destruct (schedule_interviews (lib w) (calendar w) (s0 :: ss)
                       start interview_duration 15) as [scheduled|x].
           ++ destruct (send_confirmation_emails (lib w) (ai_api_key w)
                          (email_service w) (email_env w) (smtp w) scheduled
                          (job_description_store st)) as [rs|x];
                [discriminate|].
              intro H; injection H as <-; do 4 right; left; eauto.
           ++ intro H; injection H as <-; do 4 right; left; eauto.
        -- intro H; injection H as <-; do 3 right; left; eauto.
    + intro H; injection H as <-.
      destruct (selected_candidates_raises _ _ _ Sel)
        as [(i & Hi & Hn & He)|[He (i & Hi & Hn)]].
      * right; left; exists i; auto.
      * do 5 right; split; [exists i; auto|exact He].
Qed.

Lemma select_candidates_errors_witness :
  (candidates_store (run example_requests) = []
   /\ IndexError "list index out of range"
      = HTTPException 400 "No candidates available")
  \/ (exists idx,
         In idx [0; -3]
         /\ health_check (run example_requests) <= idx
         /\ IndexError "list index out of range"
            = HTTPException 400
                ("Invalid candidate index: " ++ str_int idx)%string)
  \/ ([0; -3] = []
      /\ IndexError "list index out of range"
         = HTTPException 400 "No candidates selected")
  \/ ((exists x,
          fromisoformat (lib example_world) "63894909600000000" = Raise x)
      /\ IndexError "list index out of range"
         = HTTPException 400
             "Invalid date format. Use ISO format: YYYY-MM-DD")
  \/ (exists detail,
         IndexError "list index out of range" = HTTPException 500 detail)
  \/ ((exists idx,
          In idx [0; -3] /\ idx < - health_check (run example_requests))
      /\ IndexError "list index out of range"
         = IndexError "list index out of range").
Proof.
  apply (select_candidates_errors (run example_requests) example_world
           [0; -3] "63894909600000000" 60).
  vm_compute; reflexivity.
Defined.



Lemma selected_from_store (store : list dict) (candidate_indices : list Z)
  (selected : list dict) :
  selected_candidates store candidate_indices = Ok selected ->
  List.length selected = List.length candidate_indices
  /\ forall c, In c selected -> In c store.
Proof.
  intro H; apply selected_candidates_indices in H.
  split; [symmetry; exact (Forall2_length H)|].
  induction H as [|idx c idxs sel [_ Hat] _ IH]; intros c' Hin;
    [contradiction|].
  destruct Hin as [<-|Hin]; [|exact (IH _ Hin)].
  exact (nth_error_In _ _ Hat).
Qed.

(** X21. What [select_candidates] returns: one entry of the schedule for
    each index, one mail status for each entry not marked ['failed'], and
    a message whose count is the number of indices, the entries marked
    ['failed'] counted as scheduled. *)
Theorem select_candidates_result (st : server) (w : world)
  (candidate_indices : list Z) (interview_date : string)
  (interview_duration : Z) (result : selection) :
  select_candidates st w candidate_indices interview_date interview_duration
  = Ok result ->
  candidate_indices <> []
  /\ Forall (in_range (candidates_store st)) candidate_indices
  /\ List.length (scheduled_interviews result)
     = List.length candidate_indices
  /\ List.length (email_status result)
     = List.length (filter to_confirm (scheduled_interviews result))
  /\ message result
     = ("Successfully scheduled "
        ++ str_int (Z.of_nat (List.length candidate_indices))
        ++ " interviews")%string.
Proof.
  unfold select_candidates.
  destruct (candidates_store st) as [|c0 cs] eqn:St; [discriminate|].
  rewrite <- St.
  destruct (selected_candidates (candidates_store st) candidate_indices)
    as [selected|x] eqn:Sel; cbn [bind]; [|discriminate].
  destruct selected as [|s0 ss] eqn:Es; [discriminate|]; rewrite <- Es in *.
  destruct (fromisoformat (lib w) interview_date) as [start|x];
    [|discriminate].
  destruct (schedule_interviews (lib w) (calendar w) selected start
              interview_duration 15) as [scheduled|x] eqn:Sch;
    [|discriminate].
  destruct (send_confirmation_emails (lib w) (ai_api_key w) (email_service w)
              (email_env w) (smtp w) scheduled (job_description_store st))
    as [rs|x] eqn:Em; [|discriminate].
  intro H; injection H as <-; cbn [scheduled_interviews email_status message].
  destruct (selected_from_store _ _ _ Sel) as [Hlen _].
  destruct (schedule_interviews_entry _ _ _ _ _ _ _ Sch) as [Hn _].
  assert (Hidx : candidate_indices <> [])
    by (intro E; rewrite E, Es in Hlen; discriminate).
  split; [exact Hidx|].
  split.
  { apply selected_candidates_indices in Sel.
    clear - Sel; induction Sel as [|? ? ? ? [R _] _ IH]; constructor; auto. }
  split; [congruence|].
  split.
  { unfold send_confirmation_emails in Em.
    destruct (email_tasks (lib w) (ai_api_key w) (email_service w) 0
                scheduled (job_description_store st)) as [tasks|x] eqn:T;
      cbn [bind] in Em; [|discriminate].
    apply email_tasks_confirmed, Forall2_length in T.
    apply gather_emails_results, Forall2_length in Em.
    congruence. }
  rewrite Hn, Hlen; reflexivity.
Qed.

Lemma select_candidates_result_witness :
  message
    {| message := "Successfully scheduled 2 interviews";
       scheduled_interviews :=
         [[("candidate_name", VStr "Bob"); ("candidate_email", VStr "");
           ("interview_start", VStr "63894909600000000");
           ("interview_end", VStr "63894913200000000");
           ("calendar_event_id", VStr "ev1");
           ("calendar_link", VStr "https://cal/ev1");
           ("status", VStr "scheduled")];
          [("candidate_name", VStr "Ann"); ("candidate_email", VStr "");
           ("interview_start", VStr "63894914100000000");
           ("interview_end", VStr "63894917700000000");
           ("status", VStr "failed"); ("error", VStr "quota exceeded")]];
       email_status :=
         [[("email", VStr ""); ("status", VStr "failed");
           ("message", VStr "connection refused")]] |}
  = ("Successfully scheduled " ++ str_int (Z.of_nat (List.length [0; -1]))
     ++ " interviews")%string.
Proof.
  refine (proj2 (proj2 (proj2 (proj2
            (select_candidates_result (run example_requests) example_world
               [0; -1] "63894909600000000" 60 _ _))))).
  vm_compute; reflexivity.
Defined.





(** With a calendar service, a stored candidate whose name cannot be
    printed makes the endpoint answer with status 500. *)
Lemma select_candidates_unprintable_name :
  exists detail,
    select_candidates
      {| candidates_store := [[("name", VStr lone_surrogate)]];
         job_description_store := "Python developer" |}
      example_world [0] "63894909600000000" 60
    = Raise (HTTPException 500 detail).
Proof.
  eexists; vm_compute; reflexivity.
Qed.



(** ** The uploads *)

Lemma parse_resume_without_client (api_key : option string)
  (argsort : list Q -> list nat) (file : resume) (job_description : string)
  (e : exn) :
  get_client api_key = Raise e ->
  exists x,
    parse_resume api_key argsort file job_description
    = VDict [("error", VStr (exn_str x))].
Proof.
  intro Hc.
  assert (H : exists x,
             extracted_candidate api_key argsort file job_description
             = Raise x).
  { unfold extracted_candidate.
    destruct (load_pdf file) as [docs|x]; cbn [bind]; [|eauto].
    destruct (similarity file docs) as [sim|x]; cbn [bind]; [|eauto].
    destruct (retrieve_chunks argsort docs sim 5) as [chunks|x]; cbn [bind];
      [|eauto].
    unfold generate_candidate_info; rewrite Hc; cbn [bind]; eauto. }
  destruct H as [x Hx]; exists x.
  unfold parse_resume; rewrite Hx; reflexivity.
Qed.

Lemma parsed_candidates_without_client (api_key : option string)
  (argsort : list Q -> list nat) (files : list upload)
  (job_description_store : string) (e : exn) :
  get_client api_key = Raise e ->
  (forall parsed,
      parsed_candidates api_key argsort files job_description_store
      = Ok parsed ->
      parsed = [])
  /\ (Forall settled files ->
      parsed_candidates api_key argsort files job_description_store
      = Ok []).
Proof.
  intro Hc; induction files as [|file rest [IH1 IH2]];
    cbn [parsed_candidates].
  - split; [intros parsed H; injection H as <-; reflexivity|reflexivity].
  - destruct (parse_resume_without_client api_key argsort (content file)
                job_description_store e Hc) as [x ->].
    split.
    + intro parsed.
      destruct (negb (ends_with ".pdf" (filename file))); [apply IH1|].
      destruct (write_file file); cbn [bind];
        [destruct (remove_file file); cbn [bind contains Dict.mem
                                            Dict.lookup String.eqb]|];
        try apply IH1;
        (destruct (handle_failure file); cbn [bind];
         [apply IH1|discriminate]).
    + intro Hs; inversion Hs as [|? ? Hfile Hrest]; subst.
      specialize (IH2 Hrest).
      destruct (negb (ends_with ".pdf" (filename file))); [exact IH2|].
      destruct Hfile as [[-> ->]|Hh]; [exact IH2|].
      destruct (write_file file); cbn [bind];
        [destruct (remove_file file); cbn [bind contains Dict.mem
                                            Dict.lookup String.eqb]|];
        try exact IH2; rewrite Hh; exact IH2.
Qed.

(** X23. Without an API key no upload succeeds, and the store is not
    touched: [get_client] raises inside [parse_resume], which turns it
    into an error record, and the upload drops the record. Once a job
    description is posted, [upload_resumes] answers with status 400 and
    ['No valid resumes processed'] when each file is one whose temporary
    copy is written and removed or whose failure the handler gets over;
    what the handler raises otherwise leaves [upload_resumes]. *)
Theorem upload_resumes_without_key (st : server) (api_key : option string)
  (argsort : list Q -> list nat) (service : nat -> reply)
  (files : list upload) (e : exn) :
  get_client api_key = Raise e ->
  job_description_store st <> "" ->
  (exists x,
      upload_resumes_on st api_key argsort service files = (Raise x, st))
  /\ (Forall settled files ->
      upload_resumes_on st api_key argsort service files
      = (Raise (HTTPException 400 "No valid resumes processed"), st)).
Proof.
  intros Hc Hjd; unfold upload_resumes_on, upload_resumes.
  destruct (job_description_store st) as [|a jd]; [congruence|].
  destruct (parsed_candidates_without_client api_key argsort files
              (String a jd) e Hc) as [H1 H2].
  split.
  - destruct (parsed_candidates api_key argsort files (String a jd))
      as [parsed|x]; cbn [bind]; [|eauto].
    rewrite (H1 parsed eq_refl); eauto.
  - intro Hs; rewrite (H2 Hs); reflexivity.
Qed.

Lemma upload_resumes_without_key_witness :
  upload_resumes_on (run [PostJobDescription "Python developer"]) None
    Np.stable_argsort (fun _ => Raise (ExternalError "timeout"))
    [example_file "ann.pdf" (quoted "{'name': 'Ann', 'skills': ['SQL']}")]
  = (Raise (HTTPException 400 "No valid resumes processed"),
     run [PostJobDescription "Python developer"]).
Proof.
  destruct (upload_resumes_without_key
              (run [PostJobDescription "Python developer"]) None
              Np.stable_argsort (fun _ => Raise (ExternalError "timeout"))
              [example_file "ann.pdf"
                 (quoted "{'name': 'Ann', 'skills': ['SQL']}")]
              (ValueError "AI_API_KEY not set in environment"))
    as [_ H].
  - reflexivity.
  - discriminate.
  - apply H; repeat constructor.
Defined.

(** A temporary file that cannot be removed, neither in the [try] nor in
    the handler, makes the upload raise what the second removal raises,
    which is no response of the endpoint. *)
Lemma upload_resumes_unremovable_file :
  upload_resumes "Python developer" (Some "key") Np.stable_argsort
    (fun _ => Raise (ExternalError "timeout"))
    [{| filename := "ann.pdf";
        write_file := Ok tt;
        content :=
          {| load_pdf := Ok ["Ann, engineer"];
             similarity := fun _ => Ok [1 # 2]%Q;
             extraction := Ok (Some (quoted "{'name': 'Ann'}")) |};
        remove_file := Raise (ExternalError "permission denied");
        left_over := true;
        remove_left_over := Raise (ExternalError "permission denied") |}]
  = Raise (ExternalError "permission denied").
Proof.
  vm_compute; reflexivity.
Qed.



